(** * ragServer: the session-scoped retrieval pipeline of [src/ragServer.py]

    A shallow embedding of [chunk_text], [index_pdf] and [rag_query], of the
    Python built-ins and of the [re] operations they call, and the
    properties of the pipeline stated over that embedding.

    Conventions.
    - A Python [str] is a [string]; a character is a code point of the
      Latin-1 range U+0000..U+00FF held in an [ascii] (so ["233"%char] is
      U+00E9, e with acute accent).  Texts with code points above U+00FF
      are outside the model.
    - A Python [int] that may be negative or is compared with a length is a
      [Z]; positions inside a string are [nat].
    - A Python [float] and a component of an embedding are exact rationals
      ([Q]); rounding and NaN are not modelled.
    - [print] calls write to the standard output only and are left out. *)

From Stdlib Require Import ZArith QArith Lia Lqa Ascii String List Bool.
From Stdlib Require Import DecimalString.
From stdpp Require Import base option list gmap strings.

Local Open Scope Z_scope.

(** ** Exceptions *)

Inductive exn : Type :=
| IndexError
| ValueError
| AssertionError
| AttributeError
| OSError.

Inductive outcome (A : Type) : Type :=
| Return (a : A)
| Raise (e : exn).
Arguments Return {A} a.
Arguments Raise {A} e.

(** ** Python built-ins *)

Module Py.

Definition ord (c : ascii) : N := N_of_ascii c.
Definition chr (n : N) : ascii := ascii_of_N n.

(** [str.isspace] on one character, which is also the separator test of
    [str.split()] and [str.strip()]: U+0009..U+000D, U+001C..U+0020,
    U+0085 and U+00A0. *)
Definition isspace (c : ascii) : bool :=
  let n := ord c in
  ((9 <=? n) && (n <=? 13) || (28 <=? n) && (n <=? 32)
   || (n =? 133) || (n =? 160))%N.

(** Lower-case mapping of one character: A..Z, and U+00C0..U+00DE
    except the multiplication sign U+00D7, move up by 32. *)
Definition tolower (c : ascii) : ascii :=
  let n := ord c in
  if ((65 <=? n) && (n <=? 90)
      || (192 <=? n) && (n <=? 222) && negb (n =? 215))%N
  then chr (n + 32) else c.

(** [s.lower()] *)
Fixpoint lower (s : string) : string :=
  match s with
  | EmptyString => EmptyString
  | String c s' => String (tolower c) (lower s')
  end.

(** [s.split()]: skip separators, then take the longest run of
    characters that are not separators; [cur] is the run read so far. *)
Fixpoint split_go (cur : string) (s : string) : list string :=
  match s with
  | EmptyString => match cur with EmptyString => [] | _ => [cur] end
  | String c s' =>
      if isspace c
      then match cur with
           | EmptyString => split_go EmptyString s'
           | _ => cur :: split_go EmptyString s'
           end
      else split_go (cur +:+ String c EmptyString) s'
  end.

Definition split (s : string) : list string := split_go EmptyString s.

(** [sep.join(l)] *)
Fixpoint join (sep : string) (l : list string) : string :=
  match l with
  | [] => EmptyString
  | [w] => w
  | w :: l' => w +:+ sep +:+ join sep l'
  end.

(** [s.lstrip()], [s.rstrip()], [s.strip()] *)
Fixpoint lstrip (s : string) : string :=
  match s with
  | EmptyString => EmptyString
  | String c s' => if isspace c then lstrip s' else s
  end.

Fixpoint rstrip (s : string) : string :=
  match s with
  | EmptyString => EmptyString
  | String c s' =>
      match rstrip s' with
      | EmptyString => if isspace c then EmptyString else String c EmptyString
      | r => String c r
      end
  end.

Definition strip (s : string) : string := rstrip (lstrip s).

(** [x in s] on strings: [x] is a prefix of some suffix of [s]. *)
Fixpoint contains (x s : string) : bool :=
  String.prefix x s ||
  match s with
  | EmptyString => false
  | String _ s' => contains x s'
  end.

(** [range(start, stop, step)], unfolded as the loop it stands for.  The
    fuel is the distance between the bounds, which the loop cannot
    outlast since every step moves by at least one. *)
Fixpoint range_go (fuel : nat) (i stop step : Z) : list Z :=
  match fuel with
  | O => []
  | S fuel' =>
      if (if 0 <? step then i <? stop else stop <? i)
      then i :: range_go fuel' (i + step) stop step
      else []
  end.

Definition range (start stop step : Z) : outcome (list Z) :=
  if step =? 0 then Raise ValueError
  else Return (range_go (Z.abs_nat (stop - start)) start stop step).

(** Bound of a slice: a negative bound counts from the end, and the
    result is clamped to [0, len]. *)
Definition slice_bound (len i : Z) : Z :=
  if i <? 0 then Z.max 0 (i + len) else Z.min i len.

(** [l[i:j]] *)
Definition slice {A} (l : list A) (i j : Z) : list A :=
  let len := Z.of_nat (length l) in
  let a := slice_bound len i in
  let b := slice_bound len j in
  take (Z.to_nat (b - a)) (drop (Z.to_nat a) l).

(** [l[i]]: a negative index counts from the end; out of range raises. *)
Definition getitem {A} (l : list A) (i : Z) : outcome A :=
  let len := Z.of_nat (length l) in
  let k := if i <? 0 then i + len else i in
  if (k <? 0) || (len <=? k) then Raise IndexError
  else match l !! Z.to_nat k with
       | Some x => Return x
       | None => Raise IndexError
       end.

(** [str(n)] for a length. *)
Definition str_of_nat (n : nat) : string :=
  NilZero.string_of_uint (Nat.to_uint n).

End Py.

(** ** The [re] module

    Patterns are kept as syntax trees and run by a backtracking matcher
    with the order of choices of Python's engine: the leftmost start
    position, and among the matches from it the first one found with
    greedy repetitions and alternatives tried from left to right. *)

Module Re.

(** One member of a character class. *)
Inductive item : Type :=
| Chr (c : ascii)            (* a character *)
| Rng (lo hi : ascii)        (* a range lo-hi *)
| Space.                     (* the category \s *)

Inductive regex : Type :=
| Eps
| Lit (c : ascii)
| In (negate : bool) (items : list item)     (* [...] and [^...] *)
| Cat (r1 r2 : regex)
| Alt (r1 r2 : regex)                        (* r1|r2 *)
| Star (r : regex)                           (* r*  *)
| Plus (r : regex)                           (* r+  *)
| Opt (r : regex)                            (* r?  *)
| Group (n : nat) (r : regex)                (* (r), group number n *)
| Behind (r : regex).                        (* (?<=r) *)

(** The literal string [w] as a pattern. *)
Fixpoint lits (w : string) : regex :=
  match w with
  | EmptyString => Eps
  | String c EmptyString => Lit c
  | String c w' => Cat (Lit c) (lits w')
  end.

(** Width of a pattern of fixed width, as the body of a look-behind is. *)
Fixpoint width (r : regex) : nat :=
  match r with
  | Eps => 0
  | Lit _ | In _ _ => 1
  | Cat r1 r2 => width r1 + width r2
  | Alt r1 _ => width r1
  | Group _ r' | Behind r' => width r'
  | Star _ | Plus _ | Opt _ => 0
  end.

(** The characters [lo], [lo+1], ..., up to [n] of them. *)
Fixpoint chars_from (lo : N) (n : nat) : list ascii :=
  match n with
  | O => []
  | S n' => Py.chr lo :: chars_from (N.succ lo) n'
  end.

Definition chars_of_range (lo hi : ascii) : list ascii :=
  chars_from (Py.ord lo) (N.to_nat (N.succ (Py.ord hi) - Py.ord lo)).

(** Membership of [x] in a class item.  Under IGNORECASE the compiler
    lower-cases the characters and the ranges of the class, and the
    matcher looks up the lower-cased subject character. *)
Definition item_has (ic : bool) (x : ascii) (it : item) : bool :=
  match it with
  | Chr c =>
      if ic then Ascii.eqb (Py.tolower x) (Py.tolower c) else Ascii.eqb x c
  | Rng lo hi =>
      if ic
      then existsb (fun c => Ascii.eqb (Py.tolower x) (Py.tolower c))
                   (chars_of_range lo hi)
      else ((Py.ord lo <=? Py.ord x) && (Py.ord x <=? Py.ord hi))%N
  | Space => Py.isspace (if ic then Py.tolower x else x)
  end.

Definition class_has (ic negate : bool) (items : list item) (x : ascii)
  : bool :=
  xorb negate (existsb (item_has ic x) items).

Definition lit_has (ic : bool) (c x : ascii) : bool :=
  if ic then Ascii.eqb (Py.tolower x) (Py.tolower c) else Ascii.eqb x c.

(** Spans of the groups that took part in the match, latest first. *)
Definition captures : Type := list (nat * (nat * nat)).

Section Matcher.
Variable ic : bool.         (* the flag re.IGNORECASE *)
Variable s : string.        (* the subject *)

Definition cont : Type := nat -> captures -> option (nat * captures).

(** Greedy repetition of [body]: one more round if it matches and
    moves forward, else the rest of the pattern.  The fuel is the
    number of characters left, one at least being read by a round.  (The
    patterns of ragServer.py repeat single characters only, so a round
    that reads nothing does not occur in them.) *)
Fixpoint star (body : nat -> captures -> cont -> option (nat * captures))
    (fuel : nat) (i : nat) (c : captures) (k : cont)
  : option (nat * captures) :=
  match fuel with
  | O => k i c
  | S fuel' =>
      match body i c (fun j c' =>
                        if (i <? j)%nat then star body fuel' j c' k
                        else None) with
      | Some res => Some res
      | None => k i c
      end
  end.

(** [m r i c k]: match [r] at position [i] with the captures [c], then
    go on with [k]; [None] makes the caller try its next choice. *)
Fixpoint m (r : regex) (i : nat) (c : captures) (k : cont)
  : option (nat * captures) :=
  match r with
  | Eps => k i c
  | Lit ch =>
      match String.get i s with
      | Some x => if lit_has ic ch x then k (S i) c else None
      | None => None
      end
  | In negate items =>
      match String.get i s with
      | Some x => if class_has ic negate items x then k (S i) c else None
      | None => None
      end
  | Cat r1 r2 => m r1 i c (fun j c' => m r2 j c' k)
  | Alt r1 r2 =>
      match m r1 i c k with
      | Some res => Some res
      | None => m r2 i c k
      end
  | Star r' => star (m r') (String.length s - i) i c k
  | Plus r' =>
      m r' i c (fun j c' => star (m r') (String.length s - j) j c' k)
  | Opt r' =>
      match m r' i c k with
      | Some res => Some res
      | None => k i c
      end
  | Group n r' => m r' i c (fun j c' => k j ((n, (i, j)) :: c'))
  | Behind r' =>
      if (i <? width r')%nat then None
      else match m r' (i - width r') c
                   (fun j c' => if (j =? i)%nat then Some (j, c') else None)
           with
           | Some (_, c') => k i c'
           | None => None
           end
  end.

(** A match that starts at [i]; with [must_advance] an empty one is
    refused. *)
Definition match_at (r : regex) (i : nat) (must_advance : bool)
  : option (nat * captures) :=
  m r i [] (fun j c =>
              if must_advance && (j =? i)%nat then None else Some (j, c)).

(** The first match at or after [i]: start, end and captures.
    [must_advance] holds for the first start position only. *)
Fixpoint search_go (fuel : nat) (r : regex) (i : nat) (must_advance : bool)
  : option (nat * nat * captures) :=
  match match_at r i must_advance with
  | Some (j, c) => Some (i, j, c)
  | None =>
      match fuel with
      | O => None
      | S fuel' => search_go fuel' r (S i) false
      end
  end.

Definition search_from (r : regex) (pos : nat) (must_advance : bool)
  : option (nat * nat * captures) :=
  search_go (String.length s - pos) r pos must_advance.

(** The spans of the successive matches, as [re.split] and [re.sub]
    walk them: the next search starts where the last match ended and
    must advance when that match was empty. *)
Fixpoint spans_go (fuel : nat) (r : regex) (pos : nat) (must_advance : bool)
  : list (nat * nat) :=
  match fuel with
  | O => []
  | S fuel' =>
      match search_from r pos must_advance with
      | None => []
      | Some (b, e, _) => (b, e) :: spans_go fuel' r e (e =? b)%nat
      end
  end.

Definition spans (r : regex) : list (nat * nat) :=
  spans_go (2 * String.length s + 2) r 0 false.

(** The pieces of the subject between the spans, from [last] on. *)
Fixpoint pieces (last : nat) (sp : list (nat * nat)) : list string :=
  match sp with
  | [] => [String.substring last (String.length s - last) s]
  | (b, e) :: sp' => String.substring last (b - last) s :: pieces e sp'
  end.

End Matcher.

(** A match object: the subject and the spans of the whole match and of
    its groups. *)
Record match_object : Type := {
  subject : string;
  span : nat * nat;
  groups : captures;
}.

(** [re.search(r, s, flags)] *)
Definition search (ic : bool) (r : regex) (s : string) : option match_object :=
  match search_from ic s r 0 false with
  | Some (b, e, c) => Some {| subject := s; span := (b, e); groups := c |}
  | None => None
  end.

Fixpoint assoc (n : nat) (c : captures) : option (nat * nat) :=
  match c with
  | [] => None
  | (n', sp) :: c' => if (n =? n')%nat then Some sp else assoc n c'
  end.

(** [mo.group(n)], [None] when the group took no part in the match. *)
Definition group (mo : match_object) (n : nat) : option string :=
  match assoc n (groups mo) with
  | Some (b, e) => Some (String.substring b (e - b) (subject mo))
  | None => None
  end.

(** [re.split(r, s)] for a pattern without groups. *)
Definition split (ic : bool) (r : regex) (s : string) : list string :=
  pieces s 0 (spans ic s r).

(** [re.sub(r, repl, s)] for a replacement without group references. *)
Definition sub (ic : bool) (r : regex) (repl : string) (s : string) : string :=
  Py.join repl (pieces s 0 (spans ic s r)).

End Re.

(** ** chunk_text (ragServer.py, lines 26-28) *)

Definition chunk_text (text : string) (chunk_size : Z)
  : outcome (list string) :=
  let words := Py.split text in
  match Py.range 0 (Z.of_nat (length words)) chunk_size with
  | Raise e => Raise e
  | Return starts =>
      Return (map (fun i => Py.join " " (Py.slice words i (i + chunk_size)))
                  starts)
  end.

(** The default of the keyword argument, [chunk_size=128]. *)
Definition chunk_size_default : Z := 128.

(** ** Vectors and the numeric libraries *)

(** An embedding: a row of a two-dimensional array. *)
Definition vec : Type := list Q.

Definition Qltb (x y : Q) : bool := negb (Qle_bool y x).

Module Np.

(** [a.shape[1]] of the array [numpy.asarray] builds from the rows [a], as
    [model.encode] returns it: without a row the array has the shape
    (0,), of one dimension only, and the index 1 is out of range. *)
Definition shape1 (a : list vec) : outcome nat :=
  match a with
  | [] => Raise IndexError
  | r :: _ => Return (length r)
  end.

(** Modelled from the spec: [numpy.argmax] is not under src/.  "argmax
    over a stable sequence returns the first maximal index": the scan
    keeps its candidate unless a strictly larger value comes. *)
Fixpoint argmax_go (l : list Q) (i : nat) (best : nat * Q) : nat :=
  match l with
  | [] => fst best
  | x :: l' =>
      if Qle_bool x (snd best) then argmax_go l' (S i) best
      else argmax_go l' (S i) (i, x)
  end.

(** Modelled from the spec: [numpy.argmax] on a list, which must not be
    empty. *)
Definition argmax (l : list Q) : outcome nat :=
  match l with
  | [] => Raise ValueError
  | x :: l' => Return (argmax_go l' 1 (0%nat, x))
  end.

End Np.

Module Faiss.

(** Modelled from the spec: [faiss.IndexFlatL2] is not under src/.  The
    index "owns a mapping from an insertion-ordered integer position to
    an embedding vector" of one dimensionality. *)
Record IndexFlatL2 : Type := {
  d : nat;
  xb : list vec;
}.

(** Modelled from the spec: [faiss.IndexFlatL2(dim)], an index without
    vectors. *)
Definition new (dim : nat) : IndexFlatL2 := {| d := dim; xb := [] |}.

(** Modelled from the spec: [add] "bulk-appends a batch of vectors"; rows
    of another dimensionality "must fail fast". *)
Definition add (index : IndexFlatL2) (x : list vec) : outcome IndexFlatL2 :=
  if forallb (fun r => (length r =? d index)%nat) x
  then Return {| d := d index; xb := xb index ++ x |}
  else Raise AssertionError.

(** Modelled from the spec: "distance metric: squared L2", in exact
    arithmetic. *)
Fixpoint fvec_L2sqr (x y : vec) : Q :=
  match x, y with
  | a :: x', b :: y' => ((a - b) * (a - b) + fvec_L2sqr x' y')%Q
  | _, _ => 0%Q
  end.

(** Modelled from the spec: [search] is a "brute-force linear scan over
    all stored vectors" that yields the hits "ascending by squared
    Euclidean distance, length min(k, stored_count)", and "when two
    stored vectors are equidistant, the lower row index wins".  A hit is
    put behind the hits that are not farther than it. *)
Fixpoint insert_hit (h : nat * Q) (res : list (nat * Q)) : list (nat * Q) :=
  match res with
  | [] => [h]
  | h' :: res' =>
      if Qltb (snd h) (snd h') then h :: res else h' :: insert_hit h res'
  end.

(** Modelled from the spec: the scan of the rows, numbered from [i], that
    keeps the [k] best hits so far. *)
Fixpoint scan (q : vec) (k : nat) (rows : list vec) (i : nat)
    (res : list (nat * Q)) : list (nat * Q) :=
  match rows with
  | [] => res
  | r :: rows' =>
      scan q k rows' (S i) (take k (insert_hit (i, fvec_L2sqr q r) res))
  end.

(** Modelled from the spec: the hits of one query vector. *)
Definition search1 (index : IndexFlatL2) (q : vec) (k : nat)
  : list (nat * Q) :=
  scan q k (xb index) 0 [].

(** Modelled from the spec: [D, I = index.search(x, k)], one list of
    distances and one list of row indexes for each query vector of the
    batch [x]; a query of another dimensionality fails fast. *)
Definition search (index : IndexFlatL2) (x : list vec) (k : nat)
  : outcome (list (list Q) * list (list Z)) :=
  if forallb (fun q => (length q =? d index)%nat) x
  then let hits := map (fun q => search1 index q k) x in
       Return (map (map snd) hits,
               map (map (fun h => Z.of_nat (fst h))) hits)
  else Raise AssertionError.

End Faiss.

(** ** The server state *)

(** A value of [PDF_INDEXES]: the dict with the keys "index" and "chunks". *)
Record entry : Type := {
  index : Faiss.IndexFlatL2;
  chunks : list string;
}.

(** The global [PDF_INDEXES], and the batches handed to [model.encode] so
    far, oldest first: the trace of the calls of the embedder. *)
Record state : Type := {
  PDF_INDEXES : gmap string entry;
  encoded : list (list string);
}.

Definition init_state : state := {| PDF_INDEXES := ∅; encoded := [] |}.

(** Computations that read and write the state and may raise. *)
Definition M (A : Type) : Type := state -> outcome A * state.

Definition ret {A} (a : A) : M A := fun st => (Return a, st).

Definition bind {A B} (m : M A) (k : A -> M B) : M B :=
  fun st =>
    match m st with
    | (Return a, st') => k a st'
    | (Raise e, st') => (Raise e, st')
    end.

Definition lift {A} (o : outcome A) : M A := fun st => (o, st).

Notation "x <- m ;; k" := (bind m (fun x => k))
  (at level 100, m at next level, right associativity).

(** [PDF_INDEXES[session_id] = e] *)
Definition setitem (session_id : string) (e : entry) : M unit :=
  fun st =>
    (Return tt, {| PDF_INDEXES := <[session_id := e]> (PDF_INDEXES st);
                   encoded := encoded st |}).

(** [session_id in PDF_INDEXES] and [PDF_INDEXES[session_id]] *)
Definition lookup_session (session_id : string) : M (option entry) :=
  fun st => (Return (PDF_INDEXES st !! session_id), st).

(** ** Constants of ragServer.py *)

(** U+00E9, e with acute accent, as a one-character string. *)
Definition e_acute : string := String "233" EmptyString.

(** "Aucun PDF indexé pour cette session." (line 47) *)
Definition no_index_message : string :=
  "Aucun PDF index" +:+ e_acute +:+ " pour cette session.".

(** The trigger phrases of line 67: "présenté", "présentateur",
    "auteur", "qui a fait", "qui a écrit", "qui a réalisé". *)
Definition triggers : list string :=
  [ "pr" +:+ e_acute +:+ "sent" +:+ e_acute;
    "pr" +:+ e_acute +:+ "sentateur";
    "auteur";
    "qui a fait";
    "qui a " +:+ e_acute +:+ "crit";
    "qui a r" +:+ e_acute +:+ "alis" +:+ e_acute ].

(** [(?<=[.!?]) +] (line 57) *)
Definition sentence_end : Re.regex :=
  Re.Cat (Re.Behind (Re.In false [Re.Chr "."; Re.Chr "!"; Re.Chr "?"]))
         (Re.Plus (Re.Lit " ")).

(** The class of line 69,
    [[A-ZÉÈÀÂÎÔÛÇa-zéèàâêîôûç'\- ]]. *)
Definition name_chars : list Re.item :=
  [ Re.Rng "A" "Z";
    Re.Chr "201"; Re.Chr "200"; Re.Chr "192"; Re.Chr "194";
    Re.Chr "206"; Re.Chr "212"; Re.Chr "219"; Re.Chr "199";
    Re.Rng "a" "z";
    Re.Chr "233"; Re.Chr "232"; Re.Chr "224"; Re.Chr "226"; Re.Chr "234";
    Re.Chr "238"; Re.Chr "244"; Re.Chr "251"; Re.Chr "231";
    Re.Chr "'"; Re.Chr "-"; Re.Chr " " ].

(** [(présenté par|auteur|présentateur)\s*[:\-]?\s*([...]+)] (line 69) *)
Definition author_pattern : Re.regex :=
  Re.Cat
    (Re.Group 1
       (Re.Alt (Re.lits ("pr" +:+ e_acute +:+ "sent" +:+ e_acute +:+ " par"))
          (Re.Alt (Re.lits "auteur")
                  (Re.lits ("pr" +:+ e_acute +:+ "sentateur")))))
    (Re.Cat (Re.Star (Re.In false [Re.Space]))
       (Re.Cat (Re.Opt (Re.In false [Re.Chr ":"; Re.Chr "-"]))
          (Re.Cat (Re.Star (Re.In false [Re.Space]))
                  (Re.Group 2 (Re.Plus (Re.In false name_chars)))))).

(** [[^A-Za-zÀ-ÖØ-öø-ÿ'\- ]] (line 73) *)
Definition not_name_char : Re.regex :=
  Re.In true
    [ Re.Rng "A" "Z"; Re.Rng "a" "z";
      Re.Rng "192" "214"; Re.Rng "216" "246"; Re.Rng "248" "255";
      Re.Chr "'"; Re.Chr "-"; Re.Chr " " ].

(** ** index_pdf and rag_query *)

Section Server.

(** The collaborators: [extract_pdf_text] reads the file system (lines
    18-24, a wrapper of PyPDF2), [embed] is the vector the sentence
    model gives a text, [cos_sim] is
    [sentence_transformers.util.cos_sim(a, b)[0][0].item()]. *)
Context (extract_pdf_text : string -> outcome string).
Context (embed : string -> vec).
Context (cos_sim : vec -> vec -> Q).

(** [model.encode(sentences)]: one vector per text, in order. *)
Definition encode (sentences : list string) : M (list vec) :=
  fun st =>
    (Return (map embed sentences),
     {| PDF_INDEXES := PDF_INDEXES st;
        encoded := encoded st ++ [sentences] |}).

(** Lines 32-41. *)
Definition index_pdf (file_path session_id : string) : M string :=
  text <- lift (extract_pdf_text file_path) ;;
  chunks <- lift (chunk_text text chunk_size_default) ;;
  embeddings <- encode chunks ;;
  dim <- lift (Np.shape1 embeddings) ;;
  let index := Faiss.new dim in
  index <- lift (Faiss.add index embeddings) ;;
  _ <- setitem session_id {| index := index; chunks := chunks |} ;;
  ret ("PDF index" +:+ e_acute +:+ " avec "
       +:+ Py.str_of_nat (length chunks) +:+ " passages.").

(** Lines 57-65: the sentence of the chunk that answers best. *)
Definition select_sentence (question best_chunk : string) : M string :=
  let sentences := Re.split false sentence_end best_chunk in
  if (length sentences =? 1)%nat then ret best_chunk
  else
    sent_embs <- encode sentences ;;
    q_embs <- encode [question] ;;
    q_emb_single <- lift (Py.getitem q_embs 0) ;;
    let sims := map (fun s_emb => cos_sim q_emb_single s_emb) sent_embs in
    best_idx <- lift (Np.argmax sims) ;;
    lift (Py.getitem sentences (Z.of_nat best_idx)).

(** Line 67: does the question ask for the author or the presenter? *)
Definition asks_author (question : string) : bool :=
  existsb (fun x => Py.contains x (Py.lower question)) triggers.

(** Lines 67-75: the name found in the sentence, else the sentence. *)
Definition extract_author (question best_sentence : string)
  : outcome string :=
  if asks_author question then
    match Re.search true author_pattern best_sentence with
    | Some mo =>
        match Re.group mo 2 with
        | Some g =>
            let nom := Py.strip g in
            Return (Re.sub false not_name_char EmptyString nom)
        | None => Raise AttributeError
        end
    | None => Return best_sentence
    end
  else Return best_sentence.

(** Lines 54-75: the refinement of the best chunk. *)
Definition refine (question best_chunk : string) : M string :=
  best_sentence <- select_sentence question best_chunk ;;
  lift (extract_author question best_sentence).

(** Lines 44-75. *)
Definition rag_query (question session_id : string) : M string :=
  found <- lookup_session session_id ;;
  match found with
  | None => ret no_index_message
  | Some e =>
      q_emb <- encode [question] ;;
      DI <- lift (Faiss.search (index e) q_emb 1) ;;
      let I := snd DI in
      I0 <- lift (Py.getitem I 0) ;;
      idx <- lift (Py.getitem I0 0) ;;
      best_chunk <- lift (Py.getitem (chunks e) idx) ;;
      refine question best_chunk
  end.

End Server.

(** ** Instances of the collaborators for closed examples *)

Module Demo.

Fixpoint count_char (c : ascii) (s : string) : nat :=
  match s with
  | EmptyString => 0
  | String x s' => (if Ascii.eqb x c then 1 else 0) + count_char c s'
  end.

(** A text as a point of the plane: its length and its number of "e". *)
Definition embed (s : string) : vec :=
  [inject_Z (Z.of_nat (String.length s));
   inject_Z (Z.of_nat (count_char "e" s))].

(** The dot product, in the place of the cosine. *)
Fixpoint cos_sim (x y : vec) : Q :=
  match x, y with
  | a :: x', b :: y' => (a * b + cos_sim x' y')%Q
  | _, _ => 0%Q
  end.

(** A file system with four documents. *)
Definition extract_pdf_text (path : string) : outcome string :=
  if String.eqb path "cv.pdf" then
    Return ("Rapport annuel. Pr" +:+ e_acute +:+ "sent" +:+ e_acute
            +:+ " par Jane Doe. Merci!")
  else if String.eqb path "notes.pdf" then
    Return "The sea is deep.   Bees see trees everywhere"
  else if String.eqb path "auteur.pdf" then
    Return "Auteur : Jane Doe"
  else if String.eqb path "blank.pdf" then
    Return "   "
  else Raise OSError.

Definition index_pdf := index_pdf extract_pdf_text embed.
Definition rag_query := rag_query embed cos_sim.
Definition refine := refine embed cos_sim.
Definition select_sentence := select_sentence embed cos_sim.

End Demo.

(** ** extract_pdf_text (ragServer.py, lines 18-24)

    [open_pdf] stands for [open] and [PyPDF2.PdfReader]: for a path, the
    exception one of them raises, or for each page of the document what
    [page.extract_text()] gives, [None] or a text. *)

Definition extract_pdf_text
    (open_pdf : string -> outcome (list (option string)))
    (pdf_path : string) : outcome string :=
  match open_pdf pdf_path with
  | Raise e => Raise e
  | Return pages =>
      Return (fold_left (fun text page =>
                           text +:+ match page with
                                    | Some t => t
                                    | None => EmptyString
                                    end)
                        pages EmptyString)
  end.

(** ** clean_text (webScraperServer.py, lines 42-51) *)

(** [\s+] (line 48) *)
Definition whitespace_run : Re.regex := Re.Plus (Re.In false [Re.Space]).

(** [\n\s*\n] (line 49) *)
Definition blank_line : Re.regex :=
  Re.Cat (Re.Lit "010")
         (Re.Cat (Re.Star (Re.In false [Re.Space])) (Re.Lit "010")).

Definition clean_text (text : string) : string :=
  match text with
  | EmptyString => EmptyString
  | _ =>
      let text := Re.sub false whitespace_run " " text in
      let text :=
        Re.sub false blank_line (String "010" (String "010" EmptyString)) text in
      Py.strip text
  end.

(** ** scrape_multiple_pages (webScraperServer.py, lines 308-371)

    The tool walks a list of URLs and calls [scrape_webpage] on each valid
    one.  [is_valid_url] (lines 31-40, a wrapper of [urlparse] that catches
    every exception) and [scrape_webpage] (lines 156-305, which fetches
    and parses a page) are parameters; [scrape_webpage] acts on the
    outside world, which is threaded through, and raises nothing but
    [McpError], every other exception being wrapped by its handlers of
    lines 298-305.  The calls of [scrape_webpage] and of [time.sleep] are
    recorded in the order in which they happen; [time.sleep] returns, as
    it does for a delay that is a finite number, which a rational is.
    The [logger] calls are left out. *)

Inductive error_code : Type := INVALID_PARAMS | INTERNAL_ERROR.

(** What a tool call gives: its value, or the [McpError] it raises with
    the code and the message of its [ErrorData]; [str(e)] of an
    [McpError] is that message. *)
Inductive tool_result (A : Type) : Type :=
| Done (a : A)
| McpError (code : error_code) (message : string).
Arguments Done {A} a.
Arguments McpError {A} code message.

Inductive event : Type :=
| Fetch (url format : string)       (* scrape_webpage(url, format=format) *)
| Sleep (seconds : Q).              (* time.sleep(seconds) *)

(** [str(z)] for an [int]. *)
Definition str_of_Z (z : Z) : string := NilZero.string_of_int (Z.to_int z).

Definition line_feed : string := String "010" EmptyString.
Definition e_circ : string := String "234" EmptyString.       (* U+00EA *)
Definition c_cedilla : string := String "231" EmptyString.    (* U+00E7 *)
Definition E_acute : string := String "201" EmptyString.      (* U+00C9 *)

(** "La liste d'URLs ne peut pas être vide" (line 324) *)
Definition empty_urls_message : string :=
  "La liste d'URLs ne peut pas " +:+ e_circ +:+ "tre vide".

(** The f-string of line 327. *)
Definition too_many_message (max_pages len : Z) : string :=
  "Trop d'URLs. Maximum autoris" +:+ e_acute +:+ ": " +:+ str_of_Z max_pages
  +:+ ", re" +:+ c_cedilla +:+ "u: " +:+ str_of_Z len.

(** The f-string of line 345. *)
Definition page_block (i : Z) (url content : string) : string :=
  "=== PAGE " +:+ str_of_Z (i + 1) +:+ ": " +:+ url +:+ " ==="
  +:+ line_feed +:+ line_feed +:+ content +:+ line_feed +:+ line_feed.

(** The f-string of lines 340 and 355. *)
Definition error_block (i : Z) (url error_msg : string) : string :=
  "=== ERREUR PAGE " +:+ str_of_Z (i + 1) +:+ ": " +:+ url +:+ " ==="
  +:+ line_feed +:+ line_feed +:+ "Erreur: " +:+ error_msg
  +:+ line_feed +:+ line_feed.

(** The f-string of line 360. *)
Definition summary (len successful_scrapes : Z) : string :=
  "=== R" +:+ E_acute +:+ "SUM" +:+ E_acute +:+ " ==="
  +:+ line_feed +:+ line_feed
  +:+ "Pages trait" +:+ e_acute +:+ "es: " +:+ str_of_Z len +:+ line_feed
  +:+ "Pages r" +:+ e_acute +:+ "ussies: " +:+ str_of_Z successful_scrapes
  +:+ line_feed
  +:+ "Pages " +:+ e_acute +:+ "chou" +:+ e_acute +:+ "es: "
  +:+ str_of_Z (len - successful_scrapes) +:+ line_feed +:+ line_feed.

Section Scraper.

Context {World : Type}.
Variable is_valid_url : string -> bool.
Variable scrape_webpage :
  string -> string -> World -> tool_result string * World.
Variable sleep : Q -> World -> World.

(** The variables of the loop of lines 336-355, the outside world and the
    calls made so far. *)
Record progress : Type := {
  results : list string;
  successful_scrapes : Z;
  world : World;
  events : list event;
}.

(** Lines 337-355: one round of the loop, for the URL of index [i] of a
    list of [len] URLs. *)
Definition scrape_page (format : string) (delay : Q) (len : Z)
    (i : Z) (url : string) (p : progress) : progress :=
  if negb (is_valid_url url) then
    {| results := results p ++ [error_block i url "URL invalide"];
       successful_scrapes := successful_scrapes p;
       world := world p;
       events := events p |}
  else
    match scrape_webpage url format (world p) with
    | (Done content, w) =>
        {| results := results p ++ [page_block i url content];
           successful_scrapes := successful_scrapes p + 1;
           world := if i <? len - 1 then sleep delay w else w;
           events := events p ++ Fetch url format
                     :: (if i <? len - 1 then [Sleep delay] else []) |}
    | (McpError _ error_msg, w) =>
        {| results := results p ++ [error_block i url error_msg];
           successful_scrapes := successful_scrapes p;
           world := w;
           events := events p ++ [Fetch url format] |}
    end.

(** [for i, url in enumerate(urls)], from the index [i] on. *)
Fixpoint scrape_pages (format : string) (delay : Q) (len : Z)
    (i : Z) (urls : list string) (p : progress) : progress :=
  match urls with
  | [] => p
  | url :: urls' =>
      scrape_pages format delay len (i + 1) urls'
        (scrape_page format delay len i url p)
  end.

(** Lines 308-371: the result of the tool, the world after it and the
    calls it made. *)
Definition scrape_multiple_pages (urls : list string) (format : string)
    (delay : Q) (max_pages : Z) (w : World)
  : tool_result string * World * list event :=
  let len := Z.of_nat (length urls) in
  match urls with
  | [] => (McpError INVALID_PARAMS empty_urls_message, w, [])
  | _ =>
      if max_pages <? len
      then (McpError INVALID_PARAMS (too_many_message max_pages len), w, [])
      else
        let delay := if Qltb delay (1 # 10) then (1 # 10)%Q else delay in
        let p := scrape_pages format delay len 0 urls
                   {| results := []; successful_scrapes := 0;
                      world := w; events := [] |} in
        let final_result := Py.join line_feed (results p) in
        let final_result :=
          summary len (successful_scrapes p) +:+ final_result in
        (Done final_result, world p, events p)
  end.

End Scraper.

Module DemoWeb.

(** A network with one page that answers; the world counts the requests
    made. *)
Definition is_valid_url (url : string) : bool :=
  String.prefix "http://" url || String.prefix "https://" url.

Definition scrape_webpage (url format : string) (w : nat)
  : tool_result string * nat :=
  (if String.eqb url "https://a.example" then Done "Page A"
   else McpError INTERNAL_ERROR ("Erreur de connexion vers " +:+ url),
   S w).

Definition sleep (seconds : Q) (w : nat) : nat := w.

Definition scrape_multiple_pages :=
  scrape_multiple_pages is_valid_url scrape_webpage sleep.

End DemoWeb.

(** ** extract_links (webScraperServer.py, lines 374-475)

    The tool requests one page and lists the links of its anchors.
    Parameters: [is_valid_url] as above; [netloc u] for
    [urlparse(u).netloc]; [urljoin], which may raise; [safe_request]
    (lines 53-92), which acts on the outside world and raises nothing but
    [McpError]; [anchors response] for the anchors that
    [BeautifulSoup(response.text, "html.parser").find_all('a', href=True)]
    finds, each given by its [href] attribute and its text; [strftime] for
    the clock; [dumps] for [json.dumps] on the dictionary of lines
    456-463.  The parser and the serialiser are taken to return. *)

Module Links.

(** The dictionary of lines 434-438. *)
Record link : Type := {
  text : string;
  url : string;
  type : string;
}.

(** The dictionary of lines 456-463. *)
Record result : Type := {
  source_url : string;
  total_links : nat;
  internal_links : nat;
  external_links : nat;
  links : list link;
  extracted_at : string;
}.

End Links.

Definition valid_link_types : list string := ["all"; "internal"; "external"].

(** The f-string of line 395. *)
Definition link_type_message (link_type : string) : string :=
  "Type de lien invalide: " +:+ link_type +:+ ". Types valides: "
  +:+ Py.join ", " valid_link_types.

(** Lines 441-450: the links whose URL has not been seen, in order. *)
Fixpoint unique_from (seen_urls : gset string) (links : list Links.link)
  : list Links.link :=
  match links with
  | [] => []
  | link :: links' =>
      if decide (Links.url link ∈ seen_urls)
      then unique_from seen_urls links'
      else link :: unique_from (seen_urls ∪ {[Links.url link]}) links'
  end.

Section ExtractLinks.

Context {World Response : Type}.
Variable is_valid_url : string -> bool.
Variable netloc : string -> string.
Variable urljoin : string -> string -> outcome string.
Variable safe_request : string -> World -> tool_result Response * World.
Variable anchors : Response -> list (string * string).
Variable strftime : World -> string.
Variable dumps : Links.result -> string.

(** Lines 407-443: one round of the loop over the anchors; [None] when the
    anchor is passed over, by a [continue] or by the handler of line 441.
    [a] is the [href] attribute and the text of the anchor. *)
Definition candidate (url : string) (filter_domain : bool)
    (link_type : string) (a : string * string) : option Links.link :=
  let href := Py.strip (fst a) in
  if String.eqb href EmptyString || String.prefix "#" href
     || String.prefix "mailto:" href || String.prefix "tel:" href
  then None
  else
    match urljoin url href with
    | Raise _ => None
    | Return absolute_url =>
        if negb (is_valid_url absolute_url) then None
        else
          let link_domain := netloc absolute_url in
          let is_internal := String.eqb link_domain (netloc url) in
          if String.eqb link_type "internal" && negb is_internal then None
          else if String.eqb link_type "external" && is_internal then None
          else if filter_domain && negb is_internal then None
          else
            let link_text := clean_text (snd a) in
            Some {| Links.text :=
                      match link_text with
                      | EmptyString => "Lien sans texte"
                      | _ => String.substring 0 200 link_text
                      end;
                    Links.url := absolute_url;
                    Links.type :=
                      if is_internal then "internal" else "external" |}
    end.

(** Lines 403-463: the dictionary built from the response. *)
Definition links_result (url : string) (filter_domain : bool)
    (link_type : string) (response : Response) (w : World) : Links.result :=
  let links :=
    omap (candidate url filter_domain link_type) (anchors response) in
  let unique_links := unique_from ∅ links in
  let internal_count :=
    length (List.filter (fun l => String.eqb (Links.type l) "internal")
              unique_links) in
  let external_count :=
    length (List.filter (fun l => String.eqb (Links.type l) "external")
              unique_links) in
  {| Links.source_url := url;
     Links.total_links := length unique_links;
     Links.internal_links := internal_count;
     Links.external_links := external_count;
     Links.links := unique_links;
     Links.extracted_at := strftime w |}.

(** Lines 374-475. *)
Definition extract_links (url : string) (filter_domain : bool)
    (link_type : string) (w : World) : tool_result string * World :=
  if negb (is_valid_url url)
  then (McpError INVALID_PARAMS "URL invalide", w)
  else if negb (existsb (String.eqb link_type) valid_link_types)
  then (McpError INVALID_PARAMS (link_type_message link_type), w)
  else
    match safe_request url w with
    | (McpError code message, w') => (McpError code message, w')
    | (Done response, w') =>
        (Done (dumps (links_result url filter_domain link_type response w')),
         w')
    end.

End ExtractLinks.

Module DemoLinks.

(** A site of two hosts; a response is the list of its anchors. *)
Definition netloc (u : string) : string :=
  if String.prefix "https://a.example" u then "a.example"
  else if String.prefix "https://b.example" u then "b.example"
  else EmptyString.

Definition urljoin (base href : string) : outcome string :=
  if String.prefix "https://" href then Return href
  else if String.prefix "/" href then Return ("https://a.example" +:+ href)
  else Raise ValueError.

Definition safe_request (u : string) (w : nat)
  : tool_result (list (string * string)) * nat :=
  (if String.eqb u "https://a.example/"
   then Done [ ("/about", "About  us"); ("#top", "Top");
               ("https://b.example/x", "Partner");
               (" /about ", "About again"); ("/contact", EmptyString) ]
   else McpError INTERNAL_ERROR ("Erreur de connexion vers " +:+ u),
   S w).

Definition anchors (response : list (string * string)) := response.

Definition strftime (w : nat) : string := "2024-01-01 00:00:00".

Definition dumps (r : Links.result) : string :=
  Py.join ", " (map Links.url (Links.links r)).

Definition links_result :=
  links_result DemoWeb.is_valid_url netloc urljoin anchors strftime.

Definition extract_links :=
  extract_links DemoWeb.is_valid_url netloc urljoin safe_request anchors
    strftime dumps.

End DemoLinks.

(** ** The list of URLs of the client (streamlitClient.py, line 195)

    [urls_text] is the content of the text area of line 182; the list is
    built when [urls_text.strip()] is not empty (line 194). *)

(** [s.split(sep)] for a separator of one character. *)
Fixpoint split_on (sep : ascii) (s : string) : list string :=
  match s with
  | EmptyString => [EmptyString]
  | String c s' =>
      if Ascii.eqb c sep then EmptyString :: split_on sep s'
      else match split_on sep s' with
           | piece :: pieces => String c piece :: pieces
           | [] => []
           end
  end.

(** [[url.strip() for url in urls_text.strip().split('\n') if url.strip()]] *)
Definition urls_list (urls_text : string) : list string :=
  map Py.strip
    (List.filter (fun url => negb (String.eqb (Py.strip url) EmptyString))
       (split_on "010" (Py.strip urls_text))).

(** ** Vocabulary of the statements *)

Fixpoint all_chars (p : ascii -> bool) (s : string) : bool :=
  match s with
  | EmptyString => true
  | String c s' => p c && all_chars p s'
  end.

(** A word: at least one character, none of them a separator. *)
Definition word (w : string) : Prop :=
  w <> EmptyString /\ all_chars (fun c => negb (Py.isspace c)) w = true.

(** The entry that [index_pdf] stores for the file [file_path], when it
    gets as far as line 40. *)
Definition published (extract_pdf_text : string -> outcome string)
    (embed : string -> vec) (file_path : string) : option entry :=
  match extract_pdf_text file_path with
  | Return text =>
      match chunk_text text chunk_size_default with
      | Return chunks =>
          match Np.shape1 (map embed chunks) with
          | Return dim =>
              match Faiss.add (Faiss.new dim) (map embed chunks) with
              | Return index => Some {| index := index; chunks := chunks |}
              | Raise _ => None
              end
          | Raise _ => None
          end
      | Raise _ => None
      end
  | Raise _ => None
  end.

(** [m] leaves [PDF_INDEXES] as it found it. *)
Definition keeps_indexes {A} (m : M A) : Prop :=
  forall st, PDF_INDEXES (snd (m st)) = PDF_INDEXES st.

(** The outcome of [m] is the same from every state. *)
Definition blind {A} (m : M A) : Prop :=
  forall st st', fst (m st) = fst (m st').

(** The states the server goes through: from the empty registry, by
    calls of the two tools. *)
Inductive reachable (extract_pdf_text : string -> outcome string)
    (embed : string -> vec) (cos_sim : vec -> vec -> Q) : state -> Prop :=
| reach_init : reachable extract_pdf_text embed cos_sim init_state
| reach_index_pdf st file_path session_id :
    reachable extract_pdf_text embed cos_sim st ->
    reachable extract_pdf_text embed cos_sim
      (snd (index_pdf extract_pdf_text embed file_path session_id st))
| reach_rag_query st question session_id :
    reachable extract_pdf_text embed cos_sim st ->
    reachable extract_pdf_text embed cos_sim
      (snd (rag_query embed cos_sim question session_id st)).

(** An entry as [index_pdf] builds it: at least one chunk, row [i] of the
    index is the embedding of chunk [i], and the dimension of the index is
    the length of these rows. *)
Definition entry_ok (embed : string -> vec) (e : entry) : Prop :=
  chunks e <> [] /\
  Faiss.xb (index e) = map embed (chunks e) /\
  Forall (fun c => length (embed c) = Faiss.d (index e)) (chunks e).

(** The first character of [s], if any, is no separator; so is the last. *)
Definition starts_word (s : string) : bool :=
  match s with
  | EmptyString => false
  | String c _ => negb (Py.isspace c)
  end.

Fixpoint ends_word (s : string) : bool :=
  match s with
  | EmptyString => false
  | String c EmptyString => negb (Py.isspace c)
  | String _ s' => ends_word s'
  end.


(** The pattern [r] ends with the group number [n]. *)
Fixpoint ends_with_group (n : nat) (r : Re.regex) : bool :=
  match r with
  | Re.Cat _ r2 => ends_with_group n r2
  | Re.Group n' _ => (n =? n')%nat
  | _ => false
  end.

(** The text of the status [index_pdf] returns for [n] chunks,
    "PDF indexé avec n passages." (line 41). *)
Definition indexed_message (n : nat) : string :=
  "PDF index" +:+ e_acute +:+ " avec " +:+ Py.str_of_nat n +:+ " passages.".

(** A pattern without group and without look-behind. *)
Fixpoint simple (r : Re.regex) : bool :=
  match r with
  | Re.Eps | Re.Lit _ | Re.In _ _ => true
  | Re.Cat r1 r2 | Re.Alt r1 r2 => simple r1 && simple r2
  | Re.Star r' | Re.Plus r' | Re.Opt r' => simple r'
  | Re.Group _ _ | Re.Behind _ => false
  end.

(** [s[n:]] *)
Fixpoint skip (n : nat) (s : string) : string :=
  match n, s with
  | S n', String _ s' => skip n' s'
  | _, _ => s
  end.

(** The number of separators [s] starts with. *)
Fixpoint run (s : string) : nat :=
  match s with
  | String c s' => if Py.isspace c then S (run s') else 0
  | EmptyString => 0
  end.

(** The text with every run of separators made one space; [in_run] tells
    that the run in progress has its space already. *)
Fixpoint collapse_go (in_run : bool) (s : string) : string :=
  match s with
  | EmptyString => EmptyString
  | String c s' =>
      if Py.isspace c
      then if in_run then collapse_go true s'
           else String " " (collapse_go true s')
      else String c (collapse_go false s')
  end.

(** The characters of [s] that satisfy [p], in order. *)
Fixpoint filter_str (p : ascii -> bool) (s : string) : string :=
  match s with
  | EmptyString => EmptyString
  | String c s' => if p c then String c (filter_str p s') else filter_str p s'
  end.

(** The characters line 73 of ragServer.py keeps: letters, also accented
    ones, apostrophe, hyphen and space. *)
Definition name_char (c : ascii) : bool :=
  Re.class_has false false
    [ Re.Rng "A" "Z"; Re.Rng "a" "z";
      Re.Rng "192" "214"; Re.Rng "216" "246"; Re.Rng "248" "255";
      Re.Chr "'"; Re.Chr "-"; Re.Chr " " ] c.

(** The calls of [scrape_webpage] among the events, with their
    arguments, and the arguments of the calls of [time.sleep]. *)
Definition fetched (evs : list event) : list (string * string) :=
  omap (fun e => match e with
                 | Fetch url format => Some (url, format)
                 | Sleep _ => None
                 end) evs.

Definition slept (evs : list event) : list Q :=
  omap (fun e => match e with
                 | Sleep seconds => Some seconds
                 | Fetch _ _ => None
                 end) evs.

(** The block of the report for the URL of index [i]: its content, or the
    message of its error. *)
Definition block_of (i : Z) (url : string) (o : string + string) : string :=
  match o with
  | inl content => page_block i url content
  | inr error_msg => error_block i url error_msg
  end.

Fixpoint blocks (i : Z) (urls : list string) (outs : list (string + string))
  : list string :=
  match urls, outs with
  | url :: urls', o :: outs' => block_of i url o :: blocks (i + 1) urls' outs'
  | _, _ => []
  end.

Definition is_page (o : string + string) : bool :=
  match o with inl _ => true | inr _ => false end.

Definition pages_ok (outs : list (string + string)) : nat :=
  length (List.filter is_page outs).


(** A position, a match and a span moved to the right. *)
Definition shift1 (x : nat * Re.captures) : nat * Re.captures :=
  (S (fst x), snd x).

Definition shift3 (x : nat * nat * Re.captures) : nat * nat * Re.captures :=
  (S (fst (fst x)), S (snd (fst x)), snd x).

Definition shift_span (n : nat) (x : nat * nat) : nat * nat :=
  (n + fst x, n + snd x)%nat.

(** * Properties *)

(** ** Strings *)

Lemma app_cons c s t : String c s +:+ t = String c (s +:+ t).
Proof. reflexivity. Qed.

Lemma app_empty_l s : EmptyString +:+ s = s.
Proof. reflexivity. Qed.

Lemma app_empty_r s : s +:+ EmptyString = s.
Proof. induction s as [|c s IH]; [reflexivity|]. now rewrite app_cons, IH. Qed.

Lemma app_assoc_str s t u : (s +:+ t) +:+ u = s +:+ (t +:+ u).
Proof. induction s as [|c s IH]; [reflexivity|]. now rewrite !app_cons, IH. Qed.

Lemma app_eq_empty s t :
  s +:+ t = EmptyString -> s = EmptyString /\ t = EmptyString.
Proof. destruct s; [now rewrite app_empty_l|now rewrite app_cons]. Qed.

Lemma all_chars_app p s t :
  all_chars p (s +:+ t) = all_chars p s && all_chars p t.
Proof.
  induction s as [|c s IH]; [reflexivity|].
  rewrite app_cons. simpl. now rewrite IH, andb_assoc.
Qed.

(** ** [str.split] and [str.join] *)

Lemma split_go_run w : forall cur s,
  all_chars (fun c => negb (Py.isspace c)) w = true ->
  Py.split_go cur (w +:+ s) = Py.split_go (cur +:+ w) s.
Proof.
  induction w as [|c w IH]; intros cur s Hw.
  - now rewrite app_empty_l, app_empty_r.
  - simpl in Hw. apply andb_prop in Hw as [Hc Hw].
    rewrite app_cons. simpl.
    apply negb_true_iff in Hc. rewrite Hc.
    rewrite IH by assumption. now rewrite app_assoc_str.
Qed.

Lemma split_go_words s : forall cur,
  all_chars (fun c => negb (Py.isspace c)) cur = true ->
  Forall word (Py.split_go cur s).
Proof.
  induction s as [|c s IH]; intros cur Hcur; simpl.
  - destruct cur; constructor; [|constructor]. split; [discriminate|assumption].
  - destruct (Py.isspace c) eqn:Hc.
    + destruct cur.
      * now apply IH.
      * constructor; [split; [discriminate|assumption]|now apply IH].
    + apply IH. rewrite all_chars_app, Hcur. simpl. now rewrite Hc.
Qed.

Lemma split_words text : Forall word (Py.split text).
Proof. now apply split_go_words. Qed.

Lemma split_go_sep w s :
  w <> EmptyString ->
  Py.split_go w (String " " s) = w :: Py.split_go EmptyString s.
Proof. intros Hw. simpl. now destruct w. Qed.

Lemma split_join ws : Forall word ws -> Py.split (Py.join " " ws) = ws.
Proof.
  unfold Py.split. induction 1 as [|w ws [Hne Hw] Hws IH]; [reflexivity|].
  destruct ws as [|w' ws].
  - simpl. rewrite <- (app_empty_r w) at 1.
    rewrite split_go_run by assumption. simpl. now destruct w.
  - change (Py.join " " (w :: w' :: ws))
      with (w +:+ String " " (Py.join " " (w' :: ws))).
    rewrite split_go_run by assumption. rewrite app_empty_l.
    rewrite split_go_sep by assumption. now rewrite IH.
Qed.

Lemma split_only_spaces text :
  all_chars Py.isspace text = true -> Py.split text = [].
Proof.
  unfold Py.split. induction text as [|c s IH]; [reflexivity|].
  simpl. intros [Hc Hs]%andb_prop. rewrite Hc. now apply IH.
Qed.

Lemma join_cons2 sep w w' l :
  Py.join sep (w :: w' :: l) = w +:+ sep +:+ Py.join sep (w' :: l).
Proof. reflexivity. Qed.

Lemma join_app sep l1 l2 :
  l1 <> [] -> l2 <> [] ->
  Py.join sep (l1 ++ l2) = Py.join sep l1 +:+ sep +:+ Py.join sep l2.
Proof.
  intros H1 H2. induction l1 as [|w l1 IH]; [congruence|].
  destruct l1 as [|w' l1].
  - destruct l2; [congruence|reflexivity].
  - change ((w :: w' :: l1) ++ l2) with (w :: w' :: (l1 ++ l2)).
    rewrite !join_cons2.
    change (w' :: l1 ++ l2) with ((w' :: l1) ++ l2).
    rewrite IH by discriminate. now rewrite !app_assoc_str.
Qed.

Lemma join_concat sep groups :
  Forall (fun g : list string => g <> []) groups ->
  Py.join sep (map (Py.join sep) groups) = Py.join sep (concat groups).
Proof.
  induction 1 as [|g gs Hg Hgs IH]; [reflexivity|].
  destruct gs as [|g' gs].
  - simpl. now rewrite app_nil_r.
  - change (map (Py.join sep) (g :: g' :: gs))
      with (Py.join sep g :: Py.join sep g' :: map (Py.join sep) gs).
    rewrite join_cons2.
    change (Py.join sep g' :: map (Py.join sep) gs)
      with (map (Py.join sep) (g' :: gs)).
    rewrite IH. change (concat (g :: g' :: gs)) with (g ++ concat (g' :: gs)).
    rewrite join_app; [reflexivity|assumption|].
    inversion Hgs; subst. simpl. destruct g'; [congruence|discriminate].
Qed.

Lemma join_words_nonempty ws :
  ws <> [] -> Forall word ws -> Py.join " " ws <> EmptyString.
Proof.
  intros Hne Hws. destruct ws as [|w ws]; [congruence|].
  inversion Hws as [|? ? [Hw _] _]; subst.
  destruct ws; simpl; [assumption|].
  intros [? _]%app_eq_empty. contradiction.
Qed.

(** ** [range] and slices *)

(** The fuel of [range] is enough: more of it gives the same list. *)
Lemma range_go_fuel step stop : forall fuel fuel' i,
  step <> 0 ->
  (if 0 <? step then stop - i else i - stop) <= Z.of_nat fuel ->
  (if 0 <? step then stop - i else i - stop) <= Z.of_nat fuel' ->
  Py.range_go fuel i stop step = Py.range_go fuel' i stop step.
Proof.
  intros fuel fuel' i Hstep. revert fuel fuel' i.
  assert (Hend : forall fuel i,
            (if 0 <? step then stop - i else i - stop) <= 0 ->
            Py.range_go fuel i stop step = []).
  { intros [|fuel] i Hi; [reflexivity|]. cbn [Py.range_go].
    destruct (0 <? step);
      [replace (i <? stop) with false by (symmetry; lia)
      |replace (stop <? i) with false by (symmetry; lia)]; reflexivity. }
  induction fuel as [|fuel IH]; intros fuel' i H1 H2.
  - rewrite !Hend by lia. reflexivity.
  - destruct fuel' as [|fuel']; [rewrite !Hend by lia; reflexivity|].
    cbn [Py.range_go].
    destruct (if 0 <? step then i <? stop else stop <? i) eqn:Hi;
      [|reflexivity].
    f_equal. apply IH; destruct (0 <? step) eqn:Hs; lia.
Qed.

Lemma range_go_length n stop fuel : forall i,
  0 < n -> stop - i <= Z.of_nat fuel ->
  Z.of_nat (length (Py.range_go fuel i stop n)) =
  Z.max 0 ((stop - i + n - 1) / n).
Proof.
  induction fuel as [|fuel IH]; intros i Hn Hfuel.
  - simpl. assert ((stop - i + n - 1) / n < 1)
      by (apply Z.div_lt_upper_bound; lia). lia.
  - cbn [Py.range_go]. replace (0 <? n) with true by (symmetry; lia).
    destruct (i <? stop) eqn:Hi.
    + cbn [length]. rewrite Nat2Z.inj_succ, IH by lia.
      replace (stop - i + n - 1) with (stop - (i + n) + n - 1 + 1 * n) by lia.
      rewrite Z.div_add by lia.
      assert (0 <= (stop - (i + n) + n - 1) / n)
        by (apply Z.div_pos; lia). lia.
    + simpl. assert ((stop - i + n - 1) / n < 1)
        by (apply Z.div_lt_upper_bound; lia). lia.
Qed.

Lemma slice_window {A} (l : list A) i n :
  0 <= i -> 0 <= n ->
  Py.slice l i (i + n) = take (Z.to_nat n) (drop (Z.to_nat i) l).
Proof.
  intros Hi Hn. unfold Py.slice, Py.slice_bound.
  replace (i <? 0) with false by (symmetry; lia).
  replace (i + n <? 0) with false by (symmetry; lia).
  set (len := Z.of_nat (length l)).
  destruct (Z.le_gt_cases (i + n) len) as [Hle|Hgt].
  - rewrite !Z.min_l by lia. f_equal. lia.
  - rewrite (Z.min_r (i + n)) by lia.
    destruct (Z.le_gt_cases i len) as [Hile|Higt].
    + rewrite Z.min_l by lia.
      rewrite !take_ge; [reflexivity| |]; rewrite length_drop; lia.
    + rewrite Z.min_r, Z.sub_diag by lia.
      rewrite (drop_ge l (Z.to_nat i)) by lia. now rewrite take_nil.
Qed.

(** The windows read by the loop of [chunk_text], from position [i] on:
    together they are the rest of the list, and none of them is empty. *)
Lemma windows_cover {A} (P : A -> Prop) (l : list A) n fuel : forall i,
  Forall P l ->
  0 < n -> 0 <= i -> Z.of_nat (length l) - i <= Z.of_nat fuel ->
  let groups := map (fun j => Py.slice l j (j + n))
                    (Py.range_go fuel i (Z.of_nat (length l)) n) in
  concat groups = drop (Z.to_nat i) l /\
  Forall (fun g => g <> [] /\ Forall P g) groups.
Proof.
  induction fuel as [|fuel IH]; intros i HP Hn Hi Hfuel; cbn zeta.
  - simpl. split; [|constructor]. symmetry. apply drop_ge. lia.
  - cbn [Py.range_go]. replace (0 <? n) with true by (symmetry; lia).
    destruct (i <? Z.of_nat (length l)) eqn:Hlt.
    + destruct (IH (i + n)) as [Hcat Hall]; [assumption|lia..|].
      cbn [map concat]. rewrite Hcat, slice_window by lia. split.
      * rewrite Z2Nat.inj_add by lia. rewrite <- drop_drop.
        apply take_drop.
      * constructor; [|assumption]. split.
        -- intros Hnil. apply (f_equal length) in Hnil.
           rewrite length_take, length_drop in Hnil. simpl in Hnil. lia.
        -- now apply Forall_take, Forall_drop.
    + simpl. split; [|constructor]. symmetry. apply drop_ge. lia.
Qed.

(** ** chunk_text *)

(** C1. For a chunk size [n > 0], [chunk_text] returns; with [W] the number
    of words of the text it yields [ceil (W / n)] chunks (written both as
    [(W + n - 1) / n] and by the two bounds that define the ceiling), none
    when the text has only separators; no chunk is empty; and the chunks,
    joined again with single spaces, split into the words of the text, as
    do the chunks taken one after the other. *)
Theorem chunk_text_chunks (text : string) (n : Z) :
  0 < n ->
  exists chunks,
    chunk_text text n = Return chunks /\
    (let W := Z.of_nat (length (Py.split text)) in
     let k := Z.of_nat (length chunks) in
     k = (W + n - 1) / n /\ (k - 1) * n < W <= k * n) /\
    (all_chars Py.isspace text = true -> chunks = []) /\
    Forall (fun c => c <> EmptyString) chunks /\
    Py.split (Py.join " " chunks) = Py.split text /\
    concat (map Py.split chunks) = Py.split text.
Proof.
  intros Hn. unfold chunk_text, Py.range.
  replace (n =? 0) with false by (symmetry; lia).
  set (words := Py.split text).
  set (starts := Py.range_go _ _ _ _).
  eexists. split; [reflexivity|].
  assert (Hwords : Forall word words) by apply split_words.
  destruct (windows_cover word words n
              (Z.abs_nat (Z.of_nat (length words) - 0)) 0)
    as [Hcat Hgw]; [assumption|lia..|]. fold starts in Hcat, Hgw.
  rewrite drop_0 in Hcat.
  set (groups := map (fun j => Py.slice words j (j + n)) starts) in *.
  assert (Hchunks :
    map (fun i => Py.join " " (Py.slice words i (i + n))) starts
    = map (Py.join " ") groups) by (unfold groups; now rewrite map_map).
  rewrite Hchunks.
  assert (Hlen : Z.of_nat (length (map (Py.join " ") groups))
                 = (Z.of_nat (length words) + n - 1) / n).
  { unfold groups. rewrite !length_map. unfold starts.
    rewrite range_go_length by lia.
    rewrite Z.sub_0_r, Z.max_r; [reflexivity|apply Z.div_pos; lia]. }
  repeat split.
  - exact Hlen.
  - rewrite Hlen.
    pose proof (Z.div_mod (Z.of_nat (length words) + n - 1) n ltac:(lia)).
    pose proof (Z.mod_pos_bound (Z.of_nat (length words) + n - 1) n Hn). nia.
  - rewrite Hlen.
    pose proof (Z.div_mod (Z.of_nat (length words) + n - 1) n ltac:(lia)).
    pose proof (Z.mod_pos_bound (Z.of_nat (length words) + n - 1) n Hn). nia.
  - intros Hsp. apply split_only_spaces in Hsp. fold words in Hsp.
    unfold groups, starts. now rewrite Hsp.
  - apply Forall_map. eapply Forall_impl; [exact Hgw|].
    intros g [Hg Hw]. now apply join_words_nonempty.
  - rewrite join_concat, Hcat; [now apply split_join|].
    eapply Forall_impl; [exact Hgw|]. now intros g [Hg _].
  - rewrite map_map.
    transitivity (concat groups); [|exact Hcat]. f_equal.
    rewrite <- (map_id groups) at 2. apply map_ext_Forall.
    eapply Forall_impl; [exact Hgw|].
    intros g [_ Hw]. now apply split_join.
Qed.

Lemma chunk_text_chunks_witness :
  0 < 2 /\
  exists chunks,
    chunk_text "  a bb  ccc d e " 2 = Return chunks /\
    (let W := Z.of_nat (length (Py.split "  a bb  ccc d e ")) in
     let k := Z.of_nat (length chunks) in
     k = (W + 2 - 1) / 2 /\ (k - 1) * 2 < W <= k * 2) /\
    (all_chars Py.isspace "  a bb  ccc d e " = true -> chunks = []) /\
    Forall (fun c => c <> EmptyString) chunks /\
    Py.split (Py.join " " chunks) = Py.split "  a bb  ccc d e " /\
    concat (map Py.split chunks) = Py.split "  a bb  ccc d e ".
Proof.
  split; [lia|apply (chunk_text_chunks "  a bb  ccc d e " 2); lia].
Defined.

(** ** First minimum and first maximum *)

Lemma Qltb_lt x y : Qltb x y = true <-> (x < y)%Q.
Proof.
  unfold Qltb. rewrite negb_true_iff, <- not_true_iff_false, Qle_bool_iff.
  split; [apply Qnot_le_lt|apply Qlt_not_le].
Qed.

Lemma Qltb_ge x y : Qltb x y = false <-> (y <= x)%Q.
Proof.
  unfold Qltb. rewrite negb_false_iff. apply Qle_bool_iff.
Qed.

(** What the scan for one hit holds after the rows [rows], numbered from
    [i], when it held [best] before them: still [best], no row being
    nearer; or the first of the rows that are nearest, nearer than
    [best]. *)
Lemma scan_one q rows : forall i best,
  exists hit, Faiss.scan q 1 rows i [best] = [hit] /\
    ((hit = best /\
      forall j r, rows !! j = Some r -> (snd best <= Faiss.fvec_L2sqr q r)%Q)
     \/
     (exists j r, rows !! j = Some r /\
        hit = ((i + j)%nat, Faiss.fvec_L2sqr q r) /\
        (Faiss.fvec_L2sqr q r < snd best)%Q /\
        (forall j' r', (j' < j)%nat -> rows !! j' = Some r' ->
           (Faiss.fvec_L2sqr q r < Faiss.fvec_L2sqr q r')%Q) /\
        (forall j' r', rows !! j' = Some r' ->
           (Faiss.fvec_L2sqr q r <= Faiss.fvec_L2sqr q r')%Q))).
Proof.
  induction rows as [|r0 rows IH]; intros i [bi bd].
  - exists (bi, bd). split; [reflexivity|]. left. split; [reflexivity|].
    intros j r Hj. now rewrite lookup_nil in Hj.
  - cbn [Faiss.scan Faiss.insert_hit snd].
    set (d0 := Faiss.fvec_L2sqr q r0).
    destruct (Qltb d0 bd) eqn:Hlt.
    + apply Qltb_lt in Hlt. cbn [take].
      destruct (IH (S i) (i, d0)) as (hit & Hscan & Hhit).
      exists hit. split; [exact Hscan|]. right.
      destruct Hhit as [[-> Hall]|(j & r & Hj & -> & Hlt' & Hbefore & Hall)].
      * exists 0%nat, r0. repeat split.
        -- now rewrite Nat.add_0_r.
        -- exact Hlt.
        -- intros j' r' Hj'. lia.
        -- intros [|j'] r' Hj'; simpl in Hj'.
           ++ injection Hj' as <-. apply Qle_refl.
           ++ apply (Hall j' r' Hj').
      * exists (S j), r. cbn [snd] in Hlt'. repeat split.
        -- exact Hj.
        -- f_equal. lia.
        -- eapply Qlt_trans; eassumption.
        -- intros [|j'] r' Hlt'' Hj'; simpl in Hj'.
           ++ injection Hj' as <-. exact Hlt'.
           ++ apply (Hbefore j' r'); [lia|exact Hj'].
        -- intros [|j'] r' Hj'; simpl in Hj'.
           ++ injection Hj' as <-. now apply Qlt_le_weak.
           ++ apply (Hall j' r' Hj').
    + apply Qltb_ge in Hlt. cbn [take].
      destruct (IH (S i) (bi, bd)) as (hit & Hscan & Hhit).
      exists hit. split; [exact Hscan|].
      destruct Hhit as [[-> Hall]|(j & r & Hj & -> & Hlt' & Hbefore & Hall)].
      * left. split; [reflexivity|].
        intros [|j'] r' Hj'; simpl in Hj'.
        -- injection Hj' as <-. exact Hlt.
        -- apply (Hall j' r' Hj').
      * right. exists (S j), r. cbn [snd] in Hlt'. repeat split.
        -- exact Hj.
        -- f_equal. lia.
        -- exact Hlt'.
        -- intros [|j'] r' Hlt'' Hj'; simpl in Hj'.
           ++ injection Hj' as <-. eapply Qlt_le_trans; eassumption.
           ++ apply (Hbefore j' r'); [lia|exact Hj'].
        -- intros [|j'] r' Hj'; simpl in Hj'.
           ++ injection Hj' as <-. apply Qlt_le_weak.
              eapply Qlt_le_trans; eassumption.
           ++ apply (Hall j' r' Hj').
Qed.

(** The search for one neighbour yields the first of the nearest rows. *)
Lemma search1_nearest (index : Faiss.IndexFlatL2) (q : vec) :
  Faiss.xb index <> [] ->
  exists i r,
    Faiss.search1 index q 1 = [(i, Faiss.fvec_L2sqr q r)] /\
    Faiss.xb index !! i = Some r /\
    (forall j r', Faiss.xb index !! j = Some r' ->
       (Faiss.fvec_L2sqr q r <= Faiss.fvec_L2sqr q r')%Q) /\
    (forall j r', (j < i)%nat -> Faiss.xb index !! j = Some r' ->
       (Faiss.fvec_L2sqr q r < Faiss.fvec_L2sqr q r')%Q).
Proof.
  unfold Faiss.search1. destruct (Faiss.xb index) as [|r0 rows]; [congruence|].
  intros _. cbn [Faiss.scan Faiss.insert_hit take].
  destruct (scan_one q rows 1 (0%nat, Faiss.fvec_L2sqr q r0))
    as (hit & Hscan & [[-> Hall]|(j & r & Hj & -> & Hlt & Hbefore & Hall)]).
  - exists 0%nat, r0. repeat split.
    + exact Hscan.
    + intros [|j] r' Hj; simpl in Hj.
      * injection Hj as <-. apply Qle_refl.
      * apply (Hall j r' Hj).
    + intros j r' Hlt. lia.
  - exists (S j), r. cbn [snd] in Hlt. repeat split.
    + exact Hscan.
    + exact Hj.
    + intros [|j'] r' Hj'; simpl in Hj'.
      * injection Hj' as <-. now apply Qlt_le_weak.
      * apply (Hall j' r' Hj').
    + intros [|j'] r' Hlt' Hj'; simpl in Hj'.
      * injection Hj' as <-. exact Hlt.
      * apply (Hbefore j' r'); [lia|exact Hj'].
Qed.

(** C2. On an index that stores at least one vector, the search for one
    neighbour of a query vector yields one hit: a row index whose vector
    is at the least squared Euclidean distance from the query among all
    rows, every row before it being strictly farther; so of rows at the
    same least distance the lowest index is returned. *)
Theorem search_nearest_first (index : Faiss.IndexFlatL2) (q : vec) :
  Faiss.xb index <> [] ->
  exists i r,
    Faiss.search1 index q 1 = [(i, Faiss.fvec_L2sqr q r)] /\
    Faiss.xb index !! i = Some r /\
    (forall j r', Faiss.xb index !! j = Some r' ->
       (Faiss.fvec_L2sqr q r <= Faiss.fvec_L2sqr q r')%Q) /\
    (forall j r', (j < i)%nat -> Faiss.xb index !! j = Some r' ->
       (Faiss.fvec_L2sqr q r < Faiss.fvec_L2sqr q r')%Q).
Proof. apply search1_nearest. Qed.

Lemma search_nearest_first_witness :
  let index := {| Faiss.d := 1;
                  Faiss.xb := [[3%Q]; [1%Q]; [(-1)%Q]; [5%Q]] |} in
  Faiss.xb index <> [] /\
  exists i r,
    Faiss.search1 index [0%Q] 1 = [(i, Faiss.fvec_L2sqr [0%Q] r)] /\
    Faiss.xb index !! i = Some r /\
    (forall j r', Faiss.xb index !! j = Some r' ->
       (Faiss.fvec_L2sqr [0%Q] r <= Faiss.fvec_L2sqr [0%Q] r')%Q) /\
    (forall j r', (j < i)%nat -> Faiss.xb index !! j = Some r' ->
       (Faiss.fvec_L2sqr [0%Q] r < Faiss.fvec_L2sqr [0%Q] r')%Q).
Proof.
  split; [discriminate|].
  apply (search_nearest_first
           {| Faiss.d := 1; Faiss.xb := [[3%Q]; [1%Q]; [(-1)%Q]; [5%Q]] |}
           [0%Q]).
  discriminate.
Defined.

(** Of the rows at distance 1 from the query, [1] and [-1], the first. *)
Example search_tie :
  Faiss.search1 {| Faiss.d := 1; Faiss.xb := [[3%Q]; [1%Q]; [(-1)%Q]; [5%Q]] |}
                [0%Q] 1
  = [(1%nat, Faiss.fvec_L2sqr [0%Q] [1%Q])].
Proof. reflexivity. Qed.

(** What [argmax_go] returns over [l], numbered from [i], with the
    candidate [best]. *)
Lemma argmax_go_first l : forall i bi bv,
  (Np.argmax_go l i (bi, bv) = bi /\
   forall j x, l !! j = Some x -> (x <= bv)%Q)
  \/
  (exists j v, l !! j = Some v /\
     Np.argmax_go l i (bi, bv) = (i + j)%nat /\
     (bv < v)%Q /\
     (forall j' x, (j' < j)%nat -> l !! j' = Some x -> (x < v)%Q) /\
     (forall j' x, l !! j' = Some x -> (x <= v)%Q)).
Proof.
  induction l as [|x0 l IH]; intros i bi bv.
  - left. split; [reflexivity|]. intros j x Hj. now rewrite lookup_nil in Hj.
  - cbn [Np.argmax_go snd]. destruct (Qle_bool x0 bv) eqn:Hle.
    + apply Qle_bool_iff in Hle.
      destruct (IH (S i) bi bv)
        as [[-> Hall]|(j & v & Hj & -> & Hlt & Hbefore & Hall)].
      * left. split; [reflexivity|].
        intros [|j'] x Hj'; simpl in Hj'.
        -- injection Hj' as <-. exact Hle.
        -- apply (Hall j' x Hj').
      * right. exists (S j), v. repeat split.
        -- exact Hj.
        -- lia.
        -- exact Hlt.
        -- intros [|j'] x Hlt' Hj'; simpl in Hj'.
           ++ injection Hj' as <-. eapply Qle_lt_trans; eassumption.
           ++ apply (Hbefore j' x); [lia|exact Hj'].
        -- intros [|j'] x Hj'; simpl in Hj'.
           ++ injection Hj' as <-. apply Qlt_le_weak.
              eapply Qle_lt_trans; eassumption.
           ++ apply (Hall j' x Hj').
    + assert (Hgt : (bv < x0)%Q).
      { apply Qnot_le_lt. intros H%Qle_bool_iff. congruence. }
      destruct (IH (S i) i x0)
        as [[-> Hall]|(j & v & Hj & -> & Hlt & Hbefore & Hall)].
      * right. exists 0%nat, x0. repeat split.
        -- lia.
        -- exact Hgt.
        -- intros j' x Hj'. lia.
        -- intros [|j'] x Hj'; simpl in Hj'.
           ++ injection Hj' as <-. apply Qle_refl.
           ++ apply (Hall j' x Hj').
      * right. exists (S j), v. repeat split.
        -- exact Hj.
        -- lia.
        -- eapply Qlt_trans; eassumption.
        -- intros [|j'] x Hlt' Hj'; simpl in Hj'.
           ++ injection Hj' as <-. exact Hlt.
           ++ apply (Hbefore j' x); [lia|exact Hj'].
        -- intros [|j'] x Hj'; simpl in Hj'.
           ++ injection Hj' as <-. now apply Qlt_le_weak.
           ++ apply (Hall j' x Hj').
Qed.

Lemma argmax_first l :
  l <> [] ->
  exists i v, Np.argmax l = Return i /\ l !! i = Some v /\
    (forall j x, l !! j = Some x -> (x <= v)%Q) /\
    (forall j x, (j < i)%nat -> l !! j = Some x -> (x < v)%Q).
Proof.
  destruct l as [|x0 l]; [congruence|]. intros _. unfold Np.argmax.
  destruct (argmax_go_first l 1 0%nat x0)
    as [[-> Hall]|(j & v & Hj & -> & Hlt & Hbefore & Hall)].
  - exists 0%nat, x0. repeat split.
    + intros [|j] x Hj; simpl in Hj.
      * injection Hj as <-. apply Qle_refl.
      * apply (Hall j x Hj).
    + intros j x Hlt. lia.
  - exists (S j), v. repeat split.
    + exact Hj.
    + intros [|j'] x Hj'; simpl in Hj'.
      * injection Hj' as <-. now apply Qlt_le_weak.
      * apply (Hall j' x Hj').
    + intros [|j'] x Hlt' Hj'; simpl in Hj'.
      * injection Hj' as <-. exact Hlt.
      * apply (Hbefore j' x); [lia|exact Hj'].
Qed.

(** ** Indexing and [re.split] *)

Lemma getitem_lookup {A} (l : list A) (i : nat) (x : A) :
  l !! i = Some x -> Py.getitem l (Z.of_nat i) = Return x.
Proof.
  intros Hi. pose proof (lookup_lt_Some _ _ _ Hi) as Hlt.
  unfold Py.getitem.
  replace (Z.of_nat i <? 0) with false by (symmetry; lia).
  replace (Z.of_nat i <? 0) with false by (symmetry; lia).
  replace (Z.of_nat (length l) <=? Z.of_nat i) with false by (symmetry; lia).
  cbn [orb]. now rewrite Nat2Z.id, Hi.
Qed.

Lemma substring_all s : String.substring 0 (String.length s) s = s.
Proof. induction s as [|c s IH]; [reflexivity|]. simpl. now rewrite IH. Qed.

Lemma pieces_length s sp : forall last,
  length (Re.pieces s last sp) = S (length sp).
Proof.
  induction sp as [|[b e] sp IH]; intros last; [reflexivity|].
  simpl. now rewrite IH.
Qed.

Lemma split_nonempty ic r s : Re.split ic r s <> [].
Proof.
  intros H%(f_equal length). unfold Re.split in H.
  rewrite pieces_length in H. discriminate.
Qed.

(** A split into one piece leaves the subject whole. *)
Lemma split_single ic r s :
  length (Re.split ic r s) = 1%nat -> Re.split ic r s = [s].
Proof.
  unfold Re.split. rewrite pieces_length. intros [= Hsp].
  apply length_zero_iff_nil in Hsp. rewrite Hsp. simpl.
  now rewrite Nat.sub_0_r, substring_all.
Qed.

(** ** The fuel of the matcher

    The repetitions and the walk over the matches are bounded by a fuel.
    The bounds are large enough: more fuel gives the same result. *)

Lemma get_lt s : forall i x, String.get i s = Some x -> (i < String.length s)%nat.
Proof.
  induction s as [|c s IH]; intros [|i] x H; simpl in *;
    try discriminate; [lia|].
  apply IH in H. lia.
Qed.

Section MatcherFuel.

Variable ic : bool.
Variable s : string.

Let len : nat := String.length s.

(** The positions the continuation of a match from [i] may be called at. *)
Let within (i j : nat) : Prop := (i <= j /\ j <= Nat.max i len)%nat.

Let ext_body
    (body : nat -> Re.captures -> Re.cont -> option (nat * Re.captures))
  : Prop :=
  forall i c (k1 k2 : Re.cont),
    (forall j c', within i j -> k1 j c' = k2 j c') ->
    body i c k1 = body i c k2.

Let span_body
    (body : nat -> Re.captures -> Re.cont -> option (nat * Re.captures))
  : Prop :=
  forall i c (k : Re.cont) res,
    body i c k = Some res ->
    exists j c', within i j /\ k j c' = Some res.

Lemma star_ext body : ext_body body -> forall fuel, ext_body (Re.star body fuel).
Proof.
  intros Hbody fuel. induction fuel as [|fuel IH]; intros i c k1 k2 Hk.
  - simpl. apply Hk. unfold within. lia.
  - cbn [Re.star].
    erewrite (Hbody i c _ (fun j c' =>
      if (i <? j)%nat then Re.star body fuel j c' k2 else None)).
    + destruct (body i c _); [reflexivity|]. apply Hk. unfold within. lia.
    + intros j c' Hj. destruct (i <? j)%nat eqn:Hij; [|reflexivity].
      apply IH. intros j' c'' Hj'. apply Hk.
      apply Nat.ltb_lt in Hij. unfold within in *. lia.
Qed.

Lemma m_ext r : ext_body (Re.m ic s r).
Proof.
  induction r as [|ch|neg items|r1 IH1 r2 IH2|r1 IH1 r2 IH2|r IH|r IH|r IH
                 |n r IH|r IH]; intros i c k1 k2 Hk; cbn [Re.m].
  - apply Hk. unfold within. lia.
  - destruct (String.get i s) as [x|] eqn:Hx; [|reflexivity].
    destruct (Re.lit_has ic ch x); [|reflexivity].
    apply get_lt in Hx. apply Hk. unfold within, len. lia.
  - destruct (String.get i s) as [x|] eqn:Hx; [|reflexivity].
    destruct (Re.class_has ic neg items x); [|reflexivity].
    apply get_lt in Hx. apply Hk. unfold within, len. lia.
  - apply IH1. intros j c' Hj. apply IH2. intros j' c'' Hj'.
    apply Hk. unfold within in *. lia.
  - rewrite (IH1 i c k1 k2 Hk), (IH2 i c k1 k2 Hk). reflexivity.
  - now apply star_ext.
  - apply IH. intros j c' Hj. apply star_ext; [exact IH|].
    intros j' c'' Hj'. apply Hk. unfold within in *. lia.
  - rewrite (IH i c k1 k2 Hk). destruct (Re.m ic s r i c k2); [reflexivity|].
    apply Hk. unfold within. lia.
  - apply IH. intros j c' Hj. now apply Hk.
  - destruct (i <? Re.width r)%nat; [reflexivity|].
    destruct (Re.m ic s r _ c _) as [[? c']|]; [|reflexivity].
    apply Hk. unfold within. lia.
Qed.

Lemma star_none body :
  ext_body body -> (forall i c, body i c (fun _ _ => None) = None) ->
  forall fuel i c, Re.star body fuel i c (fun _ _ => None) = None.
Proof.
  intros Hext Hnone fuel. induction fuel as [|fuel IH]; intros i c;
    [reflexivity|].
  cbn [Re.star]. erewrite (Hext i c _ (fun _ _ => None)).
  - now rewrite Hnone.
  - intros j c' _. destruct (i <? j)%nat; [apply IH|reflexivity].
Qed.

(** The matcher answers through its continuation only. *)
Lemma m_none r : forall i c, Re.m ic s r i c (fun _ _ => None) = None.
Proof.
  induction r as [|ch|neg items|r1 IH1 r2 IH2|r1 IH1 r2 IH2|r IH|r IH|r IH
                 |n r IH|r IH]; intros i c; cbn [Re.m].
  - reflexivity.
  - destruct (String.get i s); [|reflexivity]. now destruct (Re.lit_has _ _ _).
  - destruct (String.get i s); [|reflexivity].
    now destruct (Re.class_has _ _ _ _).
  - erewrite (m_ext r1 i c _ (fun _ _ => None)); [apply IH1|].
    intros j c' _. apply IH2.
  - now rewrite IH1, IH2.
  - apply star_none; [apply m_ext|exact IH].
  - erewrite (m_ext r i c _ (fun _ _ => None)); [apply IH|].
    intros j c' _. apply star_none; [apply m_ext|exact IH].
  - now rewrite IH.
  - apply IH.
  - destruct (i <? Re.width r)%nat; [reflexivity|].
    now destruct (Re.m ic s r _ c _) as [[? c']|].
Qed.

(** More fuel than characters left does not change a repetition. *)
Lemma star_fuel r : forall fuel fuel' i c k,
  (len - i <= fuel)%nat -> (len - i <= fuel')%nat ->
  Re.star (Re.m ic s r) fuel i c k = Re.star (Re.m ic s r) fuel' i c k.
Proof.
  assert (Hend : forall fuel i c k, (len <= i)%nat ->
            Re.star (Re.m ic s r) fuel i c k = k i c).
  { intros [|fuel] i c k Hi; [reflexivity|]. cbn [Re.star].
    erewrite (m_ext r i c _ (fun _ _ => None)); [now rewrite m_none|].
    intros j c' Hj. unfold within in Hj.
    replace (i <? j)%nat with false; [reflexivity|].
    symmetry. apply Nat.ltb_ge. lia. }
  induction fuel as [|fuel IH]; intros fuel' i c k H1 H2.
  - rewrite !Hend by lia. reflexivity.
  - destruct fuel' as [|fuel']; [rewrite !Hend by lia; reflexivity|].
    cbn [Re.star].
    erewrite (m_ext r i c _ (fun j c' =>
      if (i <? j)%nat then Re.star (Re.m ic s r) fuel' j c' k else None));
      [reflexivity|].
    intros j c' Hj. destruct (i <? j)%nat eqn:Hij; [|reflexivity].
    apply Nat.ltb_lt in Hij. apply IH; lia.
Qed.

Lemma star_span body :
  span_body body -> forall fuel, span_body (Re.star body fuel).
Proof.
  intros Hbody fuel. induction fuel as [|fuel IH]; intros i c k res H.
  - exists i, c. split; [unfold within; lia|exact H].
  - cbn [Re.star] in H. destruct (body i c _) as [res'|] eqn:Hb.
    + injection H as ->. apply Hbody in Hb as (j & c' & Hj & Hk).
      destruct (i <? j)%nat eqn:Hij; [|discriminate].
      apply IH in Hk as (j' & c'' & Hj' & Hk). exists j', c''.
      split; [|exact Hk]. unfold within in *. lia.
    + exists i, c. split; [unfold within; lia|exact H].
Qed.

(** A match from [i] ends between [i] and the end of the subject. *)
Lemma m_span r : span_body (Re.m ic s r).
Proof.
  induction r as [|ch|neg items|r1 IH1 r2 IH2|r1 IH1 r2 IH2|r IH|r IH|r IH
                 |n r IH|r IH]; intros i c k res H; cbn [Re.m] in H.
  - exists i, c. split; [unfold within; lia|exact H].
  - destruct (String.get i s) as [x|] eqn:Hx; [|discriminate].
    destruct (Re.lit_has ic ch x); [|discriminate].
    apply get_lt in Hx. exists (S i), c.
    split; [unfold within, len; lia|exact H].
  - destruct (String.get i s) as [x|] eqn:Hx; [|discriminate].
    destruct (Re.class_has ic neg items x); [|discriminate].
    apply get_lt in Hx. exists (S i), c.
    split; [unfold within, len; lia|exact H].
  - apply IH1 in H as (j & c' & Hj & H).
    apply IH2 in H as (j' & c'' & Hj' & H).
    exists j', c''. split; [unfold within in *; lia|exact H].
  - destruct (Re.m ic s r1 i c k) as [res'|] eqn:H1.
    + injection H as ->. now apply IH1 in H1.
    + now apply IH2 in H.
  - now apply (star_span _ IH) in H.
  - apply IH in H as (j & c' & Hj & H).
    apply (star_span _ IH) in H as (j' & c'' & Hj' & H).
    exists j', c''. split; [unfold within in *; lia|exact H].
  - destruct (Re.m ic s r i c k) as [res'|] eqn:H1.
    + injection H as ->. now apply IH in H1.
    + exists i, c. split; [unfold within; lia|exact H].
  - apply IH in H as (j & c' & Hj & H). eauto.
  - destruct (i <? Re.width r)%nat; [discriminate|].
    destruct (Re.m ic s r _ c _) as [[? c']|]; [|discriminate].
    exists i, c'. split; [unfold within; lia|exact H].
Qed.

Lemma match_at_span r i adv j c :
  Re.match_at ic s r i adv = Some (j, c) ->
  (i <= j <= Nat.max i len)%nat /\ (adv = true -> (i < j)%nat).
Proof.
  unfold Re.match_at. intros H.
  apply m_span in H as (j' & c' & Hj' & H).
  destruct (adv && (j' =? i)%nat) eqn:Hadv; [discriminate|].
  injection H as -> ->. split; [exact Hj'|]. intros ->. simpl in Hadv.
  apply Nat.eqb_neq in Hadv. unfold within in Hj'. lia.
Qed.

Lemma search_go_span r : forall fuel i adv b e c,
  Re.search_go ic s fuel r i adv = Some (b, e, c) ->
  (i <= b <= i + fuel)%nat /\ (b <= e <= Nat.max b len)%nat /\
  (adv = true -> b = i -> (i < e)%nat).
Proof.
  induction fuel as [|fuel IH]; intros i adv b e c H; cbn [Re.search_go] in H.
  - destruct (Re.match_at ic s r i adv) as [[j c']|] eqn:Hm; [|discriminate].
    injection H as <- <- <-. apply match_at_span in Hm as [Hj Hadv].
    split; [lia|]. split; [exact Hj|]. intros Ha _. now apply Hadv.
  - destruct (Re.match_at ic s r i adv) as [[j c']|] eqn:Hm.
    + injection H as <- <- <-. apply match_at_span in Hm as [Hj Hadv].
      split; [lia|]. split; [exact Hj|]. intros Ha _. now apply Hadv.
    + apply IH in H as (Hb & He & _). split; [lia|]. split; [exact He|]. lia.
Qed.

(** How far the walk over the matches is from its end. *)
Let left (pos : nat) (adv : bool) : nat :=
  (2 * (len - pos) + (if adv then 0 else 1))%nat.

Lemma spans_go_fuel r : forall fuel fuel' pos adv,
  (pos <= len)%nat -> (left pos adv < fuel)%nat -> (left pos adv < fuel')%nat ->
  Re.spans_go ic s fuel r pos adv = Re.spans_go ic s fuel' r pos adv.
Proof.
  induction fuel as [|fuel IH]; intros fuel' pos adv Hpos H1 H2; [lia|].
  destruct fuel' as [|fuel']; [lia|]. cbn [Re.spans_go].
  destruct (Re.search_from ic s r pos adv) as [[[b e] c]|] eqn:Hs;
    [|reflexivity].
  unfold Re.search_from in Hs. apply search_go_span in Hs as (Hb & He & Hadv).
  fold len in Hb.
  assert (Hlt : (left e (e =? b)%nat < left pos adv)%nat).
  { unfold left. destruct (e =? b)%nat eqn:Heb.
    - apply Nat.eqb_eq in Heb. destruct adv; [|lia].
      destruct (Nat.eq_dec b pos) as [Hbp|Hbp]; [specialize (Hadv eq_refl Hbp)|];
        lia.
    - apply Nat.eqb_neq in Heb. destruct adv; lia. }
  f_equal. apply IH; lia.
Qed.

(** The walk of [re.split] and [re.sub] over the matches is the same
    with any larger fuel. *)
Lemma spans_fuel r fuel :
  (2 * String.length s + 2 <= fuel)%nat ->
  Re.spans_go ic s fuel r 0 false = Re.spans ic s r.
Proof.
  intros Hfuel. unfold Re.spans. apply spans_go_fuel; unfold left, len; lia.
Qed.

End MatcherFuel.

(** ** Computations and the state *)

Lemma keeps_ret {A} (a : A) : keeps_indexes (ret a).
Proof. now intros st. Qed.

Lemma keeps_lift {A} (o : outcome A) : keeps_indexes (lift o).
Proof. now intros st. Qed.

Lemma keeps_lookup_session s : keeps_indexes (lookup_session s).
Proof. now intros st. Qed.

Lemma keeps_bind {A B} (m : M A) (k : A -> M B) :
  keeps_indexes m -> (forall a, keeps_indexes (k a)) ->
  keeps_indexes (bind m k).
Proof.
  intros Hm Hk st. unfold bind. specialize (Hm st).
  destruct (m st) as [[a|e] st']; simpl in *; [|assumption].
  now rewrite Hk.
Qed.

Lemma blind_ret {A} (a : A) : blind (ret a).
Proof. now intros st st'. Qed.

Lemma blind_lift {A} (o : outcome A) : blind (lift o).
Proof. now intros st st'. Qed.

Lemma blind_bind {A B} (m : M A) (k : A -> M B) :
  blind m -> (forall a, blind (k a)) -> blind (bind m k).
Proof.
  intros Hm Hk st st'. unfold bind. specialize (Hm st st').
  destruct (m st) as [[a|e] st1], (m st') as [[a'|e'] st1'];
    simpl in *; try congruence.
  injection Hm as ->. apply Hk.
Qed.

Lemma bind_lookup_session {A} s (k : option entry -> M A) st :
  bind (lookup_session s) k st = k (PDF_INDEXES st !! s) st.
Proof. reflexivity. Qed.

Create HintDb server.

#[local] Hint Resolve keeps_ret keeps_lift keeps_lookup_session : server.
#[local] Hint Resolve blind_ret blind_lift : server.

Section ServerProperties.

Context (extract_pdf_text : string -> outcome string).
Context (embed : string -> vec).
Context (cos_sim : vec -> vec -> Q).

Lemma keeps_encode l : keeps_indexes (encode embed l).
Proof. now intros st. Qed.

Lemma blind_encode l : blind (encode embed l).
Proof. now intros st st'. Qed.

#[local] Hint Resolve keeps_encode blind_encode : server.

Ltac step_keeps :=
  repeat first
    [ progress cbv beta zeta
    | solve [auto with server]
    | apply keeps_bind; [|intros ?] ].

Ltac step_blind :=
  repeat first
    [ progress cbv beta zeta
    | solve [auto with server]
    | apply blind_bind; [|intros ?] ].

Lemma keeps_select_sentence q c :
  keeps_indexes (select_sentence embed cos_sim q c).
Proof.
  unfold select_sentence.
  destruct (_ =? 1)%nat; step_keeps.
Qed.

Lemma blind_select_sentence q c :
  blind (select_sentence embed cos_sim q c).
Proof.
  unfold select_sentence.
  destruct (_ =? 1)%nat; step_blind.
Qed.

Lemma keeps_refine q c : keeps_indexes (refine embed cos_sim q c).
Proof. unfold refine. pose proof keeps_select_sentence. step_keeps. Qed.

Lemma blind_refine q c : blind (refine embed cos_sim q c).
Proof. unfold refine. pose proof blind_select_sentence. step_blind. Qed.

(** What a query on an entry answers, whatever the state around it. *)
Lemma rag_query_entry q s st st' :
  PDF_INDEXES st !! s = PDF_INDEXES st' !! s ->
  fst (rag_query embed cos_sim q s st) = fst (rag_query embed cos_sim q s st').
Proof.
  intros Heq. unfold rag_query. rewrite !bind_lookup_session, Heq.
  destruct (PDF_INDEXES st' !! s) as [e|]; [|reflexivity].
  pose proof blind_refine as Hr.
  assert (Hb : blind
    (q_emb <- encode embed [q];;
     DI <- lift (Faiss.search (index e) q_emb 1);;
     I0 <- lift (Py.getitem (snd DI) 0);;
     idx <- lift (Py.getitem I0 0);;
     best_chunk <- lift (Py.getitem (chunks e) idx);;
     refine embed cos_sim q best_chunk))
    by step_blind.
  apply Hb.
Qed.

(** C10. A query leaves the registry as it was: after [rag_query], from
    any state and for any question and session, [PDF_INDEXES] is the map
    it was before, so no entry was added, removed or changed. *)
Theorem rag_query_keeps_registry (question session_id : string) (st : state) :
  PDF_INDEXES (snd (rag_query embed cos_sim question session_id st))
  = PDF_INDEXES st.
Proof.
  revert st.
  change (keeps_indexes (rag_query embed cos_sim question session_id)).
  unfold rag_query. pose proof keeps_refine.
  apply keeps_bind; [auto with server|]. intros [e|]; step_keeps.
Qed.

(** C4. A query on a session without entry returns the fixed message
    "Aucun PDF indexé pour cette session." whatever the question; it does
    not raise and does not touch the state. *)
Theorem rag_query_unknown_session (question session_id : string) (st : state) :
  PDF_INDEXES st !! session_id = None ->
  rag_query embed cos_sim question session_id st
  = (Return no_index_message, st).
Proof.
  intros Hnone. unfold rag_query.
  now rewrite bind_lookup_session, Hnone.
Qed.

(** *** Ingestion *)

Lemma index_pdf_registry p s st :
  PDF_INDEXES (snd (index_pdf extract_pdf_text embed p s st)) =
  match published extract_pdf_text embed p with
  | Some e => <[s := e]> (PDF_INDEXES st)
  | None => PDF_INDEXES st
  end.
Proof.
  unfold index_pdf, published, bind, lift, encode, setitem, ret.
  destruct (extract_pdf_text p) as [text|]; [|reflexivity].
  destruct (chunk_text text chunk_size_default) as [cs|]; [|reflexivity].
  destruct (Np.shape1 (map embed cs)) as [dim|]; [|reflexivity].
  destruct (Faiss.add (Faiss.new dim) (map embed cs)); reflexivity.
Qed.

Lemma index_pdf_returns p s st r st' :
  index_pdf extract_pdf_text embed p s st = (Return r, st') ->
  exists e, published extract_pdf_text embed p = Some e.
Proof.
  unfold index_pdf, published, bind, lift, encode, setitem, ret.
  destruct (extract_pdf_text p) as [text|]; [|discriminate].
  destruct (chunk_text text chunk_size_default) as [cs|]; [|discriminate].
  destruct (Np.shape1 (map embed cs)) as [dim|]; [|discriminate].
  destruct (Faiss.add (Faiss.new dim) (map embed cs)); [eauto|discriminate].
Qed.

Lemma published_entry p e :
  published extract_pdf_text embed p = Some e ->
  exists text,
    extract_pdf_text p = Return text /\
    chunk_text text chunk_size_default = Return (chunks e) /\
    Faiss.xb (index e) = map embed (chunks e) /\
    (exists c cs, chunks e = c :: cs /\
                  Faiss.d (index e) = length (embed c)).
Proof.
  unfold published.
  destruct (extract_pdf_text p) as [text|]; [|discriminate].
  destruct (chunk_text text chunk_size_default) as [cs|] eqn:Hcs;
    [|discriminate].
  destruct cs as [|c cs]; [discriminate|]. cbn [map Np.shape1].
  unfold Faiss.add, Faiss.new. cbn [Faiss.d Faiss.xb].
  destruct (forallb _ _); [|discriminate].
  intros [= <-]. exists text. cbn [chunks index Faiss.xb Faiss.d app].
  split; [reflexivity|]. split; [exact Hcs|]. split; [reflexivity|].
  now exists c, cs.
Qed.

Lemma index_pdf_lookup p s st k :
  PDF_INDEXES (snd (index_pdf extract_pdf_text embed p s st)) !! k =
  match published extract_pdf_text embed p with
  | Some e => if decide (s = k) then Some e else PDF_INDEXES st !! k
  | None => PDF_INDEXES st !! k
  end.
Proof.
  rewrite index_pdf_registry.
  destruct (published extract_pdf_text embed p) as [e|]; [|reflexivity].
  destruct (decide (s = k)) as [->|Hne].
  - apply lookup_insert_eq.
  - now apply lookup_insert_ne.
Qed.

(** C3. When a session that holds a document is ingested again with a
    second document and the ingestion returns, the entry of the session
    holds the chunks of the second document and an index over the
    embeddings of exactly these chunks, and every query on the session is
    answered as it is in any other state where the second document was
    ingested into that session, whatever was ingested there before. *)
Theorem reingest_replaces (file1 file2 session_id : string)
    (st0 st1 st2 : state) (r1 r2 : string) :
  index_pdf extract_pdf_text embed file1 session_id st0 = (Return r1, st1) ->
  index_pdf extract_pdf_text embed file2 session_id st1 = (Return r2, st2) ->
  (exists text2 e2,
     extract_pdf_text file2 = Return text2 /\
     chunk_text text2 chunk_size_default = Return (chunks e2) /\
     Faiss.xb (index e2) = map embed (chunks e2) /\
     PDF_INDEXES st2 !! session_id = Some e2) /\
  (forall st' st2' r2',
     index_pdf extract_pdf_text embed file2 session_id st'
     = (Return r2', st2') ->
     forall question,
       fst (rag_query embed cos_sim question session_id st2) =
       fst (rag_query embed cos_sim question session_id st2')).
Proof.
  intros _ H2.
  destruct (index_pdf_returns _ _ _ _ _ H2) as [e2 He2].
  assert (Hst2 : PDF_INDEXES st2 !! session_id = Some e2).
  { replace st2
      with (snd (index_pdf extract_pdf_text embed file2 session_id st1))
      by now rewrite H2.
    rewrite index_pdf_lookup, He2. now rewrite decide_True. }
  split.
  - destruct (published_entry _ _ He2) as (text2 & Ht & Hc & Hx & _).
    now exists text2, e2.
  - intros st' st2' r2' H2' question. apply rag_query_entry.
    rewrite Hst2.
    replace st2'
      with (snd (index_pdf extract_pdf_text embed file2 session_id st'))
      by now rewrite H2'.
    rewrite index_pdf_lookup, He2. now rewrite decide_True.
Qed.

(** C8. Two sessions with different identifiers do not see each other:
    the answer to a query on one of them after both were ingested, in
    either order, is the answer in the state where that session alone was
    ingested, whatever document the other session was given. *)
Theorem sessions_isolated (A B fileA fileB : string) (st : state)
    (question : string) :
  A <> B ->
  let ingest f s st := snd (index_pdf extract_pdf_text embed f s st) in
  let answer s st := fst (rag_query embed cos_sim question s st) in
  answer A (ingest fileB B (ingest fileA A st))
  = answer A (ingest fileA A st) /\
  answer A (ingest fileA A (ingest fileB B st))
  = answer A (ingest fileA A st) /\
  answer B (ingest fileB B (ingest fileA A st))
  = answer B (ingest fileB B st) /\
  answer B (ingest fileA A (ingest fileB B st))
  = answer B (ingest fileB B st).
Proof.
  intros Hne ingest answer. unfold answer, ingest.
  repeat split; apply rag_query_entry; rewrite !index_pdf_lookup;
    destruct (published extract_pdf_text embed fileA),
             (published extract_pdf_text embed fileB);
    repeat (rewrite ?decide_True by reflexivity;
            rewrite ?decide_False by congruence); reflexivity.
Qed.

(** C9 (what the code does).  For a document without a word, [chunk_text]
    yields no chunk, [model.encode] is called with the empty batch, and
    [embeddings.shape[1]] raises IndexError: [index_pdf] does not return,
    and the registry is left as it was. *)
Theorem index_pdf_blank_raises (file_path session_id : string) (st : state)
    (text : string) :
  extract_pdf_text file_path = Return text ->
  all_chars Py.isspace text = true ->
  chunk_text text chunk_size_default = Return [] /\
  index_pdf extract_pdf_text embed file_path session_id st =
    (Raise IndexError,
     {| PDF_INDEXES := PDF_INDEXES st; encoded := encoded st ++ [[]] |}).
Proof.
  intros Htext Hblank.
  assert (Hchunks : chunk_text text chunk_size_default = Return []).
  { unfold chunk_text. now rewrite (split_only_spaces _ Hblank). }
  split; [exact Hchunks|].
  unfold index_pdf, bind, lift, encode. now rewrite Htext, Hchunks.
Qed.

(** Had the empty entry been stored, the query would raise as well. *)
Lemma rag_query_empty_entry question session_id st e :
  PDF_INDEXES st !! session_id = Some e ->
  Faiss.xb (index e) = [] ->
  exists err, fst (rag_query embed cos_sim question session_id st) = Raise err.
Proof.
  intros He Hxb. unfold rag_query. rewrite bind_lookup_session, He.
  unfold bind, lift, encode, Faiss.search, Faiss.search1. rewrite Hxb.
  cbn [map forallb]. destruct (_ =? _)%nat; cbn; eauto.
Qed.

(** *** The best chunk *)

(** Lines 50-53 on an entry whose index holds the embeddings of its
    chunks: the chunk handed to the refinement is the first of the chunks
    whose embedding is nearest to the embedding of the question. *)
Lemma rag_query_nearest_chunk question session_id st e :
  PDF_INDEXES st !! session_id = Some e ->
  Faiss.xb (index e) = map embed (chunks e) ->
  chunks e <> [] ->
  length (embed question) = Faiss.d (index e) ->
  let dist c := Faiss.fvec_L2sqr (embed question) (embed c) in
  exists i c,
    chunks e !! i = Some c /\
    (forall j c', chunks e !! j = Some c' -> (dist c <= dist c')%Q) /\
    (forall j c', (j < i)%nat -> chunks e !! j = Some c' ->
       (dist c < dist c')%Q) /\
    rag_query embed cos_sim question session_id st =
    refine embed cos_sim question c
      {| PDF_INDEXES := PDF_INDEXES st;
         encoded := encoded st ++ [[question]] |}.
Proof.
  intros He Hxb Hne Hdim dist.
  destruct (search1_nearest (index e) (embed question))
    as (i & r & Hsearch & Hi & Hmin & Hfirst).
  { rewrite Hxb. now destruct (chunks e). }
  rewrite Hxb, list_lookup_fmap in Hi.
  destruct (chunks e !! i) as [c|] eqn:Hc; [|discriminate].
  injection Hi as <-. exists i, c. split; [exact Hc|].
  split; [|split].
  - intros j c' Hj. apply (Hmin j). now rewrite Hxb, list_lookup_fmap, Hj.
  - intros j c' Hlt Hj. apply (Hfirst j); [exact Hlt|].
    now rewrite Hxb, list_lookup_fmap, Hj.
  - unfold rag_query. rewrite bind_lookup_session, He.
    unfold bind at 1. unfold encode at 1.
    unfold bind at 1. unfold lift at 1. unfold Faiss.search.
    cbn [map forallb]. rewrite Hdim, Nat.eqb_refl. cbn [andb].
    rewrite Hsearch. cbn [map fst snd].
    unfold bind at 1. unfold lift at 1.
    change (Py.getitem [[Z.of_nat i]] 0) with (Return [Z.of_nat i]).
    cbn iota beta.
    unfold bind at 1. unfold lift at 1.
    change (Py.getitem [Z.of_nat i] 0) with (Return (Z.of_nat i)).
    cbn iota beta.
    unfold bind at 1. unfold lift at 1.
    now rewrite (getitem_lookup _ _ _ Hc).
Qed.

(** After an ingestion that returned, and with an embedder of one
    dimensionality, a query on the session goes on with the first of the
    chunks of the document that are nearest to the question. *)
Lemma rag_query_after_index_pdf file_path session_id question st r st' :
  (forall x y, length (embed x) = length (embed y)) ->
  index_pdf extract_pdf_text embed file_path session_id st = (Return r, st') ->
  let dist c := Faiss.fvec_L2sqr (embed question) (embed c) in
  exists text cs i c,
    extract_pdf_text file_path = Return text /\
    chunk_text text chunk_size_default = Return cs /\
    cs !! i = Some c /\
    (forall j c', cs !! j = Some c' -> (dist c <= dist c')%Q) /\
    (forall j c', (j < i)%nat -> cs !! j = Some c' -> (dist c < dist c')%Q) /\
    rag_query embed cos_sim question session_id st' =
    refine embed cos_sim question c
      {| PDF_INDEXES := PDF_INDEXES st';
         encoded := encoded st' ++ [[question]] |}.
Proof.
  intros Hdim Hrun dist.
  destruct (index_pdf_returns _ _ _ _ _ Hrun) as [e He].
  destruct (published_entry _ _ He)
    as (text & Ht & Hc & Hx & c0 & cs0 & Hcs & Hd).
  assert (Hst' : PDF_INDEXES st' !! session_id = Some e).
  { replace st'
      with (snd (index_pdf extract_pdf_text embed file_path session_id st))
      by now rewrite Hrun.
    rewrite index_pdf_lookup, He. now rewrite decide_True. }
  destruct (rag_query_nearest_chunk question session_id st' e Hst' Hx)
    as (i & c & Hi & Hmin & Hfirst & Hq).
  { rewrite Hcs. discriminate. }
  { rewrite Hd. apply Hdim. }
  exists text, (chunks e), i, c.
  split; [exact Ht|]. split; [exact Hc|]. split; [exact Hi|].
  split; [exact Hmin|]. split; [exact Hfirst|exact Hq].
Qed.

(** *** Refinement *)

(** C5 (as the code has it). When the split of the best chunk yields one
    sentence, that sentence is the chunk; it is selected without a call of
    the embedder, so without reranking; but the extraction of the author
    runs on it as on any selected sentence.  The answer is the sentence
    unmodified when the question holds no trigger phrase or the author
    pattern does not match the sentence. *)
Theorem refine_single_sentence (question best_chunk : string) (st : state) :
  length (Re.split false sentence_end best_chunk) = 1%nat ->
  Re.split false sentence_end best_chunk = [best_chunk] /\
  select_sentence embed cos_sim question best_chunk st
  = (Return best_chunk, st) /\
  refine embed cos_sim question best_chunk st
    = (extract_author question best_chunk, st) /\
  (asks_author question = false ->
   refine embed cos_sim question best_chunk st = (Return best_chunk, st)) /\
  (Re.search true author_pattern best_chunk = None ->
   refine embed cos_sim question best_chunk st = (Return best_chunk, st)).
Proof.
  intros Hone.
  assert (Hsel : select_sentence embed cos_sim question best_chunk st
                 = (Return best_chunk, st)).
  { unfold select_sentence. now rewrite Hone. }
  assert (Href : refine embed cos_sim question best_chunk st
                 = (extract_author question best_chunk, st)).
  { unfold refine, bind. now rewrite Hsel. }
  split; [now apply split_single|]. split; [exact Hsel|].
  split; [exact Href|]. rewrite Href. unfold extract_author. split.
  - now intros ->.
  - intros ->. now destruct (asks_author question).
Qed.

(** C6. When the split of the best chunk yields two sentences or more,
    the sentences and then the question are embedded, and the selected
    sentence is one whose cosine similarity with the question is the
    greatest, every sentence before it having a strictly smaller one: of
    the sentences with the greatest similarity, the earliest. *)
Theorem select_sentence_reranks (question best_chunk : string) (st : state) :
  let sentences := Re.split false sentence_end best_chunk in
  let sim s := cos_sim (embed question) (embed s) in
  (2 <= length sentences)%nat ->
  exists i s,
    select_sentence embed cos_sim question best_chunk st
    = (Return s,
       {| PDF_INDEXES := PDF_INDEXES st;
          encoded := (encoded st ++ [sentences]) ++ [[question]] |}) /\
    sentences !! i = Some s /\
    (forall j s', sentences !! j = Some s' -> (sim s' <= sim s)%Q) /\
    (forall j s', (j < i)%nat -> sentences !! j = Some s' ->
       (sim s' < sim s)%Q).
Proof.
  intros sentences sim Hlen. unfold select_sentence. fold sentences.
  replace (length sentences =? 1)%nat with false
    by (symmetry; apply Nat.eqb_neq; lia).
  unfold bind, encode, lift. cbn [Py.getitem map].
  change (Py.getitem [embed question] 0) with (Return (embed question)).
  cbn iota beta.
  set (sims := map _ (map embed sentences)).
  assert (Hsims : forall j, sims !! j = sim <$> (sentences !! j)).
  { intros j. unfold sims.
    now rewrite !list_lookup_fmap, <- option_fmap_compose. }
  destruct (argmax_first sims) as (i & v & Harg & Hi & Hmax & Hfirst).
  { intros Hnil. apply (f_equal length) in Hnil. unfold sims in Hnil.
    rewrite !length_map in Hnil. simpl in Hnil. lia. }
  rewrite Harg. rewrite Hsims in Hi.
  destruct (sentences !! i) as [s|] eqn:Hs; [|discriminate].
  injection Hi as <-.
  exists i, s. rewrite (getitem_lookup _ _ _ Hs).
  split; [reflexivity|]. split; [exact Hs|]. split.
  - intros j s' Hj. apply (Hmax j). now rewrite Hsims, Hj.
  - intros j s' Hlt Hj. apply (Hfirst j); [exact Hlt|]. now rewrite Hsims, Hj.
Qed.

(** C7 (as the code has it). The trigger phrases and the labels of the
    pattern are French.  For the question "Qui a présenté ceci ?" and the
    sentence "Présenté par Jane Doe." the extraction gives "Jane Doe",
    the full stop not being part of the matched run; for the question
    "Who presented this?" no trigger phrase is found, and the sentence
    "Presented by Jane Doe." is returned as it is. *)
Theorem refine_presenter (st : state) :
  refine embed cos_sim
    ("Qui a pr" +:+ e_acute +:+ "sent" +:+ e_acute +:+ " ceci ?")
    ("Pr" +:+ e_acute +:+ "sent" +:+ e_acute +:+ " par Jane Doe.") st
  = (Return "Jane Doe", st) /\
  asks_author "Who presented this?" = false /\
  refine embed cos_sim "Who presented this?" "Presented by Jane Doe." st
  = (Return "Presented by Jane Doe.", st).
Proof. repeat split; vm_compute; reflexivity. Qed.

End ServerProperties.

Lemma reingest_replaces_witness :
  let st1 := snd (Demo.index_pdf "notes.pdf" "s1" init_state) in
  let st2 := snd (Demo.index_pdf "cv.pdf" "s1" st1) in
  let r1 := "PDF index" +:+ e_acute +:+ " avec 1 passages." in
  Demo.index_pdf "notes.pdf" "s1" init_state = (Return r1, st1) /\
  Demo.index_pdf "cv.pdf" "s1" st1 = (Return r1, st2) /\
  (exists text2 e2,
     Demo.extract_pdf_text "cv.pdf" = Return text2 /\
     chunk_text text2 chunk_size_default = Return (chunks e2) /\
     Faiss.xb (index e2) = map Demo.embed (chunks e2) /\
     PDF_INDEXES st2 !! "s1" = Some e2) /\
  (forall st' st2' r2',
     Demo.index_pdf "cv.pdf" "s1" st' = (Return r2', st2') ->
     forall question,
       fst (Demo.rag_query question "s1" st2) =
       fst (Demo.rag_query question "s1" st2')).
Proof.
  cbv zeta.
  assert (H1 : Demo.index_pdf "notes.pdf" "s1" init_state =
    (Return ("PDF index" +:+ e_acute +:+ " avec 1 passages."),
     snd (Demo.index_pdf "notes.pdf" "s1" init_state)))
    by (vm_compute; reflexivity).
  assert (H2 : Demo.index_pdf "cv.pdf" "s1"
                 (snd (Demo.index_pdf "notes.pdf" "s1" init_state)) =
    (Return ("PDF index" +:+ e_acute +:+ " avec 1 passages."),
     snd (Demo.index_pdf "cv.pdf" "s1"
            (snd (Demo.index_pdf "notes.pdf" "s1" init_state)))))
    by (vm_compute; reflexivity).
  split; [exact H1|]. split; [exact H2|].
  exact (reingest_replaces Demo.extract_pdf_text Demo.embed Demo.cos_sim
           "notes.pdf" "cv.pdf" "s1" _ _ _ _ _ H1 H2).
Defined.

Lemma sessions_isolated_witness :
  "s1" <> "s2" /\
  let ingest f s st := snd (Demo.index_pdf f s st) in
  let answer s st := fst (Demo.rag_query "Bees?" s st) in
  answer "s1" (ingest "cv.pdf" "s2" (ingest "notes.pdf" "s1" init_state))
  = answer "s1" (ingest "notes.pdf" "s1" init_state) /\
  answer "s1" (ingest "notes.pdf" "s1" (ingest "cv.pdf" "s2" init_state))
  = answer "s1" (ingest "notes.pdf" "s1" init_state) /\
  answer "s2" (ingest "cv.pdf" "s2" (ingest "notes.pdf" "s1" init_state))
  = answer "s2" (ingest "cv.pdf" "s2" init_state) /\
  answer "s2" (ingest "notes.pdf" "s1" (ingest "cv.pdf" "s2" init_state))
  = answer "s2" (ingest "cv.pdf" "s2" init_state).
Proof.
  split; [discriminate|].
  apply (sessions_isolated Demo.extract_pdf_text Demo.embed Demo.cos_sim
           "s1" "s2" "notes.pdf" "cv.pdf" init_state "Bees?").
  discriminate.
Defined.

Lemma index_pdf_blank_raises_witness :
  Demo.extract_pdf_text "blank.pdf" = Return "   " /\
  all_chars Py.isspace "   " = true /\
  chunk_text "   " chunk_size_default = Return [] /\
  Demo.index_pdf "blank.pdf" "s1" init_state =
    (Raise IndexError,
     {| PDF_INDEXES := PDF_INDEXES init_state;
        encoded := encoded init_state ++ [[]] |}).
Proof.
  split; [reflexivity|]. split; [reflexivity|].
  apply (index_pdf_blank_raises Demo.extract_pdf_text Demo.embed
           "blank.pdf" "s1" init_state "   "); reflexivity.
Defined.

Lemma refine_single_sentence_witness :
  length (Re.split false sentence_end "Auteur : Jane Doe") = 1%nat /\
  Re.split false sentence_end "Auteur : Jane Doe" = ["Auteur : Jane Doe"] /\
  Demo.select_sentence "Who is it?" "Auteur : Jane Doe" init_state
  = (Return "Auteur : Jane Doe", init_state) /\
  Demo.refine "Who is it?" "Auteur : Jane Doe" init_state
  = (extract_author "Who is it?" "Auteur : Jane Doe", init_state) /\
  (asks_author "Who is it?" = false ->
   Demo.refine "Who is it?" "Auteur : Jane Doe" init_state
   = (Return "Auteur : Jane Doe", init_state)) /\
  (Re.search true author_pattern "Auteur : Jane Doe" = None ->
   Demo.refine "Who is it?" "Auteur : Jane Doe" init_state
   = (Return "Auteur : Jane Doe", init_state)).
Proof.
  split; [reflexivity|].
  apply (refine_single_sentence Demo.embed Demo.cos_sim
           "Who is it?" "Auteur : Jane Doe" init_state).
  reflexivity.
Defined.

(** The claim C5 as it is written fails: one sentence, and an answer that
    is not that sentence. *)
Lemma refine_single_sentence_counterexample :
  length (Re.split false sentence_end "Auteur : Jane Doe") = 1%nat /\
  fst (Demo.refine "Qui est l'auteur ?" "Auteur : Jane Doe" init_state)
  = Return "Jane Doe" /\
  fst (Demo.refine "Qui est l'auteur ?" "Auteur : Jane Doe" init_state)
  <> Return "Auteur : Jane Doe".
Proof. split; [reflexivity|]. split; [reflexivity|discriminate]. Qed.

Lemma select_sentence_reranks_witness :
  let question := "xeee" in
  let best_chunk := "The sea is deep.   Bees see trees everywhere" in
  let sentences := Re.split false sentence_end best_chunk in
  let sim s := Demo.cos_sim (Demo.embed question) (Demo.embed s) in
  (2 <= length sentences)%nat /\
  exists i s,
    Demo.select_sentence question best_chunk init_state
    = (Return s,
       {| PDF_INDEXES := PDF_INDEXES init_state;
          encoded := (encoded init_state ++ [sentences]) ++ [[question]] |}) /\
    sentences !! i = Some s /\
    (forall j s', sentences !! j = Some s' -> (sim s' <= sim s)%Q) /\
    (forall j s', (j < i)%nat -> sentences !! j = Some s' ->
       (sim s' < sim s)%Q).
Proof.
  cbv zeta. split; [vm_compute; lia|].
  apply (select_sentence_reranks Demo.embed Demo.cos_sim "xeee"
           "The sea is deep.   Bees see trees everywhere" init_state).
  vm_compute. lia.
Defined.

(** The claim C7 as it is written fails: the English question finds no
    trigger, and the answer is the sentence. *)
Lemma refine_presenter_counterexample :
  fst (Demo.refine "Who presented this?" "Presented by Jane Doe." init_state)
  = Return "Presented by Jane Doe." /\
  fst (Demo.refine "Who presented this?" "Presented by Jane Doe." init_state)
  <> Return "Jane Doe".
Proof. split; [reflexivity|discriminate]. Qed.

Lemma rag_query_unknown_session_witness :
  PDF_INDEXES init_state !! "nonexistent" = None /\
  Demo.rag_query "Who presented this?" "nonexistent" init_state
  = (Return no_index_message, init_state).
Proof.
  split; [reflexivity|].
  apply (rag_query_unknown_session Demo.embed Demo.cos_sim
           "Who presented this?" "nonexistent" init_state).
  reflexivity.
Defined.

(** * More properties of the code *)

(** ** The windows of chunk_text *)

Lemma range_go_lookup n stop fuel : forall i k x,
  0 < n ->
  Py.range_go fuel i stop n !! k = Some x ->
  x = i + Z.of_nat k * n /\ x < stop.
Proof.
  induction fuel as [|fuel IH]; intros i k x Hn Hk; [discriminate|].
  cbn [Py.range_go] in Hk. replace (0 <? n) with true in Hk by (symmetry; lia).
  destruct (i <? stop) eqn:Hi; [|discriminate].
  destruct k as [|k]; simpl in Hk.
  - injection Hk as <-. lia.
  - apply IH in Hk as [-> Hlt]; lia.
Qed.

(** Chunk [i] is the join of the words [i*n], ..., [i*n + n - 1]. *)
Lemma chunk_text_lookup text n cs i c :
  0 < n ->
  chunk_text text n = Return cs ->
  cs !! i = Some c ->
  let w := take (Z.to_nat n) (drop (i * Z.to_nat n) (Py.split text)) in
  c = Py.join " " w /\ Py.split c = w /\ Forall word w /\
  (1 <= length w <= Z.to_nat n)%nat /\
  ((S i < length cs)%nat -> length w = Z.to_nat n).
Proof.
  intros Hn Hrun Hi w. unfold chunk_text, Py.range in Hrun.
  replace (n =? 0) with false in Hrun by (symmetry; lia).
  injection Hrun as <-.
  set (words := Py.split text) in *.
  set (starts := Py.range_go _ _ _ _) in *.
  assert (Hw : Forall word w)
    by (apply Forall_take, Forall_drop, split_words).
  rewrite list_lookup_fmap in Hi.
  destruct (starts !! i) as [x|] eqn:Hx; [|discriminate].
  injection Hi as <-.
  apply range_go_lookup in Hx as [-> Hlt]; [|exact Hn].
  rewrite Z.add_0_l in *. rewrite slice_window by lia.
  replace (Z.to_nat (Z.of_nat i * n)) with (i * Z.to_nat n)%nat by lia.
  fold w. split; [reflexivity|]. split; [now apply split_join|].
  split; [exact Hw|]. split.
  - unfold w. rewrite length_take, length_drop. fold words. lia.
  - intros Hnext. rewrite length_map in Hnext.
    destruct (lookup_lt_is_Some_2 starts (S i) Hnext) as [y Hy].
    apply range_go_lookup in Hy as [-> Hlt']; [|exact Hn].
    unfold w. rewrite length_take, length_drop. fold words. lia.
Qed.

(** X1. The chunks are windows of exactly [n] words, the last one of at
    least one word and at most [n]: chunk [i] is the join with single
    spaces of the words [i*n], ..., [i*n + n - 1] of the text, and
    splitting it gives these words back. *)
Theorem chunk_text_windows (text : string) (n : Z) (cs : list string)
    (i : nat) (c : string) :
  0 < n ->
  chunk_text text n = Return cs ->
  cs !! i = Some c ->
  let w := take (Z.to_nat n) (drop (i * Z.to_nat n) (Py.split text)) in
  c = Py.join " " w /\ Py.split c = w /\
  (1 <= length w <= Z.to_nat n)%nat /\
  ((S i < length cs)%nat -> length w = Z.to_nat n).
Proof.
  intros Hn Hrun Hi w.
  destruct (chunk_text_lookup text n cs i c Hn Hrun Hi)
    as (H1 & H2 & _ & H3 & H4).
  auto.
Qed.

Lemma chunk_text_windows_witness :
  let text := "  a bb  ccc d e " in
  0 < 2 /\ chunk_text text 2 = Return ["a bb"; "ccc d"; "e"] /\
  ["a bb"; "ccc d"; "e"] !! 2%nat = Some "e" /\
  let w := take (Z.to_nat 2) (drop (2 * Z.to_nat 2) (Py.split text)) in
  "e" = Py.join " " w /\ Py.split "e" = w /\
  (1 <= length w <= Z.to_nat 2)%nat /\
  ((3 < length ["a bb"; "ccc d"; "e"])%nat -> length w = Z.to_nat 2).
Proof.
  cbv zeta. split; [lia|]. split; [reflexivity|]. split; [reflexivity|].
  apply (chunk_text_windows "  a bb  ccc d e " 2 ["a bb"; "ccc d"; "e"]
           2%nat "e"); [lia|reflexivity|reflexivity].
Defined.

(** X2. A chunk is stable: chunking a chunk again with the same size
    gives that chunk alone, so a chunk holds no separator but the single
    spaces between its words. *)
Theorem chunk_text_stable (text : string) (n : Z) (cs : list string)
    (c : string) :
  0 < n ->
  chunk_text text n = Return cs ->
  In c cs ->
  chunk_text c n = Return [c] /\ Py.join " " (Py.split c) = c.
Proof.
  intros Hn Hrun Hin.
  apply list_elem_of_In, list_elem_of_lookup in Hin as [i Hi].
  destruct (chunk_text_lookup text n cs i c Hn Hrun Hi)
    as (Hc & Hsplit & Hw & Hlen & _).
  set (w := take _ _) in *.
  split; [|now rewrite Hsplit].
  unfold chunk_text, Py.range. rewrite Hsplit.
  replace (n =? 0) with false by (symmetry; lia).
  rewrite Z.sub_0_r, Zabs2Nat.id.
  destruct (length w) as [|k] eqn:Hk; [lia|].
  cbn [Py.range_go]. replace (0 <? n) with true by (symmetry; lia).
  rewrite (proj2 (Z.ltb_lt 0 (Z.of_nat (S k)))) by lia.
  replace (Py.range_go k (0 + n) (Z.of_nat (S k)) n) with (@nil Z).
  - cbn [map]. rewrite slice_window by lia.
    change (Z.to_nat 0) with 0%nat. rewrite drop_0.
    rewrite take_ge by lia. now rewrite <- Hc.
  - destruct k; [reflexivity|]. cbn [Py.range_go].
    replace (0 <? n) with true by (symmetry; lia).
    rewrite (proj2 (Z.ltb_ge (0 + n) (Z.of_nat (S (S k))))) by lia.
    reflexivity.
Qed.

Lemma chunk_text_stable_witness :
  0 < 2 /\ chunk_text "  a bb  ccc d e " 2 = Return ["a bb"; "ccc d"; "e"] /\
  In "ccc d" ["a bb"; "ccc d"; "e"] /\
  chunk_text "ccc d" 2 = Return ["ccc d"] /\
  Py.join " " (Py.split "ccc d") = "ccc d".
Proof.
  split; [lia|]. split; [reflexivity|]. split; [simpl; tauto|].
  apply (chunk_text_stable "  a bb  ccc d e " 2 ["a bb"; "ccc d"; "e"]);
    [lia|reflexivity|simpl; tauto].
Defined.

(** X3. The sizes that are not positive: with 0, [range] raises
    ValueError whatever the text; with a negative size no chunk is made
    and the words of the text are dropped without an error. *)
Theorem chunk_text_size_not_positive (text : string) (n : Z) :
  n <= 0 ->
  chunk_text text n = (if n =? 0 then Raise ValueError else Return []).
Proof.
  intros Hn. unfold chunk_text, Py.range.
  destruct (n =? 0) eqn:H0; [reflexivity|]. apply Z.eqb_neq in H0.
  destruct (Z.abs_nat _); [reflexivity|]. cbn [Py.range_go].
  replace (0 <? n) with false by (symmetry; lia).
  rewrite (proj2 (Z.ltb_ge _ 0)) by lia. reflexivity.
Qed.

Lemma chunk_text_size_not_positive_witness :
  -3 <= 0 /\
  chunk_text "a b c" (-3) = (if -3 =? 0 then Raise ValueError else Return []).
Proof.
  split; [lia|]. apply (chunk_text_size_not_positive "a b c" (-3)). lia.
Defined.

(** ** The text of a document, page after page *)

(** With a run in hand, the first word found goes on from that run. *)
Lemma split_go_prefix b : forall x,
  x <> EmptyString ->
  exists w tl,
    Py.split_go x b = w :: tl /\
    forall cur, Py.split_go (cur +:+ x) b = (cur +:+ w) :: tl.
Proof.
  induction b as [|c b IH]; intros x Hx.
  - exists x, []. split; [now destruct x|].
    intros cur. simpl. destruct (cur +:+ x) eqn:Hcur; [|reflexivity].
    now apply app_eq_empty in Hcur as [_ ->].
  - cbn [Py.split_go]. destruct (Py.isspace c).
    + exists x, (Py.split_go EmptyString b). split; [now destruct x|].
      intros cur. destruct (cur +:+ x) eqn:Hcur; [|reflexivity].
      now apply app_eq_empty in Hcur as [_ ->].
    + destruct (IH (x +:+ String c EmptyString)) as (w & tl & Hw & Hcur).
      { intros [-> _]%app_eq_empty. contradiction. }
      exists w, tl. split; [exact Hw|].
      intros cur. rewrite app_assoc_str. apply Hcur.
Qed.


(** A text that ends inside a word, followed by one that starts inside a
    word: the two words are one. *)
Lemma split_go_app_open a : forall cur b,
  ends_word a = true -> starts_word b = true ->
  exists l wl w1 tl,
    Py.split_go cur a = l ++ [wl] /\
    Py.split_go EmptyString b = w1 :: tl /\
    Py.split_go cur (a +:+ b) = l ++ (wl +:+ w1) :: tl.
Proof.
  induction a as [|c a IH]; intros cur b Hend Hstart; [discriminate|].
  rewrite app_cons. cbn [Py.split_go].
  destruct a as [|c' a].
  - simpl in Hend. apply negb_true_iff in Hend. rewrite Hend.
    destruct b as [|d b]; [discriminate|].
    simpl in Hstart. apply negb_true_iff in Hstart.
    rewrite app_empty_l. cbn [Py.split_go]. rewrite Hstart, app_empty_l.
    destruct (split_go_prefix b (String d EmptyString)) as (w1 & tl & Hw & Hcur);
      [discriminate|].
    exists [], (cur +:+ String c EmptyString), w1, tl.
    split.
    { simpl. destruct (cur +:+ String c EmptyString) eqn:H; [|reflexivity].
      now apply app_eq_empty in H as [_ H]. }
    split; [exact Hw|]. apply Hcur.
  - change (ends_word (String c (String c' a)))
      with (ends_word (String c' a)) in Hend.
    destruct (Py.isspace c).
    + destruct (IH EmptyString b Hend Hstart)
        as (l & wl & w1 & tl & Ha & Hb & Hab).
      destruct cur.
      * exists l, wl, w1, tl. auto.
      * exists (String a0 cur :: l), wl, w1, tl.
        split; [now rewrite Ha|]. split; [exact Hb|]. now rewrite Hab.
    + apply IH; assumption.
Qed.




(** X12. Nothing is put between two pages: when a page ends inside a word
    and the next page starts inside a word, the last word of the one and
    the first word of the other are one word of the document, which has
    one word less than its pages. *)
Theorem extract_pdf_text_joins_pages
    (open_pdf : string -> outcome (list (option string)))
    (pdf_path : string) (a b : string) :
  open_pdf pdf_path = Return [Some a; Some b] ->
  ends_word a = true -> starts_word b = true ->
  exists l wl w1 tl,
    Py.split a = l ++ [wl] /\
    Py.split b = w1 :: tl /\
    extract_pdf_text open_pdf pdf_path = Return (a +:+ b) /\
    Py.split (a +:+ b) = l ++ (wl +:+ w1) :: tl.
Proof.
  intros Hopen Ha Hb. unfold extract_pdf_text. rewrite Hopen.
  cbn [fold_left]. rewrite app_empty_l.
  destruct (split_go_app_open a EmptyString b Ha Hb)
    as (l & wl & w1 & tl & H1 & H2 & H3).
  exists l, wl, w1, tl. unfold Py.split. auto.
Qed.

Lemma extract_pdf_text_joins_pages_witness :
  let open_pdf := fun _ : string => Return [Some "the docu"; Some "ment ends"] in
  open_pdf "a.pdf" = Return [Some "the docu"; Some "ment ends"] /\
  ends_word "the docu" = true /\ starts_word "ment ends" = true /\
  exists l wl w1 tl,
    Py.split "the docu" = l ++ [wl] /\
    Py.split "ment ends" = w1 :: tl /\
    extract_pdf_text open_pdf "a.pdf" = Return ("the docu" +:+ "ment ends") /\
    Py.split ("the docu" +:+ "ment ends") = l ++ (wl +:+ w1) :: tl.
Proof.
  cbv zeta. split; [reflexivity|]. split; [reflexivity|].
  split; [reflexivity|].
  apply (extract_pdf_text_joins_pages
           (fun _ => Return [Some "the docu"; Some "ment ends"]) "a.pdf"
           "the docu" "ment ends"); reflexivity.
Defined.

(** ** Ingestion and queries over the states of the server *)

Lemma search_go_match ic s r : forall fuel i adv b e c,
  Re.search_go ic s fuel r i adv = Some (b, e, c) ->
  exists adv', Re.match_at ic s r b adv' = Some (e, c).
Proof.
  induction fuel as [|fuel IH]; intros i adv b e c H; cbn [Re.search_go] in H;
    destruct (Re.match_at ic s r i adv) as [[j c']|] eqn:Hm;
    try discriminate.
  - injection H as <- <- <-. eauto.
  - injection H as <- <- <-. eauto.
  - eauto.
Qed.

(** A pattern that ends with a group hands its continuation the span of
    that group. *)
Lemma m_ends_with_group ic s n r : forall i c (k : Re.cont) res,
  ends_with_group n r = true ->
  Re.m ic s r i c k = Some res ->
  exists j c' sp, k j ((n, sp) :: c') = Some res.
Proof.
  induction r as [|ch|neg items|r1 IH1 r2 IH2|r1 IH1 r2 IH2|r IH|r IH|r IH
                 |n' r IH|r IH]; intros i c k res Hend H;
    cbn [ends_with_group] in Hend; try discriminate.
  - cbn [Re.m] in H. apply m_span in H as (j & c' & _ & H).
    now apply IH2 in H.
  - apply Nat.eqb_eq in Hend as <-. cbn [Re.m] in H.
    apply m_span in H as (j & c' & _ & H). eauto.
Qed.

(** In a match of the pattern of line 69 the group 2 has taken part, so
    [match.group(2)] is a string. *)
Lemma author_pattern_group2 sentence mo :
  Re.search true author_pattern sentence = Some mo ->
  exists g, Re.group mo 2 = Some g.
Proof.
  unfold Re.search, Re.search_from.
  destruct (Re.search_go _ _ _ _ _ _) as [[[b e] c]|] eqn:Hs; [|discriminate].
  intros [= <-]. apply search_go_match in Hs as [adv Hm].
  unfold Re.match_at in Hm.
  apply (m_ends_with_group true sentence 2) in Hm as (j & c' & [b' e'] & Hk);
    [|reflexivity].
  destruct (adv && (j =? b)%nat); [discriminate|].
  injection Hk as _ <-. unfold Re.group. cbn. eauto.
Qed.

Lemma extract_author_returns question sentence :
  exists a, extract_author question sentence = Return a.
Proof.
  unfold extract_author. destruct (asks_author question); [|eauto].
  destruct (Re.search true author_pattern sentence) as [mo|] eqn:Hs; [|eauto].
  destruct (author_pattern_group2 _ _ Hs) as [g ->]. eauto.
Qed.

Lemma forallb_false {A} (f : A -> bool) l :
  forallb f l = false -> exists x, In x l /\ f x = false.
Proof.
  induction l as [|a l IH]; [discriminate|]. simpl.
  destruct (f a) eqn:Ha.
  - intros H. destruct (IH H) as (x & Hx & Hfx). eauto.
  - intros _. eauto.
Qed.

Lemma chunk_text_default_returns text :
  exists cs, chunk_text text chunk_size_default = Return cs /\
             (cs = [] <-> Py.split text = []).
Proof.
  unfold chunk_text, Py.range, chunk_size_default. cbn [Z.eqb].
  eexists. split; [reflexivity|]. rewrite Z.sub_0_r, Zabs2Nat.id.
  destruct (Py.split text) as [|w ws]; [easy|].
  cbn [length Py.range_go]. rewrite (proj2 (Z.ltb_lt 0 128)) by lia.
  rewrite (proj2 (Z.ltb_lt 0 _)) by lia. easy.
Qed.

Section ServerMore.

Context (extract_pdf_text : string -> outcome string).
Context (embed : string -> vec).
Context (cos_sim : vec -> vec -> Q).

Lemma keeps_rag_query q s : keeps_indexes (rag_query embed cos_sim q s).
Proof.
  unfold rag_query. apply keeps_bind; [apply keeps_lookup_session|].
  intros [e|]; [|apply keeps_ret].
  repeat (apply keeps_bind;
          [first [apply keeps_lift|apply keeps_encode]|intros ?]).
  apply keeps_refine.
Qed.

Lemma published_ok p e :
  published extract_pdf_text embed p = Some e -> entry_ok embed e.
Proof.
  unfold published, entry_ok.
  destruct (extract_pdf_text p) as [text|]; [|discriminate].
  destruct (chunk_text text chunk_size_default) as [[|c cs]|];
    try discriminate.
  cbn [map Np.shape1]. unfold Faiss.add, Faiss.new. cbn [Faiss.d Faiss.xb].
  destruct (forallb _ _) eqn:Hall; [|discriminate].
  intros [= <-]. cbn [chunks index Faiss.xb Faiss.d app].
  split; [discriminate|]. split; [reflexivity|].
  rewrite forallb_forall in Hall. apply Forall_forall. intros x Hx.
  apply Nat.eqb_eq, Hall.
  change (embed c :: map embed cs) with (map embed (c :: cs)).
  apply in_map. now apply list_elem_of_In.
Qed.

(** What [index_pdf] does, case by case. *)
Lemma index_pdf_cases p s st :
  (exists e, index_pdf extract_pdf_text embed p s st = (Raise e, st) /\
             extract_pdf_text p = Raise e)
  \/
  (exists text cs,
     extract_pdf_text p = Return text /\
     chunk_text text chunk_size_default = Return cs /\
     let st1 := {| PDF_INDEXES := PDF_INDEXES st;
                   encoded := encoded st ++ [cs] |} in
     (cs = [] /\ Py.split text = [] /\
      index_pdf extract_pdf_text embed p s st = (Raise IndexError, st1))
     \/
     (exists c cs', cs = c :: cs' /\
        ((exists c', In c' cs /\ length (embed c') <> length (embed c) /\
            index_pdf extract_pdf_text embed p s st
            = (Raise AssertionError, st1))
         \/
         index_pdf extract_pdf_text embed p s st =
         (Return (indexed_message (length cs)),
          {| PDF_INDEXES :=
               <[s := {| index := {| Faiss.d := length (embed c);
                                     Faiss.xb := map embed cs |};
                         chunks := cs |}]> (PDF_INDEXES st);
             encoded := encoded st ++ [cs] |})))).
Proof.
  unfold index_pdf at 1 2 3 4. unfold bind, lift, encode, setitem, ret.
  destruct (extract_pdf_text p) as [text|e]; [|left; eauto].
  right. destruct (chunk_text_default_returns text) as (cs & Hcs & Hnil).
  exists text, cs. rewrite Hcs. split; [reflexivity|]. split; [reflexivity|].
  cbv zeta. destruct cs as [|c cs'].
  - left. split; [reflexivity|]. split; [now apply Hnil|reflexivity].
  - right. exists c, cs'. split; [reflexivity|].
    cbn [map Np.shape1]. unfold Faiss.add, Faiss.new. cbn [Faiss.d Faiss.xb].
    destruct (forallb _ _) eqn:Hall.
    + right. reflexivity.
    + left. apply forallb_false in Hall as (v & Hv & Hlen).
      change (embed c :: map embed cs') with (map embed (c :: cs')) in Hv.
      apply in_map_iff in Hv as (c' & <- & Hc').
      exists c'. split; [exact Hc'|]. split; [|reflexivity].
      now apply Nat.eqb_neq in Hlen.
Qed.

(** X4. An ingestion that raises stores nothing: the registry is as it
    was.  The exception is the one of the extraction (then the embedder
    was not called either), or IndexError for a text without a word, or
    AssertionError when the embedder gave rows of two lengths. *)
Theorem index_pdf_failure (file_path session_id : string) (st st' : state)
    (e : exn) :
  index_pdf extract_pdf_text embed file_path session_id st = (Raise e, st') ->
  PDF_INDEXES st' = PDF_INDEXES st /\
  ((extract_pdf_text file_path = Raise e /\ st' = st)
   \/
   (exists text,
      extract_pdf_text file_path = Return text /\
      ((Py.split text = [] /\ e = IndexError)
       \/
       (e = AssertionError /\
        exists c c', length (embed c') <> length (embed c))))).
Proof.
  intros Hrun.
  destruct (index_pdf_cases file_path session_id st)
    as [(e' & Hr & Hx)
       |(text & cs & Hx & Hcs &
           [(_ & Hnil & Hr)
           |(c & cs' & -> & [(c' & _ & Hlen & Hr)|Hr])])];
    rewrite Hr in Hrun; try discriminate; injection Hrun as <- <-.
  - split; [reflexivity|]. left. now split.
  - split; [reflexivity|]. right. exists text. split; [exact Hx|]. now left.
  - split; [reflexivity|]. right. exists text. split; [exact Hx|]. right.
    split; [reflexivity|]. now exists c, c'.
Qed.

(** X5. With an embedder of one dimensionality [dim], the ingestion of a
    text with at least one word returns: the status names the number of
    chunks, [ceil (W / 128)] for [W] words; the entry of the session is
    replaced by these chunks and an index of dimension [dim] over their
    embeddings; the embedder was called once, with all chunks. *)
Theorem index_pdf_success (file_path session_id : string) (st : state)
    (text : string) (dim : nat) :
  (forall x, length (embed x) = dim) ->
  extract_pdf_text file_path = Return text ->
  Py.split text <> [] ->
  exists cs,
    chunk_text text chunk_size_default = Return cs /\
    Z.of_nat (length cs)
    = (Z.of_nat (length (Py.split text)) + 127) / 128 /\
    index_pdf extract_pdf_text embed file_path session_id st =
    (Return (indexed_message (length cs)),
     {| PDF_INDEXES :=
          <[session_id := {| index := {| Faiss.d := dim;
                                         Faiss.xb := map embed cs |};
                             chunks := cs |}]> (PDF_INDEXES st);
        encoded := encoded st ++ [cs] |}).
Proof.
  intros Hdim Hx Hwords.
  destruct (index_pdf_cases file_path session_id st)
    as [(e' & _ & Hx')
       |(text' & cs & Hx' & Hcs &
           [(_ & Hnil & _)
           |(c & cs' & -> & [(c' & _ & Hlen & _)|Hr])])];
    rewrite Hx in Hx'; try discriminate; injection Hx' as <-.
  - contradiction.
  - now rewrite !Hdim in Hlen.
  - exists (c :: cs'). split; [exact Hcs|]. split.
    + unfold chunk_text, Py.range, chunk_size_default in Hcs.
      cbn [Z.eqb] in Hcs. injection Hcs as <-.
      rewrite length_map, range_go_length by lia.
      rewrite Z.sub_0_r. replace (_ + 128 - 1) with
        (Z.of_nat (length (Py.split text)) + 127) by lia.
      apply Z.max_r, Z.div_pos; lia.
    + now rewrite Hr, Hdim.
Qed.

(** The invariant of the entries, over the states the server reaches. *)
Lemma reachable_entry_ok_aux (st : state) (session_id : string) (e : entry) :
  reachable extract_pdf_text embed cos_sim st ->
  PDF_INDEXES st !! session_id = Some e ->
  entry_ok embed e.
Proof.
  intros Hreach. revert session_id e.
  induction Hreach as [|st p s Hreach IH|st q s Hreach IH]; intros s' e He.
  - discriminate.
  - rewrite index_pdf_lookup in He.
    destruct (published extract_pdf_text embed p) as [e'|] eqn:Hp; [|eauto].
    destruct (decide (s = s')); [|eauto].
    injection He as <-. now apply published_ok in Hp.
  - rewrite keeps_rag_query in He. eauto.
Qed.

(** X6. In every state the server reaches, every entry is as [index_pdf]
    builds it: it has a chunk, row [i] of its index is the embedding of
    chunk [i], and all rows have the dimension of the index. *)
Theorem reachable_entry_ok (st : state) (session_id : string) (e : entry) :
  reachable extract_pdf_text embed cos_sim st ->
  PDF_INDEXES st !! session_id = Some e ->
  entry_ok embed e.
Proof. apply reachable_entry_ok_aux. Qed.

(** The run of the selection of a sentence. *)
Lemma select_sentence_run question best_chunk st :
  let sentences := Re.split false sentence_end best_chunk in
  exists sent,
    In sent sentences /\
    select_sentence embed cos_sim question best_chunk st =
    (Return sent,
     {| PDF_INDEXES := PDF_INDEXES st;
        encoded := encoded st
                   ++ (if (length sentences =? 1)%nat then []
                       else [sentences; [question]]) |}).
Proof.
  intros sentences. unfold select_sentence. fold sentences.
  destruct (length sentences =? 1)%nat eqn:Hone.
  - exists best_chunk.
    apply Nat.eqb_eq, split_single in Hone. fold sentences in Hone.
    rewrite Hone. split; [now left|].
    unfold ret. rewrite app_nil_r. now destruct st.
  - unfold bind, encode, lift. cbn [PDF_INDEXES encoded map].
    change (Py.getitem [embed question] 0) with (Return (embed question)).
    cbn iota beta.
    set (sims := map _ (map embed sentences)).
    destruct (argmax_first sims) as (k & v & Harg & Hk & _ & _).
    { intros Hnil. apply (f_equal length) in Hnil. unfold sims in Hnil.
      rewrite !length_map in Hnil.
      now apply length_zero_iff_nil, split_nonempty in Hnil. }
    rewrite Harg. unfold sims in Hk. rewrite !list_lookup_fmap in Hk.
    destruct (sentences !! k) as [sent|] eqn:Hsent; [|discriminate].
    exists sent. rewrite (getitem_lookup _ _ _ Hsent).
    split; [eapply list_elem_of_In, list_elem_of_lookup_2, Hsent|].
    now rewrite <- app_assoc.
Qed.

(** The run of a query on an entry that is as [index_pdf] builds it. *)
Lemma rag_query_run question session_id st e :
  length (embed question) = Faiss.d (index e) ->
  PDF_INDEXES st !! session_id = Some e ->
  entry_ok embed e ->
  exists c sent,
    In c (chunks e) /\
    In sent (Re.split false sentence_end c) /\
    rag_query embed cos_sim question session_id st =
    (extract_author question sent,
     {| PDF_INDEXES := PDF_INDEXES st;
        encoded :=
          (encoded st ++ [[question]])
          ++ (if (length (Re.split false sentence_end c) =? 1)%nat
              then []
              else [Re.split false sentence_end c; [question]]) |}).
Proof.
  intros Hdim He (Hne & Hxb & _).
  destruct (rag_query_nearest_chunk embed cos_sim question session_id st e
              He Hxb Hne Hdim) as (i & c & Hc & _ & _ & Hq).
  exists c. rewrite Hq. unfold refine, bind.
  destruct (select_sentence_run question c
              {| PDF_INDEXES := PDF_INDEXES st;
                 encoded := encoded st ++ [[question]] |})
    as (sent & Hsent & ->).
  exists sent. split; [eapply list_elem_of_In, list_elem_of_lookup_2, Hc|].
  split; [exact Hsent|reflexivity].
Qed.

(** A question has the dimension of the entries of reachable states. *)
Lemma entry_ok_dim e question dim :
  (forall x, length (embed x) = dim) ->
  entry_ok embed e ->
  length (embed question) = Faiss.d (index e).
Proof.
  intros Hdim (Hne & _ & Hall). destruct (chunks e) as [|c0 cs];
    [congruence|]. inversion Hall; subst. now rewrite !Hdim in *.
Qed.

(** X7. With an embedder of one dimensionality, no query raises in a
    state the server reaches: it returns the message of the unknown
    session or an answer. *)
Theorem rag_query_returns (question session_id : string) (st : state)
    (dim : nat) :
  (forall x, length (embed x) = dim) ->
  reachable extract_pdf_text embed cos_sim st ->
  exists answer st',
    rag_query embed cos_sim question session_id st = (Return answer, st').
Proof.
  intros Hdim Hreach.
  destruct (PDF_INDEXES st !! session_id) as [e|] eqn:He.
  - pose proof (reachable_entry_ok_aux st session_id e Hreach He) as Hok.
    destruct (rag_query_run question session_id st e
                (entry_ok_dim e question dim Hdim Hok) He Hok)
      as (c & sent & _ & _ & Hq).
    rewrite Hq. destruct (extract_author_returns question sent) as [a ->].
    eauto.
  - exists no_index_message, st. unfold rag_query.
    now rewrite bind_lookup_session, He.
Qed.

(** X8. The selection of a sentence always returns, for every embedder
    and similarity, and what it returns is one of the sentences the split
    of the chunk gives; the registry is not touched. *)
Theorem select_sentence_member (question best_chunk : string) (st : state) :
  exists sent st',
    select_sentence embed cos_sim question best_chunk st = (Return sent, st') /\
    In sent (Re.split false sentence_end best_chunk) /\
    PDF_INDEXES st' = PDF_INDEXES st.
Proof.
  destruct (select_sentence_run question best_chunk st) as (sent & Hin & Hrun).
  exists sent. eexists. split; [exact Hrun|]. now split.
Qed.

(** X9. Where an answer comes from: in a reachable state, a query on a
    session with an entry applies the extraction of the author to one
    sentence of one chunk of that entry; when the question holds no
    trigger phrase the answer is that sentence, character for character. *)
Theorem rag_query_answer_source (question session_id : string) (st : state)
    (e : entry) (dim : nat) :
  (forall x, length (embed x) = dim) ->
  reachable extract_pdf_text embed cos_sim st ->
  PDF_INDEXES st !! session_id = Some e ->
  exists c sent,
    In c (chunks e) /\
    In sent (Re.split false sentence_end c) /\
    fst (rag_query embed cos_sim question session_id st)
    = extract_author question sent /\
    (asks_author question = false ->
     fst (rag_query embed cos_sim question session_id st) = Return sent).
Proof.
  intros Hdim Hreach He.
  pose proof (reachable_entry_ok_aux st session_id e Hreach He) as Hok.
  destruct (rag_query_run question session_id st e
              (entry_ok_dim e question dim Hdim Hok) He Hok)
    as (c & sent & Hc & Hsent & Hq).
  exists c, sent. rewrite Hq. cbn [fst].
  split; [exact Hc|]. split; [exact Hsent|]. split; [reflexivity|].
  unfold extract_author. now intros ->.
Qed.

(** X10. The calls of the embedder in a query, in a reachable state: none
    for a session without entry; else one call with the question, and,
    when the best chunk has two sentences or more, one call with the
    sentences and a second call with the question. *)
Theorem rag_query_encode_calls (question session_id : string) (st : state)
    (dim : nat) :
  (forall x, length (embed x) = dim) ->
  reachable extract_pdf_text embed cos_sim st ->
  let st' := snd (rag_query embed cos_sim question session_id st) in
  match PDF_INDEXES st !! session_id with
  | None => encoded st' = encoded st
  | Some e =>
      exists c,
        In c (chunks e) /\
        encoded st' =
        (encoded st ++ [[question]])
        ++ (if (length (Re.split false sentence_end c) =? 1)%nat
            then []
            else [Re.split false sentence_end c; [question]])
  end.
Proof.
  intros Hdim Hreach st'. subst st'.
  destruct (PDF_INDEXES st !! session_id) as [e|] eqn:He.
  - pose proof (reachable_entry_ok_aux st session_id e Hreach He) as Hok.
    destruct (rag_query_run question session_id st e
                (entry_ok_dim e question dim Hdim Hok) He Hok)
      as (c & sent & Hc & _ & Hq).
    exists c. now rewrite Hq.
  - unfold rag_query. now rewrite bind_lookup_session, He.
Qed.

End ServerMore.

(** A state the server reaches, for the closed examples: "cv.pdf" is
    ingested into the session "s1". *)
Lemma demo_reachable :
  reachable Demo.extract_pdf_text Demo.embed Demo.cos_sim
    (snd (Demo.index_pdf "cv.pdf" "s1" init_state)).
Proof. apply reach_index_pdf, reach_init. Qed.

Lemma demo_dim : forall x, length (Demo.embed x) = 2%nat.
Proof. reflexivity. Qed.

Lemma index_pdf_failure_witness :
  let st' := {| PDF_INDEXES := ∅; encoded := [[]] |} in
  Demo.index_pdf "blank.pdf" "s1" init_state = (Raise IndexError, st') /\
  PDF_INDEXES st' = PDF_INDEXES init_state /\
  ((Demo.extract_pdf_text "blank.pdf" = Raise IndexError /\ st' = init_state)
   \/
   (exists text,
      Demo.extract_pdf_text "blank.pdf" = Return text /\
      ((Py.split text = [] /\ IndexError = IndexError)
       \/
       (IndexError = AssertionError /\
        exists c c', length (Demo.embed c') <> length (Demo.embed c))))).
Proof.
  cbv zeta. split; [reflexivity|].
  apply (index_pdf_failure Demo.extract_pdf_text Demo.embed
           "blank.pdf" "s1" init_state).
  reflexivity.
Defined.

Lemma index_pdf_success_witness :
  let text := "The sea is deep.   Bees see trees everywhere" in
  (forall x, length (Demo.embed x) = 2%nat) /\
  Demo.extract_pdf_text "notes.pdf" = Return text /\
  Py.split text <> [] /\
  exists cs,
    chunk_text text chunk_size_default = Return cs /\
    Z.of_nat (length cs)
    = (Z.of_nat (length (Py.split text)) + 127) / 128 /\
    Demo.index_pdf "notes.pdf" "s1" init_state =
    (Return (indexed_message (length cs)),
     {| PDF_INDEXES :=
          <[ "s1" := {| index := {| Faiss.d := 2;
                                    Faiss.xb := map Demo.embed cs |};
                        chunks := cs |}]> (PDF_INDEXES init_state);
        encoded := encoded init_state ++ [cs] |}).
Proof.
  cbv zeta. split; [reflexivity|]. split; [reflexivity|].
  split; [discriminate|].
  apply (index_pdf_success Demo.extract_pdf_text Demo.embed
           "notes.pdf" "s1" init_state
           "The sea is deep.   Bees see trees everywhere" 2);
    [reflexivity|reflexivity|discriminate].
Defined.

Lemma reachable_entry_ok_witness :
  let cs := ["Rapport annuel. Pr" +:+ e_acute +:+ "sent" +:+ e_acute
             +:+ " par Jane Doe. Merci!"] in
  let e := {| index := {| Faiss.d := 2; Faiss.xb := map Demo.embed cs |};
              chunks := cs |} in
  let st := snd (Demo.index_pdf "cv.pdf" "s1" init_state) in
  reachable Demo.extract_pdf_text Demo.embed Demo.cos_sim st /\
  PDF_INDEXES st !! "s1" = Some e /\
  entry_ok Demo.embed e.
Proof.
  cbv zeta. split; [exact demo_reachable|]. split; [reflexivity|].
  apply (reachable_entry_ok Demo.extract_pdf_text Demo.embed Demo.cos_sim
           (snd (Demo.index_pdf "cv.pdf" "s1" init_state)) "s1");
    [exact demo_reachable|reflexivity].
Defined.

Lemma rag_query_returns_witness :
  let st := snd (Demo.index_pdf "cv.pdf" "s1" init_state) in
  (forall x, length (Demo.embed x) = 2%nat) /\
  reachable Demo.extract_pdf_text Demo.embed Demo.cos_sim st /\
  exists answer st',
    Demo.rag_query "Qui est l'auteur ?" "s1" st = (Return answer, st').
Proof.
  cbv zeta. split; [exact demo_dim|]. split; [exact demo_reachable|].
  apply (rag_query_returns Demo.extract_pdf_text Demo.embed Demo.cos_sim
           "Qui est l'auteur ?" "s1" _ 2 demo_dim demo_reachable).
Defined.

Lemma rag_query_answer_source_witness :
  let cs := ["Rapport annuel. Pr" +:+ e_acute +:+ "sent" +:+ e_acute
             +:+ " par Jane Doe. Merci!"] in
  let e := {| index := {| Faiss.d := 2; Faiss.xb := map Demo.embed cs |};
              chunks := cs |} in
  let st := snd (Demo.index_pdf "cv.pdf" "s1" init_state) in
  (forall x, length (Demo.embed x) = 2%nat) /\
  reachable Demo.extract_pdf_text Demo.embed Demo.cos_sim st /\
  PDF_INDEXES st !! "s1" = Some e /\
  exists c sent,
    In c (chunks e) /\
    In sent (Re.split false sentence_end c) /\
    fst (Demo.rag_query "hello" "s1" st) = extract_author "hello" sent /\
    (asks_author "hello" = false ->
     fst (Demo.rag_query "hello" "s1" st) = Return sent).
Proof.
  cbv zeta. split; [exact demo_dim|]. split; [exact demo_reachable|].
  split; [reflexivity|].
  apply (rag_query_answer_source Demo.extract_pdf_text Demo.embed
           Demo.cos_sim "hello" "s1" _ _ 2 demo_dim demo_reachable).
  reflexivity.
Defined.

Lemma rag_query_encode_calls_witness :
  let st := snd (Demo.index_pdf "cv.pdf" "s1" init_state) in
  (forall x, length (Demo.embed x) = 2%nat) /\
  reachable Demo.extract_pdf_text Demo.embed Demo.cos_sim st /\
  let st' := snd (Demo.rag_query "hello" "s1" st) in
  match PDF_INDEXES st !! "s1" with
  | None => encoded st' = encoded st
  | Some e =>
      exists c,
        In c (chunks e) /\
        encoded st' =
        (encoded st ++ [["hello"]])
        ++ (if (length (Re.split false sentence_end c) =? 1)%nat
            then []
            else [Re.split false sentence_end c; ["hello"]])
  end.
Proof.
  cbv zeta. split; [exact demo_dim|]. split; [exact demo_reachable|].
  apply (rag_query_encode_calls Demo.extract_pdf_text Demo.embed
           Demo.cos_sim "hello" "s1" _ 2 demo_dim demo_reachable).
Defined.

(** ** The matcher along the subject

    For a pattern without group and look-behind, a match in [String a s]
    from position [S i] is a match in [s] from position [i].  This gives
    [re.split] and [re.sub] by recursion on the subject. *)

Section MatcherShift.

Variable ic : bool.

Lemma m_ext_all s r i c (k1 k2 : Re.cont) :
  (forall j c', k1 j c' = k2 j c') ->
  Re.m ic s r i c k1 = Re.m ic s r i c k2.
Proof. intros H. apply m_ext. intros j c' _. apply H. Qed.

Lemma star_ext_all s r fuel i c (k1 k2 : Re.cont) :
  (forall j c', k1 j c' = k2 j c') ->
  Re.star (Re.m ic s r) fuel i c k1 = Re.star (Re.m ic s r) fuel i c k2.
Proof.
  revert i c. induction fuel as [|fuel IH]; intros i c H; cbn [Re.star];
    [apply H|].
  rewrite (m_ext_all s r i c _
             (fun j c' => if (i <? j)%nat
                          then Re.star (Re.m ic s r) fuel j c' k2 else None)).
  - now rewrite H.
  - intros j c'. destruct (i <? j)%nat; [now apply IH|reflexivity].
Qed.

(** The matcher hands the result of its continuation on. *)
Lemma star_map s r (f : nat * Re.captures -> nat * Re.captures) :
  (forall i c (k : Re.cont),
     Re.m ic s r i c (fun j c' => option_map f (k j c'))
     = option_map f (Re.m ic s r i c k)) ->
  forall fuel i c (k : Re.cont),
    Re.star (Re.m ic s r) fuel i c (fun j c' => option_map f (k j c'))
    = option_map f (Re.star (Re.m ic s r) fuel i c k).
Proof.
  intros Hbody. induction fuel as [|fuel IH]; intros i c k; cbn [Re.star];
    [reflexivity|].
  rewrite (m_ext_all s r i c _
             (fun j c' => option_map f
                (if (i <? j)%nat
                 then Re.star (Re.m ic s r) fuel j c' k else None))).
  - rewrite Hbody. now destruct (Re.m ic s r i c _).
  - intros j c'. destruct (i <? j)%nat; [apply IH|reflexivity].
Qed.

Lemma m_map s (f : nat * Re.captures -> nat * Re.captures) r :
  forall i c (k : Re.cont),
    Re.m ic s r i c (fun j c' => option_map f (k j c'))
    = option_map f (Re.m ic s r i c k).
Proof.
  induction r as [|ch|neg items|r1 IH1 r2 IH2|r1 IH1 r2 IH2|r IH|r IH|r IH
                 |n r IH|r IH]; intros i c k; cbn [Re.m].
  - reflexivity.
  - destruct (String.get i s); [|reflexivity]. now destruct (Re.lit_has _ _ _).
  - destruct (String.get i s); [|reflexivity].
    now destruct (Re.class_has _ _ _ _).
  - rewrite <- IH1. apply m_ext_all. intros j c'. apply IH2.
  - rewrite IH1, IH2. now destruct (Re.m ic s r1 i c k).
  - now apply star_map.
  - rewrite <- IH. apply m_ext_all. intros j c'. now apply star_map.
  - rewrite IH. now destruct (Re.m ic s r i c k).
  - apply (IH i c (fun j c' => k j ((n, (i, j)) :: c'))).
  - destruct (i <? Re.width r)%nat; [reflexivity|].
    now destruct (Re.m ic s r _ c _) as [[? c']|].
Qed.

Lemma star_shift a s r :
  (forall i c (k : Re.cont),
     Re.m ic (String a s) r (S i) c k
     = Re.m ic s r i c (fun j c' => k (S j) c')) ->
  forall fuel i c (k : Re.cont),
    Re.star (Re.m ic (String a s) r) fuel (S i) c k
    = Re.star (Re.m ic s r) fuel i c (fun j c' => k (S j) c').
Proof.
  intros Hbody. induction fuel as [|fuel IH]; intros i c k; cbn [Re.star];
    [reflexivity|].
  rewrite Hbody.
  rewrite (m_ext_all s r i c _
             (fun j c' => if (i <? j)%nat
                          then Re.star (Re.m ic s r) fuel j c'
                                 (fun j' c'' => k (S j') c'')
                          else None)); [reflexivity|].
  intros j c'. change (S i <? S j)%nat with (i <? j)%nat.
  destruct (i <? j)%nat; [apply IH|reflexivity].
Qed.

Lemma m_shift a s r :
  simple r = true ->
  forall i c (k : Re.cont),
    Re.m ic (String a s) r (S i) c k
    = Re.m ic s r i c (fun j c' => k (S j) c').
Proof.
  induction r as [|ch|neg items|r1 IH1 r2 IH2|r1 IH1 r2 IH2|r IH|r IH|r IH
                 |n r IH|r IH]; intros Hs i c k; cbn [simple] in Hs;
    try discriminate; cbn [Re.m];
    try (apply andb_prop in Hs as [Hs1 Hs2]).
  - reflexivity.
  - reflexivity.
  - reflexivity.
  - rewrite (IH1 Hs1). apply m_ext_all. intros j c'. apply (IH2 Hs2).
  - now rewrite (IH1 Hs1), (IH2 Hs2).
  - apply (star_shift a s r (IH Hs)).
  - rewrite (IH Hs). apply m_ext_all. intros j c'.
    apply (star_shift a s r (IH Hs)).
  - now rewrite (IH Hs).
Qed.

Lemma match_at_shift a s r i adv :
  simple r = true ->
  Re.match_at ic (String a s) r (S i) adv
  = option_map shift1 (Re.match_at ic s r i adv).
Proof.
  intros Hs. unfold Re.match_at. rewrite (m_shift a s r Hs).
  rewrite <- m_map. apply m_ext_all. intros j c'.
  change (S j =? S i)%nat with (j =? i)%nat.
  now destruct (adv && (j =? i)%nat).
Qed.

Lemma search_go_shift a s r :
  simple r = true ->
  forall fuel i adv,
    Re.search_go ic (String a s) fuel r (S i) adv
    = option_map shift3 (Re.search_go ic s fuel r i adv).
Proof.
  intros Hs. induction fuel as [|fuel IH]; intros i adv;
    cbn [Re.search_go]; rewrite (match_at_shift a s r i adv Hs);
    destruct (Re.match_at ic s r i adv) as [[j c]|]; try reflexivity.
  apply IH.
Qed.

Lemma spans_go_shift a s r :
  simple r = true ->
  forall fuel pos adv,
    Re.spans_go ic (String a s) fuel r (S pos) adv
    = map (shift_span 1) (Re.spans_go ic s fuel r pos adv).
Proof.
  intros Hs. induction fuel as [|fuel IH]; intros pos adv; [reflexivity|].
  cbn [Re.spans_go]. unfold Re.search_from.
  change (String.length (String a s) - S pos)%nat
    with (String.length s - pos)%nat.
  rewrite (search_go_shift a s r Hs).
  destruct (Re.search_go ic s _ r pos adv) as [[[b e] c]|]; [|reflexivity].
  cbn [option_map shift3 fst snd map]. rewrite IH. reflexivity.
Qed.

Lemma pieces_shift a s sp : forall last,
  Re.pieces (String a s) (S last) (map (shift_span 1) sp) = Re.pieces s last sp.
Proof.
  induction sp as [|[b e] sp IH]; intros last; [reflexivity|].
  cbn [map Re.pieces shift_span fst snd Nat.add]. now rewrite IH.
Qed.

Lemma skip_length n : forall s,
  (n <= String.length s)%nat ->
  String.length (skip n s) = (String.length s - n)%nat.
Proof.
  induction n as [|n IH]; intros [|a s] H; simpl in *; try lia.
  now apply IH, le_S_n.
Qed.

Lemma spans_go_skip r n : forall s fuel pos adv,
  simple r = true ->
  (n <= String.length s)%nat ->
  Re.spans_go ic s fuel r (n + pos) adv
  = map (shift_span n) (Re.spans_go ic (skip n s) fuel r pos adv).
Proof.
  induction n as [|n IH]; intros s fuel pos adv Hs Hn.
  - destruct s; cbn [skip Nat.add]; rewrite <- (map_id (Re.spans_go _ _ _ _ _ _)) at 1;
      apply map_ext; now intros [b e].
  - destruct s as [|a s]; [simpl in Hn; lia|]. cbn [skip Nat.add].
    rewrite (spans_go_shift a s r Hs), (IH s) by (simpl in Hn; auto; lia).
    rewrite map_map. apply map_ext. now intros [b e].
Qed.

Lemma pieces_skip n : forall s last sp,
  (n <= String.length s)%nat ->
  Re.pieces s (n + last) (map (shift_span n) sp) = Re.pieces (skip n s) last sp.
Proof.
  induction n as [|n IH]; intros s last sp Hn.
  - replace (map (shift_span 0) sp) with sp.
    + now destruct s.
    + rewrite <- (map_id sp) at 1. apply map_ext. now intros [b e].
  - destruct s as [|a s]; [simpl in Hn; lia|]. cbn [skip Nat.add].
    rewrite <- (IH s) by (simpl in Hn; lia).
    rewrite <- (pieces_shift a s). rewrite map_map. reflexivity.
Qed.

Lemma substring_0_0 s : String.substring 0 0 s = EmptyString.
Proof. now destruct s. Qed.

(** No match at the first character: it goes into the first piece. *)
Lemma split_cons_nomatch a s r :
  simple r = true ->
  Re.match_at ic (String a s) r 0 false = None ->
  Re.split ic r (String a s)
  = match Re.split ic r s with
    | p :: ps => String a p :: ps
    | [] => []
    end.
Proof.
  intros Hs Hno. unfold Re.split, Re.spans.
  set (len := String.length s).
  replace (2 * String.length (String a s) + 2)%nat with (S (2 * len + 3))
    by (simpl; lia).
  replace (2 * len + 2)%nat with (S (2 * len + 1)) by lia.
  cbn [Re.spans_go]. unfold Re.search_from.
  change (String.length (String a s) - 0)%nat with (S len).
  cbn [Re.search_go]. rewrite Hno, (search_go_shift a s r Hs).
  replace (String.length s - 0)%nat with len by (unfold len; lia).
  destruct (Re.search_go ic s len r 0 false) as [[[b e] c]|] eqn:Hsearch.
  - cbn [option_map shift3 fst snd].
    apply search_go_span in Hsearch as (Hb & He & _). fold len in He.
    change (S e =? S b)%nat with (e =? b)%nat.
    rewrite (spans_go_shift a s r Hs).
    rewrite (spans_go_fuel ic s r (2 * len + 3) (2 * len + 1) e (e =? b)%nat);
      [| fold len; lia
       | fold len; destruct (Nat.eqb_spec e b); lia
       | fold len; destruct (Nat.eqb_spec e b); lia ].
    cbn [Re.pieces]. rewrite pieces_shift.
    now rewrite !Nat.sub_0_r.
  - cbn [option_map Re.pieces]. fold len.
    now rewrite !Nat.sub_0_r.
Qed.

(** A match at the start that reads [e] characters: an empty piece, then
    the pieces of what is left. *)
Lemma split_match s r e c :
  simple r = true ->
  Re.match_at ic s r 0 false = Some (e, c) ->
  (0 < e)%nat ->
  Re.split ic r s = EmptyString :: Re.split ic r (skip e s).
Proof.
  intros Hs Hm He. unfold Re.split, Re.spans.
  set (len := String.length s).
  apply match_at_span in Hm as Hspan. destruct Hspan as [Hle _].
  fold len in Hle.
  replace (2 * len + 2)%nat with (S (2 * len + 1)) by lia.
  cbn [Re.spans_go]. unfold Re.search_from.
  assert (Hsearch : Re.search_go ic s (len - 0) r 0 false = Some (0%nat, e, c))
    by (destruct (len - 0)%nat; cbn [Re.search_go]; now rewrite Hm).
  fold len. rewrite Hsearch.
  replace (e =? 0)%nat with false by (symmetry; apply Nat.eqb_neq; lia).
  cbn [Re.pieces]. rewrite substring_0_0. f_equal.
  replace e with (e + 0)%nat at 1 2 by lia.
  rewrite (spans_go_skip r e s) by (auto; fold len; lia).
  rewrite pieces_skip by (fold len; lia).
  f_equal.
  apply spans_go_fuel; rewrite ?skip_length by (fold len; lia);
    fold len; lia.
Qed.

Lemma join_cons_char sep a p ps :
  Py.join sep (String a p :: ps) = String a (Py.join sep (p :: ps)).
Proof. now destruct ps. Qed.

Lemma sub_cons_nomatch a s r repl :
  simple r = true ->
  Re.match_at ic (String a s) r 0 false = None ->
  Re.sub ic r repl (String a s) = String a (Re.sub ic r repl s).
Proof.
  intros Hs Hno. change (Re.sub ic r repl (String a s))
    with (Py.join repl (Re.split ic r (String a s))).
  change (Re.sub ic r repl s) with (Py.join repl (Re.split ic r s)).
  rewrite (split_cons_nomatch a s r Hs Hno).
  pose proof (split_nonempty ic r s).
  destruct (Re.split ic r s) as [|p ps]; [congruence|].
  apply join_cons_char.
Qed.

Lemma sub_match s r repl e c :
  simple r = true ->
  Re.match_at ic s r 0 false = Some (e, c) ->
  (0 < e)%nat ->
  Re.sub ic r repl s = repl +:+ Re.sub ic r repl (skip e s).
Proof.
  intros Hs Hm He. change (Re.sub ic r repl s)
    with (Py.join repl (Re.split ic r s)).
  change (Re.sub ic r repl (skip e s))
    with (Py.join repl (Re.split ic r (skip e s))).
  rewrite (split_match s r e c Hs Hm He).
  pose proof (split_nonempty ic r (skip e s)).
  destruct (Re.split ic r (skip e s)) as [|p ps]; [congruence|].
  reflexivity.
Qed.

Lemma sub_empty r repl :
  Re.match_at ic EmptyString r 0 false = None ->
  Re.sub ic r repl EmptyString = EmptyString.
Proof.
  intros Hno. unfold Re.sub, Re.spans. cbn. unfold Re.search_from. cbn.
  now rewrite Hno.
Qed.

(** [re.sub] of a character class by the empty string keeps the
    characters outside the class. *)
Lemma sub_class_filter neg items s :
  Re.sub ic (Re.In neg items) EmptyString s
  = filter_str (fun a => negb (Re.class_has ic neg items a)) s.
Proof.
  induction s as [|a s IH]; [now apply sub_empty|].
  cbn [filter_str]. destruct (Re.class_has ic neg items a) eqn:Ha; cbn [negb].
  - rewrite (sub_match (String a s) _ _ 1 []); [exact IH|reflexivity| |lia].
    unfold Re.match_at. cbn. now rewrite Ha.
  - rewrite sub_cons_nomatch; [now rewrite IH|reflexivity|].
    unfold Re.match_at. cbn. now rewrite Ha.
Qed.

End MatcherShift.

(** ** clean_text: the two substitutions and the strip *)

Lemma space_class a : Re.class_has false false [Re.Space] a = Py.isspace a.
Proof.
  unfold Re.class_has, existsb, Re.item_has. rewrite orb_false_r.
  now destruct (Py.isspace a).
Qed.

(** [\s*] reads the whole run of separators. *)
Lemma star_space_run s : forall fuel c (k : Re.cont),
  (String.length s <= fuel)%nat ->
  (forall j c', k j c' <> None) ->
  Re.star (Re.m false s (Re.In false [Re.Space])) fuel 0 c k = k (run s) c.
Proof.
  induction s as [|a s IH]; intros fuel c k Hf Hk.
  - now destruct fuel.
  - destruct fuel as [|fuel]; [simpl in Hf; lia|].
    cbn [Re.star Re.m String.get run]. rewrite space_class.
    destruct (Py.isspace a) eqn:Ha; [|reflexivity].
    change (0 <? 1)%nat with true. cbv iota.
    rewrite (star_shift false a s _
               (m_shift false a s (Re.In false [Re.Space]) eq_refl)).
    rewrite IH by (simpl in Hf; auto; lia).
    destruct (k (S (run s)) c) eqn:Hk'; [reflexivity|now apply Hk in Hk'].
Qed.

Lemma whitespace_run_match_at a s :
  Re.match_at false (String a s) whitespace_run 0 false
  = if Py.isspace a then Some (S (run s), []) else None.
Proof.
  unfold Re.match_at, whitespace_run. cbn [Re.m String.get andb].
  rewrite space_class. destruct (Py.isspace a); [|reflexivity].
  change (String.length (String a s) - 1)%nat with (String.length s - 0)%nat.
  rewrite (star_shift false a s _
               (m_shift false a s (Re.In false [Re.Space]) eq_refl)).
  rewrite star_space_run; [reflexivity|lia|discriminate].
Qed.

Lemma skip_length_le n : forall s,
  (String.length (skip n s) <= String.length s)%nat.
Proof.
  induction n as [|n IH]; intros [|a s]; simpl; try lia.
  specialize (IH s). lia.
Qed.

Lemma collapse_skip_run s :
  collapse_go true s = collapse_go false (skip (run s) s).
Proof.
  induction s as [|a s IH]; [reflexivity|].
  cbn [collapse_go run]. destruct (Py.isspace a) eqn:Ha.
  - cbn [skip]. exact IH.
  - cbn [skip collapse_go]. now rewrite Ha.
Qed.

(** Line 48: every run of separators becomes one space. *)
Lemma sub_whitespace_run s :
  Re.sub false whitespace_run " " s = collapse_go false s.
Proof.
  remember (String.length s) as n eqn:Hn. revert s Hn.
  induction n as [n IH] using lt_wf_ind. intros [|a s] Hn.
  - now apply sub_empty.
  - pose proof (whitespace_run_match_at a s) as Hm. cbn [collapse_go].
    simpl in Hn. destruct (Py.isspace a) eqn:Ha.
    + rewrite (sub_match false _ whitespace_run _ _ _ eq_refl Hm) by lia.
      cbn [skip]. rewrite (IH (String.length (skip (run s) s)));
        [|pose proof (skip_length_le (run s) s); lia|reflexivity].
      now rewrite <- collapse_skip_run.
    + rewrite (sub_cons_nomatch false _ _ whitespace_run _ eq_refl Hm).
      f_equal. apply (IH (String.length s)); [lia|reflexivity].
Qed.

Lemma all_chars_impl (p q : ascii -> bool) s :
  (forall c, p c = true -> q c = true) ->
  all_chars p s = true -> all_chars q s = true.
Proof.
  intros Hpq. induction s as [|c s IH]; [reflexivity|]. simpl.
  intros [Hc Hs]%andb_prop. now rewrite (Hpq c Hc), IH.
Qed.

(** After line 48 a separator of the text is a single space. *)
Lemma collapse_chars b s :
  all_chars (fun c => Ascii.eqb c " " || negb (Py.isspace c))
    (collapse_go b s) = true.
Proof.
  revert b. induction s as [|a s IH]; intros b; [reflexivity|].
  cbn [collapse_go]. destruct (Py.isspace a) eqn:Ha.
  - destruct b; [apply IH|]. cbn [all_chars]. now rewrite IH.
  - cbn [all_chars]. now rewrite Ha, orb_true_r, IH.
Qed.

Lemma blank_line_no_match a s :
  Ascii.eqb a "010" = false ->
  Re.match_at false (String a s) blank_line 0 false = None.
Proof.
  intros Ha. unfold Re.match_at, blank_line. cbn [Re.m String.get].
  unfold Re.lit_has. now rewrite Ha.
Qed.

(** Line 49 on a text without line feed. *)
Lemma sub_blank_line_id repl s :
  all_chars (fun c => negb (Ascii.eqb c "010")) s = true ->
  Re.sub false blank_line repl s = s.
Proof.
  induction s as [|a s IH]; [intros _; now apply sub_empty|].
  simpl. intros [Ha Hs]%andb_prop. apply negb_true_iff in Ha.
  rewrite (sub_cons_nomatch false _ _ blank_line _ eq_refl
             (blank_line_no_match a s Ha)).
  now rewrite IH.
Qed.

Lemma collapse_no_line_feed b s :
  all_chars (fun c => negb (Ascii.eqb c "010")) (collapse_go b s) = true.
Proof.
  apply (all_chars_impl (fun c => Ascii.eqb c " " || negb (Py.isspace c)));
    [|apply collapse_chars].
  intros c Hc. destruct (Ascii.eqb_spec c "010") as [->|_]; [|reflexivity].
  discriminate Hc.
Qed.

Lemma rstrip_cons_word c t :
  Py.isspace c = false -> Py.rstrip (String c t) = String c (Py.rstrip t).
Proof. intros Hc. cbn [Py.rstrip]. rewrite Hc. now destruct (Py.rstrip t). Qed.

Lemma rstrip_app_word w t :
  all_chars (fun c => negb (Py.isspace c)) w = true ->
  Py.rstrip (w +:+ t) = w +:+ Py.rstrip t.
Proof.
  induction w as [|c w IH]; [reflexivity|]. cbn [all_chars].
  intros [Hc Hw]%andb_prop. apply negb_true_iff in Hc.
  rewrite !app_cons, rstrip_cons_word by assumption. now rewrite IH.
Qed.

Lemma rstrip_cons_space t :
  Py.rstrip (String " " t)
  = match Py.rstrip t with
    | EmptyString => EmptyString
    | r => String " " r
    end.
Proof. cbn [Py.rstrip]. now destruct (Py.rstrip t). Qed.

(** The text of line 48, stripped on the right, is the words of the text
    with one space between them. *)
Lemma collapse_split s :
  (forall cur, cur <> EmptyString ->
     all_chars (fun c => negb (Py.isspace c)) cur = true ->
     Py.rstrip (cur +:+ collapse_go false s)
     = Py.join " " (Py.split_go cur s))
  /\ Py.rstrip (collapse_go true s)
     = Py.join " " (Py.split_go EmptyString s).
Proof.
  induction s as [|a s [IHA IHB]].
  - split; [|reflexivity]. intros cur Hne Hw.
    rewrite rstrip_app_word by assumption. cbn.
    rewrite app_empty_r. now destruct cur.
  - cbn [collapse_go Py.split_go]. destruct (Py.isspace a) eqn:Ha.
    + split; [|exact IHB]. intros cur Hne Hw.
      rewrite rstrip_app_word by assumption.
      rewrite rstrip_cons_space, IHB.
      destruct cur as [|c0 cur0]; [congruence|].
      pose proof (split_go_words s EmptyString eq_refl) as Hws.
      destruct (Py.split_go EmptyString s) as [|w ws] eqn:Hsp.
      * cbn [Py.join]. apply app_empty_r.
      * rewrite join_cons2.
        destruct (Py.join " " (w :: ws)) eqn:Hj; [|reflexivity].
        exfalso. now apply (join_words_nonempty (w :: ws)).
    + split.
      * intros cur Hne Hw.
        rewrite <- IHA.
        -- now rewrite app_assoc_str.
        -- intros [? _]%app_eq_empty. contradiction.
        -- rewrite all_chars_app, Hw. simpl. now rewrite Ha.
      * change (String a (collapse_go false s))
          with (String a EmptyString +:+ collapse_go false s).
        rewrite app_empty_l. apply IHA; [discriminate|].
        simpl. now rewrite Ha.
Qed.

Lemma lstrip_collapse_true s :
  Py.lstrip (collapse_go true s) = collapse_go true s.
Proof.
  induction s as [|a s IH]; [reflexivity|].
  cbn [collapse_go]. destruct (Py.isspace a) eqn:Ha; [exact IH|].
  cbn [Py.lstrip]. now rewrite Ha.
Qed.

Lemma lstrip_collapse s :
  Py.lstrip (collapse_go false s) = collapse_go true s.
Proof.
  destruct s as [|a s]; [reflexivity|].
  cbn [collapse_go]. destruct (Py.isspace a) eqn:Ha.
  - apply lstrip_collapse_true.
  - cbn [Py.lstrip]. now rewrite Ha.
Qed.

Lemma clean_text_join_split text :
  clean_text text = Py.join " " (Py.split text).
Proof.
  destruct text as [|a s]; [reflexivity|].
  unfold clean_text. cbv zeta. rewrite sub_whitespace_run.
  rewrite sub_blank_line_id by apply collapse_no_line_feed.
  unfold Py.strip. rewrite lstrip_collapse.
  apply (collapse_split (String a s)).
Qed.

Lemma join_words_chars ws :
  Forall word ws ->
  all_chars (fun c => Ascii.eqb c " " || negb (Py.isspace c))
    (Py.join " " ws) = true.
Proof.
  assert (Hword : forall w, word w ->
            all_chars (fun c => Ascii.eqb c " " || negb (Py.isspace c)) w
            = true).
  { intros w [_ Hw]. revert Hw. apply all_chars_impl.
    intros c ->. apply orb_true_r. }
  induction 1 as [|w ws Hw Hws IH]; [reflexivity|].
  destruct ws as [|w' ws]; [now apply Hword|].
  rewrite join_cons2, !all_chars_app, IH, (Hword w Hw). reflexivity.
Qed.

(** X13 (webScraperServer.py, clean_text, lines 42-51): the cleaned text
    is the words of the text, in order, with exactly one space between
    two of them: no separator is left at either end, and tabs, line feeds
    and runs of spaces inside have become single spaces. *)
Theorem clean_text_words text :
  clean_text text = Py.join " " (Py.split text).
Proof. apply clean_text_join_split. Qed.

(** X14 (clean_text): cleaning keeps the words of the text, and cleaning a
    cleaned text changes nothing. *)
Theorem clean_text_idempotent text :
  Py.split (clean_text text) = Py.split text /\
  clean_text (clean_text text) = clean_text text.
Proof.
  rewrite !clean_text_join_split.
  rewrite (split_join _ (split_words text)). auto.
Qed.

(** X15 (clean_text, lines 48-49): the substitution of line 49, which is
    to keep blank lines as paragraph breaks, never changes the text it
    gets: line 48 has already turned every line feed into a space.  So
    the cleaned text has no line feed, and no separator but the space. *)
Theorem clean_text_no_paragraphs text :
  Re.sub false blank_line (String "010" (String "010" EmptyString))
    (Re.sub false whitespace_run " " text)
  = Re.sub false whitespace_run " " text
  /\ all_chars (fun c => Ascii.eqb c " " || negb (Py.isspace c))
       (clean_text text) = true.
Proof.
  split.
  - rewrite sub_whitespace_run. apply sub_blank_line_id, collapse_no_line_feed.
  - rewrite clean_text_join_split. apply join_words_chars, split_words.
Qed.

Lemma filter_str_all p s : all_chars p (filter_str p s) = true.
Proof.
  induction s as [|c s IH]; [reflexivity|]. cbn [filter_str].
  destruct (p c) eqn:Hc; [|exact IH]. cbn [all_chars]. now rewrite Hc.
Qed.

(** Line 73: the substitution keeps the characters of the class. *)
Lemma sub_not_name_char nom :
  Re.sub false not_name_char EmptyString nom = filter_str name_char nom.
Proof.
  unfold not_name_char. rewrite sub_class_filter.
  induction nom as [|c s IH]; [reflexivity|]. cbn [filter_str].
  rewrite IH. unfold name_char, Re.class_has.
  now destruct (existsb _ _).
Qed.

(** X16 (ragServer.py, rag_query, lines 67-74): when the question asks
    for the author and the pattern of line 69 is found in the sentence,
    the answer is the second group of the match, stripped, without the
    characters that line 73 takes out; all its characters are letters,
    apostrophes, hyphens or spaces. *)
Theorem extract_author_name question sentence mo :
  asks_author question = true ->
  Re.search true author_pattern sentence = Some mo ->
  exists g,
    Re.group mo 2 = Some g /\
    extract_author question sentence
    = Return (filter_str name_char (Py.strip g)) /\
    all_chars name_char (filter_str name_char (Py.strip g)) = true.
Proof.
  intros Hq Hs. destruct (author_pattern_group2 _ _ Hs) as [g Hg].
  exists g. split; [exact Hg|]. split; [|apply filter_str_all].
  unfold extract_author. now rewrite Hq, Hs, Hg, sub_not_name_char.
Qed.

Lemma extract_author_name_witness :
  exists g,
    extract_author "Qui est l'auteur ?" "Auteur : Jane Doe (2024)."
    = Return (filter_str name_char (Py.strip g)) /\
    filter_str name_char (Py.strip g) = "Jane Doe".
Proof.
  destruct (extract_author_name "Qui est l'auteur ?"
              "Auteur : Jane Doe (2024)." _ eq_refl eq_refl)
    as (g & Hg & He & _).
  exists g. split; [exact He|].
  vm_compute in Hg. injection Hg as <-. reflexivity.
Defined.

(** ** scrape_multiple_pages *)


Section ScraperProperties.

Context {World : Type}.
Variable is_valid_url : string -> bool.
Variable scrape_webpage :
  string -> string -> World -> tool_result string * World.
Variable sleep : Q -> World -> World.

(** One round of the loop. *)
Lemma scrape_page_run format delay len i url p :
  let p' := scrape_page is_valid_url scrape_webpage sleep
              format delay len i url p in
  exists o,
    results p' = results p ++ [block_of i url o] /\
    successful_scrapes p'
    = successful_scrapes p + (if is_page o then 1 else 0) /\
    (is_valid_url url = false -> o = inr "URL invalide") /\
    fetched (events p')
    = fetched (events p) ++ (if is_valid_url url then [(url, format)] else [])
    /\
    slept (events p')
    = slept (events p)
      ++ (if is_page o && (i <? len - 1) then [delay] else []).
Proof.
  unfold scrape_page. destruct (is_valid_url url) eqn:Hv; cbn [negb].
  - destruct (scrape_webpage url format (world p)) as [[content|code msg] w].
    + exists (inl content). cbn [results successful_scrapes events is_page
                                 block_of andb].
      split; [reflexivity|]. split; [reflexivity|]. split; [discriminate|].
      unfold fetched, slept. rewrite !omap_app.
      now destruct (i <? len - 1).
    + exists (inr msg). cbn [results successful_scrapes events is_page
                             block_of andb].
      split; [reflexivity|]. split; [now rewrite Z.add_0_r|].
      split; [discriminate|].
      unfold fetched, slept. rewrite !omap_app. cbn.
      now rewrite app_nil_r.
  - exists (inr "URL invalide").
    cbn [results successful_scrapes events is_page block_of andb].
    split; [reflexivity|]. split; [now rewrite Z.add_0_r|].
    split; [reflexivity|]. now rewrite !app_nil_r.
Qed.

(** The loop from the index [i] on. *)
Lemma scrape_pages_run format delay len : forall urls i p,
  let p' := scrape_pages is_valid_url scrape_webpage sleep
              format delay len i urls p in
  exists outs k,
    length outs = length urls /\
    results p' = results p ++ blocks i urls outs /\
    successful_scrapes p' = successful_scrapes p + Z.of_nat (pages_ok outs) /\
    Forall2 (fun url o => is_valid_url url = false -> o = inr "URL invalide")
      urls outs /\
    fetched (events p')
    = fetched (events p)
      ++ map (fun url => (url, format)) (List.filter is_valid_url urls) /\
    slept (events p') = slept (events p) ++ replicate k delay /\
    (i + Z.of_nat (length urls) = len ->
     (k <= pages_ok outs <= k + 1)%nat /\ (k <= length urls - 1)%nat).
Proof.
  induction urls as [|url urls IH]; intros i p; cbn [scrape_pages].
  - exists [], 0%nat. cbn. rewrite !app_nil_r, Z.add_0_r.
    do 3 (split; [reflexivity|]). split; [constructor|].
    do 2 (split; [reflexivity|]). intros _. unfold pages_ok. cbn. lia.
  - destruct (scrape_page_run format delay len i url p)
      as (o & Hr & Hs & Hv & Hf & Hz).
    destruct (IH (i + 1)
                (scrape_page is_valid_url scrape_webpage sleep
                   format delay len i url p))
      as (outs & k & Hlen & Hr' & Hs' & Hv' & Hf' & Hz' & Hk).
    exists (o :: outs),
      ((if is_page o && (i <? len - 1)%Z then 1 else 0) + k)%nat.
    split; [cbn [length]; now rewrite Hlen|].
    split; [rewrite Hr', Hr, <- app_assoc; reflexivity|].
    split.
    { rewrite Hs', Hs. unfold pages_ok. cbn [List.filter].
      destruct (is_page o); cbn [length]; lia. }
    split; [now constructor|].
    split.
    { rewrite Hf', Hf, <- app_assoc. cbn [List.filter].
      now destruct (is_valid_url url). }
    split.
    { rewrite Hz', Hz, <- app_assoc.
      now destruct (is_page o && (i <? len - 1)). }
    intros Hi. cbn [length] in Hi.
    destruct Hk as [Hk1 Hk2]; [lia|].
    unfold pages_ok in *. cbn [List.filter length].
    destruct (Z.ltb_spec i (len - 1)) as [Hlt|Hge].
    + rewrite andb_true_r. destruct (is_page o); cbn [length]; lia.
    + rewrite andb_false_r. assert (length urls = 0%nat) as Hnil by lia.
      rewrite Hnil in Hk2, Hlen. destruct outs; [|discriminate].
      destruct (is_page o); cbn [List.filter length]; lia.
Qed.

(** The whole call, when the list of URLs is accepted. *)
Lemma scrape_multiple_pages_run urls format delay max_pages w :
  urls <> [] ->
  Z.of_nat (length urls) <= max_pages ->
  let seconds := if Qltb delay (1 # 10) then (1 # 10)%Q else delay in
  exists outs k w' evs,
    scrape_multiple_pages is_valid_url scrape_webpage sleep
      urls format delay max_pages w
    = (Done (summary (Z.of_nat (length urls)) (Z.of_nat (pages_ok outs))
             +:+ Py.join line_feed (blocks 0 urls outs)), w', evs) /\
    length outs = length urls /\
    Forall2 (fun url o => is_valid_url url = false -> o = inr "URL invalide")
      urls outs /\
    fetched evs
    = map (fun url => (url, format)) (List.filter is_valid_url urls) /\
    slept evs = replicate k seconds /\
    (k <= pages_ok outs <= k + 1)%nat /\ (k <= length urls - 1)%nat.
Proof.
  intros Hne Hmax seconds. unfold scrape_multiple_pages.
  destruct urls as [|url urls]; [congruence|].
  rewrite (proj2 (Z.ltb_ge _ _)) by exact Hmax. cbv zeta. fold seconds.
  set (p0 := {| results := []; successful_scrapes := 0;
                world := w; events := [] |}).
  destruct (scrape_pages_run format seconds
              (Z.of_nat (length (url :: urls))) (url :: urls) 0 p0)
    as (outs & k & Hlen & Hr & Hs & Hv & Hf & Hz & Hk).
  destruct Hk as [Hk1 Hk2]; [lia|].
  exists outs, k. eexists. eexists.
  split; [|repeat (split; [eassumption|]); assumption].
  now rewrite Hr, Hs.
Qed.



(** X19 (scrape_multiple_pages, lines 336-344): when the list is
    accepted, [scrape_webpage] is called exactly once for each valid URL
    of the list, in the order of the list and with the format of the
    call (the format itself is not checked here); a URL that is not valid
    is never requested, and a failed request is not tried again. *)
Theorem scrape_multiple_pages_fetches urls format delay max_pages w :
  urls <> [] ->
  Z.of_nat (length urls) <= max_pages ->
  fetched (snd (scrape_multiple_pages is_valid_url scrape_webpage sleep
                  urls format delay max_pages w))
  = map (fun url => (url, format)) (List.filter is_valid_url urls).
Proof.
  intros Hne Hmax.
  destruct (scrape_multiple_pages_run urls format delay max_pages w Hne Hmax)
    as (outs & k & w' & evs & Hrun & _ & _ & Hf & _).
  now rewrite Hrun.
Qed.


End ScraperProperties.



Lemma scrape_multiple_pages_fetches_witness :
  fetched (snd (DemoWeb.scrape_multiple_pages
                  ["https://a.example"; "ftp://b.example";
                   "https://c.example"] "text" 1 10 0%nat))
  = [("https://a.example", "text"); ("https://c.example", "text")].
Proof.
  apply (scrape_multiple_pages_fetches DemoWeb.is_valid_url
           DemoWeb.scrape_webpage DemoWeb.sleep
           ["https://a.example"; "ftp://b.example"; "https://c.example"]
           "text" 1 10 0%nat); [discriminate|vm_compute; discriminate].
Defined.


(** ** extract_links *)

Lemma substring_prefix_length n : forall s,
  (String.length (String.substring 0 n s) <= n)%nat.
Proof.
  induction n as [|n IH]; intros [|c s]; simpl; try lia.
  specialize (IH s). lia.
Qed.

(** Lines 441-450: what the loop keeps. *)
Lemma unique_from_spec links : forall seen_urls,
  NoDup (map Links.url (unique_from seen_urls links)) /\
  Forall (fun l =>
            (Links.url l ∉ seen_urls) /\
            List.find (fun c => String.eqb (Links.url c) (Links.url l)) links
            = Some l)
    (unique_from seen_urls links) /\
  Forall (fun c =>
            (Links.url c ∈ seen_urls) \/
            In (Links.url c) (map Links.url (unique_from seen_urls links)))
    links.
Proof.
  induction links as [|link links IH]; intros seen_urls; cbn [unique_from].
  - split; [constructor|]. split; constructor.
  - destruct (decide (Links.url link ∈ seen_urls)) as [Hin|Hout].
    + destruct (IH seen_urls) as (Hnd & Hfirst & Hall).
      split; [exact Hnd|]. split.
      * eapply Forall_impl; [exact Hfirst|]. intros l [Hl Hfind].
        split; [exact Hl|]. cbn [List.find].
        destruct (String.eqb_spec (Links.url link) (Links.url l)) as [He|_];
          [|exact Hfind].
        rewrite He in Hin. contradiction.
      * constructor; [now left|exact Hall].
    + destruct (IH (seen_urls ∪ {[Links.url link]})) as (Hnd & Hfirst & Hall).
      split; [|split].
      * cbn [map]. apply NoDup_cons. split; [|exact Hnd].
        intros Hdup%list_elem_of_In%in_map_iff.
        destruct Hdup as (l & Hurl & Hl%list_elem_of_In).
        rewrite Forall_forall in Hfirst.
        destruct (Hfirst l Hl) as [Hnot _]. apply Hnot.
        apply elem_of_union_r, elem_of_singleton. now symmetry.
      * constructor.
        -- split; [exact Hout|]. cbn [List.find].
           now rewrite String.eqb_refl.
        -- eapply Forall_impl; [exact Hfirst|]. intros l [Hl Hfind].
           split; [intros Hseen; apply Hl; now apply elem_of_union_l|].
           cbn [List.find].
           destruct (String.eqb_spec (Links.url link) (Links.url l))
             as [He|_]; [|exact Hfind].
           exfalso. apply Hl. rewrite He.
           now apply elem_of_union_r, elem_of_singleton.
      * constructor; [right; now left|].
        eapply Forall_impl; [exact Hall|]. intros c [Hc|Hc].
        -- apply elem_of_union in Hc as [Hc|Hc]; [now left|].
           apply elem_of_singleton in Hc. right. left. now symmetry.
        -- right. now right.
Qed.

Lemma unique_from_subset links : forall seen_urls l,
  In l (unique_from seen_urls links) -> In l links.
Proof.
  induction links as [|link links IH]; intros seen_urls l; cbn [unique_from];
    [easy|].
  destruct (decide (Links.url link ∈ seen_urls)).
  - intros H. right. now apply (IH seen_urls).
  - intros [->|H]; [now left|]. right. now apply (IH _ _ H).
Qed.

Lemma count_two_kinds {A} (f g : A -> bool) l :
  Forall (fun x => f x = negb (g x)) l ->
  length l = (length (List.filter f l) + length (List.filter g l))%nat.
Proof.
  induction 1 as [|x l Hx Hl IH]; [reflexivity|].
  cbn [List.filter length]. rewrite Hx.
  destruct (g x); cbn [negb length]; lia.
Qed.

Lemma filter_none {A} (f : A -> bool) l :
  Forall (fun x => f x = false) l -> List.filter f l = [].
Proof.
  induction 1 as [|x l Hx Hl IH]; [reflexivity|].
  cbn [List.filter]. now rewrite Hx.
Qed.

Section ExtractLinksProperties.

Context {World Response : Type}.
Variable is_valid_url : string -> bool.
Variable netloc : string -> string.
Variable urljoin : string -> string -> outcome string.
Variable safe_request : string -> World -> tool_result Response * World.
Variable anchors : Response -> list (string * string).
Variable strftime : World -> string.
Variable dumps : Links.result -> string.

(** What a link that the loop of lines 407-443 appends looks like. *)
Lemma candidate_link url filter_domain link_type a l :
  candidate is_valid_url netloc urljoin url filter_domain link_type a
  = Some l ->
  is_valid_url (Links.url l) = true /\
  Links.type l
  = (if String.eqb (netloc (Links.url l)) (netloc url)
     then "internal" else "external") /\
  Links.text l <> EmptyString /\
  (String.length (Links.text l) <= 200)%nat /\
  (link_type = "internal" \/ filter_domain = true ->
   Links.type l = "internal") /\
  (link_type = "external" -> Links.type l = "external").
Proof.
  unfold candidate.
  destruct (_ || _); [discriminate|].
  destruct (urljoin url (Py.strip (fst a))) as [absolute_url|]; [|discriminate].
  destruct (is_valid_url absolute_url) eqn:Hv; [|discriminate]. cbn [negb].
  destruct (String.eqb (netloc absolute_url) (netloc url)) eqn:Hint;
    cbn [negb]; rewrite ?andb_true_r, ?andb_false_r.
  - destruct (String.eqb_spec link_type "external") as [->|Hext];
      [discriminate|].
    cbn [orb]. intros [= <-]. cbn [Links.url Links.type Links.text].
    rewrite Hint. split; [exact Hv|]. split; [reflexivity|]. split.
    { destruct (clean_text (snd a)); discriminate. }
    split.
    { destruct (clean_text (snd a)) eqn:Hc; [cbn; lia|].
      apply substring_prefix_length. }
    split; [reflexivity|]. intros ->. congruence.
  - destruct (String.eqb_spec link_type "internal") as [->|Hnot];
      [discriminate|].
    cbn [orb]. destruct filter_domain; [discriminate|].
    intros [= <-]. cbn [Links.url Links.type Links.text].
    rewrite Hint. split; [exact Hv|]. split; [reflexivity|]. split.
    { destruct (clean_text (snd a)); discriminate. }
    split.
    { destruct (clean_text (snd a)) eqn:Hc; [cbn; lia|].
      apply substring_prefix_length. }
    split; [|reflexivity]. intros [->|[=]]. congruence.
Qed.

Lemma links_result_links url filter_domain link_type response w l :
  In l (Links.links
          (links_result is_valid_url netloc urljoin anchors strftime
             url filter_domain link_type response w)) ->
  exists a, In a (anchors response) /\
    candidate is_valid_url netloc urljoin url filter_domain link_type a
    = Some l.
Proof.
  cbn [links_result Links.links]. intros Hl%unique_from_subset.
  apply list_elem_of_In, list_elem_of_omap in Hl as (a & Ha & Hc).
  exists a. split; [now apply list_elem_of_In|exact Hc].
Qed.

(** X21 (webScraperServer.py, extract_links, lines 386-464): for a valid
    URL, a link type among "all", "internal" and "external" and a request
    that succeeds, the tool returns the serialisation of a dictionary in
    which no URL occurs twice, [total_links] is the number of links and
    the sum of [internal_links] and [external_links], and every link has
    a valid URL, a text that is not empty and has at most 200
    characters, and the type "internal" when its host is the host of the
    page, "external" otherwise. *)
Theorem extract_links_report url filter_domain link_type w response w' :
  is_valid_url url = true ->
  In link_type valid_link_types ->
  safe_request url w = (Done response, w') ->
  exists r,
    extract_links is_valid_url netloc urljoin safe_request anchors strftime
      dumps url filter_domain link_type w
    = (Done (dumps r), w') /\
    Links.source_url r = url /\
    NoDup (map Links.url (Links.links r)) /\
    Links.total_links r = length (Links.links r) /\
    Links.total_links r
    = (Links.internal_links r + Links.external_links r)%nat /\
    Forall (fun l =>
              is_valid_url (Links.url l) = true /\
              Links.text l <> EmptyString /\
              (String.length (Links.text l) <= 200)%nat /\
              Links.type l
              = (if String.eqb (netloc (Links.url l)) (netloc url)
                 then "internal" else "external"))
      (Links.links r).
Proof.
  intros Hv Ht Hreq.
  exists (links_result is_valid_url netloc urljoin anchors strftime
            url filter_domain link_type response w').
  assert (Hlinks : Forall (fun l =>
              is_valid_url (Links.url l) = true /\
              Links.text l <> EmptyString /\
              (String.length (Links.text l) <= 200)%nat /\
              Links.type l
              = (if String.eqb (netloc (Links.url l)) (netloc url)
                 then "internal" else "external"))
            (Links.links
               (links_result is_valid_url netloc urljoin anchors strftime
                  url filter_domain link_type response w'))).
  { apply Forall_forall. intros l Hl%list_elem_of_In.
    apply links_result_links in Hl as (a & _ & Hc).
    apply candidate_link in Hc as (H1 & H2 & H3 & H4 & _). auto. }
  split.
  { unfold extract_links. rewrite Hv. cbn [negb].
    replace (existsb (String.eqb link_type) valid_link_types) with true.
    - cbn [negb]. now rewrite Hreq.
    - symmetry. apply existsb_exists. exists link_type.
      split; [exact Ht|apply String.eqb_refl]. }
  split; [reflexivity|]. split.
  { apply (unique_from_spec _ ∅). }
  split; [reflexivity|]. split; [|exact Hlinks].
  cbn [links_result Links.total_links Links.internal_links
       Links.external_links].
  apply count_two_kinds. eapply Forall_impl; [exact Hlinks|].
  intros l (_ & _ & _ & ->).
  now destruct (String.eqb (netloc (Links.url l)) (netloc url)).
Qed.

(** X22 (extract_links, lines 422-430): what the two filters do to the
    dictionary.  With the link type "internal", and also with
    [filter_domain], every link is internal and [external_links] is 0;
    with the link type "external" every link is external and
    [internal_links] is 0; with the link type "external" and
    [filter_domain] together the list of links is empty, whatever the
    page holds. *)
Theorem extract_links_filters url filter_domain link_type response w :
  let r := links_result is_valid_url netloc urljoin anchors strftime
             url filter_domain link_type response w in
  (link_type = "internal" \/ filter_domain = true ->
   Forall (fun l => Links.type l = "internal") (Links.links r) /\
   Links.external_links r = 0%nat) /\
  (link_type = "external" ->
   Forall (fun l => Links.type l = "external") (Links.links r) /\
   Links.internal_links r = 0%nat) /\
  (link_type = "external" -> filter_domain = true ->
   Links.links r = [] /\ Links.total_links r = 0%nat).
Proof.
  intros r.
  assert (Hint : link_type = "internal" \/ filter_domain = true ->
                 Forall (fun l => Links.type l = "internal") (Links.links r)).
  { intros H. apply Forall_forall. intros l Hl%list_elem_of_In.
    apply links_result_links in Hl as (a & _ & Hc).
    apply candidate_link in Hc as (_ & _ & _ & _ & H5 & _). now apply H5. }
  assert (Hext : link_type = "external" ->
                 Forall (fun l => Links.type l = "external") (Links.links r)).
  { intros H. apply Forall_forall. intros l Hl%list_elem_of_In.
    apply links_result_links in Hl as (a & _ & Hc).
    apply candidate_link in Hc as (_ & _ & _ & _ & _ & H6). now apply H6. }
  split; [|split].
  - intros H. split; [now apply Hint|].
    cbn [r links_result Links.external_links]. rewrite filter_none; [easy|].
    eapply Forall_impl; [exact (Hint H)|]. now intros l ->.
  - intros H. split; [now apply Hext|].
    cbn [r links_result Links.internal_links]. rewrite filter_none; [easy|].
    eapply Forall_impl; [exact (Hext H)|]. now intros l ->.
  - intros H1 H2. specialize (Hint (or_intror H2)). specialize (Hext H1).
    assert (Hnil : Links.links r = []).
    { destruct (Links.links r) as [|l ls]; [reflexivity|].
      inversion Hint as [|? ? Hi _]; inversion Hext as [|? ? He _]; subst.
      congruence. }
    split; [exact Hnil|].
    change (Links.total_links r) with (length (Links.links r)).
    now rewrite Hnil.
Qed.

(** X23 (extract_links, lines 441-450): of the anchors that pass the
    filters, the dictionary keeps for every URL the first one, and only
    that one: each link of the list is the first link that the loop
    appended for its URL, and the URL of every link that the loop
    appended is in the list. *)
Theorem extract_links_first_anchor url filter_domain link_type response w :
  let appended :=
    omap (candidate is_valid_url netloc urljoin url filter_domain link_type)
      (anchors response) in
  let r := links_result is_valid_url netloc urljoin anchors strftime
             url filter_domain link_type response w in
  Forall (fun l =>
            List.find (fun c => String.eqb (Links.url c) (Links.url l))
              appended = Some l)
    (Links.links r) /\
  Forall (fun c => In (Links.url c) (map Links.url (Links.links r)))
    appended.
Proof.
  intros appended r.
  destruct (unique_from_spec appended ∅) as (_ & Hfirst & Hall).
  split.
  - eapply Forall_impl; [exact Hfirst|]. now intros l [_ H].
  - eapply Forall_impl; [exact Hall|]. intros c [Hc|Hc]; [|exact Hc].
    now apply not_elem_of_empty in Hc.
Qed.

End ExtractLinksProperties.

Lemma extract_links_report_witness :
  exists r,
    DemoLinks.extract_links "https://a.example/" false "all" 0%nat
    = (Done (DemoLinks.dumps r), 1%nat) /\
    Links.source_url r = "https://a.example/" /\
    NoDup (map Links.url (Links.links r)) /\
    Links.total_links r = length (Links.links r) /\
    Links.total_links r
    = (Links.internal_links r + Links.external_links r)%nat /\
    Forall (fun l =>
              DemoWeb.is_valid_url (Links.url l) = true /\
              Links.text l <> EmptyString /\
              (String.length (Links.text l) <= 200)%nat /\
              Links.type l
              = (if String.eqb (DemoLinks.netloc (Links.url l))
                      (DemoLinks.netloc "https://a.example/")
                 then "internal" else "external"))
      (Links.links r).
Proof.
  apply (extract_links_report DemoWeb.is_valid_url DemoLinks.netloc
           DemoLinks.urljoin DemoLinks.safe_request DemoLinks.anchors
           DemoLinks.strftime DemoLinks.dumps
           "https://a.example/" false "all" 0%nat
           [ ("/about", "About  us"); ("#top", "Top");
             ("https://b.example/x", "Partner");
             (" /about ", "About again"); ("/contact", EmptyString) ]
           1%nat);
    [reflexivity|now left|reflexivity].
Defined.

Lemma extract_links_filters_witness :
  Links.links
    (DemoLinks.links_result "https://a.example/" true "external"
       [ ("/about", "About  us"); ("https://b.example/x", "Partner") ] 1%nat)
  = [].
Proof.
  destruct (extract_links_filters DemoWeb.is_valid_url DemoLinks.netloc
              DemoLinks.urljoin DemoLinks.anchors DemoLinks.strftime
              "https://a.example/" true "external"
              [ ("/about", "About  us"); ("https://b.example/x", "Partner") ]
              1%nat) as (_ & _ & H).
  now apply H.
Defined.

Lemma extract_links_first_anchor_witness :
  Forall (fun l =>
            List.find (fun c => String.eqb (Links.url c) (Links.url l))
              (omap (candidate DemoWeb.is_valid_url DemoLinks.netloc
                       DemoLinks.urljoin "https://a.example/" false "all")
                 [ ("/about", "About  us"); (" /about ", "About again") ])
            = Some l)
    (Links.links
       (DemoLinks.links_result "https://a.example/" false "all"
          [ ("/about", "About  us"); (" /about ", "About again") ] 1%nat)).
Proof.
  apply (extract_links_first_anchor DemoWeb.is_valid_url DemoLinks.netloc
           DemoLinks.urljoin DemoLinks.anchors DemoLinks.strftime
           "https://a.example/" false "all"
           [ ("/about", "About  us"); (" /about ", "About again") ] 1%nat).
Defined.

(** ** The list of URLs of the client *)

Lemma rstrip_spaces s : all_chars Py.isspace s = true -> Py.rstrip s = EmptyString.
Proof.
  induction s as [|c s IH]; [reflexivity|]. cbn [all_chars Py.rstrip].
  intros [Hc Hs]%andb_prop. now rewrite (IH Hs), Hc.
Qed.

Lemma rstrip_nonempty s :
  all_chars Py.isspace s = false -> Py.rstrip s <> EmptyString.
Proof.
  induction s as [|c s IH]; [discriminate|]. cbn [all_chars Py.rstrip].
  destruct (Py.isspace c) eqn:Hc; cbn [andb].
  - intros Hs. specialize (IH Hs). now destruct (Py.rstrip s).
  - intros _. now destruct (Py.rstrip s).
Qed.

Lemma rstrip_idempotent s : Py.rstrip (Py.rstrip s) = Py.rstrip s.
Proof.
  induction s as [|c s IH]; [reflexivity|]. cbn [Py.rstrip].
  destruct (Py.rstrip s) as [|c' r] eqn:Hr.
  - destruct (Py.isspace c) eqn:Hc; [reflexivity|].
    cbn [Py.rstrip]. now rewrite Hc.
  - change (Py.rstrip (String c (String c' r))
            = String c (String c' r)).
    cbn [Py.rstrip] in *. rewrite IH. reflexivity.
Qed.

Lemma lstrip_spaces s :
  all_chars Py.isspace (Py.lstrip s) = all_chars Py.isspace s.
Proof.
  induction s as [|c s IH]; [reflexivity|]. cbn [Py.lstrip all_chars].
  destruct (Py.isspace c) eqn:Hc; [exact IH|].
  cbn [all_chars]. now rewrite Hc.
Qed.

Lemma lstrip_head s :
  match Py.lstrip s with
  | EmptyString => True
  | String c _ => Py.isspace c = false
  end.
Proof.
  induction s as [|c s IH]; [exact I|]. cbn [Py.lstrip].
  destruct (Py.isspace c) eqn:Hc; [exact IH|exact Hc].
Qed.

Lemma strip_idempotent s : Py.strip (Py.strip s) = Py.strip s.
Proof.
  unfold Py.strip. pose proof (lstrip_head s) as Hhead.
  destruct (Py.lstrip s) as [|c t]; [reflexivity|].
  rewrite (rstrip_cons_word c t Hhead). cbn [Py.lstrip]. rewrite Hhead.
  now rewrite (rstrip_cons_word c _ Hhead), rstrip_idempotent.
Qed.

Lemma strip_nonempty s :
  all_chars Py.isspace s = false <-> Py.strip s <> EmptyString.
Proof.
  unfold Py.strip. rewrite <- lstrip_spaces. split.
  - apply rstrip_nonempty.
  - intros Hne. destruct (all_chars Py.isspace (Py.lstrip s)) eqn:Hs;
      [|reflexivity].
    now apply rstrip_spaces in Hs.
Qed.

Lemma lstrip_all_chars p s :
  all_chars p s = true -> all_chars p (Py.lstrip s) = true.
Proof.
  induction s as [|c s IH]; [reflexivity|]. cbn [Py.lstrip].
  destruct (Py.isspace c); [|easy]. cbn [all_chars].
  intros [_ Hs]%andb_prop. now apply IH.
Qed.

Lemma rstrip_all_chars p s :
  all_chars p s = true -> all_chars p (Py.rstrip s) = true.
Proof.
  induction s as [|c s IH]; [reflexivity|]. cbn [all_chars Py.rstrip].
  intros [Hc Hs]%andb_prop. specialize (IH Hs).
  destruct (Py.rstrip s) as [|c' r].
  - destruct (Py.isspace c); [reflexivity|]. cbn [all_chars]. now rewrite Hc.
  - cbn [all_chars] in *. now rewrite Hc.
Qed.

(** The pieces of [s.split(sep)] do not hold the separator. *)
Lemma split_on_pieces sep s :
  Forall (fun piece => all_chars (fun c => negb (Ascii.eqb c sep)) piece = true)
    (split_on sep s).
Proof.
  induction s as [|c s IH]; cbn [split_on].
  - now repeat constructor.
  - destruct (Ascii.eqb c sep) eqn:Hc; [now constructor|].
    destruct (split_on sep s) as [|piece pieces]; [constructor|].
    inversion IH as [|? ? Hp Hps]; subst. constructor; [|exact Hps].
    cbn [all_chars]. now rewrite Hc, Hp.
Qed.

(** A character of [s] that is not a separator, the separator of the
    split being one, is in one of the pieces. *)
Lemma split_on_keeps sep s :
  Py.isspace sep = true ->
  all_chars Py.isspace s = false ->
  exists piece, In piece (split_on sep s) /\
                all_chars Py.isspace piece = false.
Proof.
  intros Hsep. induction s as [|c s IH]; [discriminate|].
  cbn [all_chars split_on]. destruct (Ascii.eqb_spec c sep) as [->|Hc].
  - rewrite Hsep. cbn [andb]. intros Hs.
    destruct (IH Hs) as (piece & Hin & Hp). exists piece. split; [now right|easy].
  - destruct (Py.isspace c) eqn:Hsp; cbn [andb].
    + intros Hs. destruct (IH Hs) as (piece & Hin & Hp).
      destruct (split_on sep s) as [|piece0 pieces]; [easy|].
      destruct Hin as [<-|Hin].
      * exists (String c piece0). split; [now left|].
        cbn [all_chars]. now rewrite Hsp, Hp.
      * exists piece. split; [now right|easy].
    + intros _. pose proof (split_on_pieces sep s) as Hne.
      destruct (split_on sep s) as [|piece0 pieces] eqn:Hsplit.
      * exfalso. clear -Hsplit. induction s as [|c' s IH]; [discriminate|].
        cbn [split_on] in Hsplit. destruct (Ascii.eqb c' sep); [discriminate|].
        destruct (split_on sep s); [now apply IH|discriminate].
      * exists (String c piece0). split; [now left|].
        cbn [all_chars]. now rewrite Hsp.
Qed.

(** X24 (streamlitClient.py, lines 194-211): when the text area holds
    more than whitespace, which line 194 checks, the list of URLs sent to
    the tool is not empty, so the warning of lines 210-211 is never
    shown; every entry of the list is a line of the text area without
    the whitespace around it: it is not empty, stripping it again
    changes nothing, and it holds no line feed. *)
Theorem urls_list_entries urls_text :
  Py.strip urls_text <> EmptyString ->
  urls_list urls_text <> [] /\
  Forall (fun url =>
            url <> EmptyString /\ Py.strip url = url /\
            all_chars (fun c => negb (Ascii.eqb c "010")) url = true)
    (urls_list urls_text).
Proof.
  intros Hne. unfold urls_list. split.
  - destruct (split_on_keeps "010" (Py.strip urls_text) eq_refl)
      as (piece & Hin & Hp).
    { apply strip_nonempty. now rewrite strip_idempotent. }
    intros Hnil%map_eq_nil.
    assert (Hmem : In piece
              (List.filter
                 (fun url => negb (String.eqb (Py.strip url) EmptyString))
                 (split_on "010" (Py.strip urls_text)))).
    { apply filter_In. split; [exact Hin|]. apply negb_true_iff.
      apply String.eqb_neq. now apply strip_nonempty. }
    rewrite Hnil in Hmem. exact Hmem.
  - apply Forall_forall. intros url Hurl%list_elem_of_In%in_map_iff.
    destruct Hurl as (line & <- & Hline%filter_In).
    destruct Hline as [Hin Hkeep]. apply negb_true_iff, String.eqb_neq in Hkeep.
    split; [exact Hkeep|]. split; [apply strip_idempotent|].
    pose proof (split_on_pieces "010" (Py.strip urls_text)) as Hp.
    rewrite Forall_forall in Hp. specialize (Hp line).
    unfold Py.strip at 1. apply rstrip_all_chars, lstrip_all_chars, Hp.
    now apply list_elem_of_In.
Qed.

Lemma urls_list_entries_witness :
  urls_list (String "010" (" https://a.example " +:+ String "010"
               (String "010" ("https://b.example" +:+ String "010" "  "))))
  <> [] /\
  Forall (fun url =>
            url <> EmptyString /\ Py.strip url = url /\
            all_chars (fun c => negb (Ascii.eqb c "010")) url = true)
    (urls_list (String "010" (" https://a.example " +:+ String "010"
                  (String "010" ("https://b.example" +:+ String "010" "  "))))).
Proof.
  apply urls_list_entries. vm_compute. discriminate.
Defined.

(** ** The model on sample inputs *)

Example split_ex1 :
  Py.split (String "009" "a" +:+ String "010" (String "160" "b  c ")
            +:+ String "031" "") = ["a"; "b"; "c"].
Proof. vm_compute. reflexivity. Qed.

(** "ÉCOLE-À" in lower case is "école-à". *)
Example lower_ex1 :
  Py.lower (String "201" "COLE-" +:+ String "192" "")
  = String "233" "cole-" +:+ String "224" "".
Proof. vm_compute. reflexivity. Qed.

Example strip_ex1 : Py.strip "  Jane Doe   " = "Jane Doe".
Proof. reflexivity. Qed.

Example getitem_ex1 :
  Py.getitem ["a"; "b"; "c"] (-1) = Return "c" /\
  Py.getitem ["a"; "b"; "c"] 3 = Raise IndexError /\
  Py.getitem (@nil string) (-1) = Raise IndexError.
Proof. repeat split. Qed.

Example re_split_ex1 :
  Re.split false sentence_end "Hi there.  How are you? Fine .no. "
  = ["Hi there."; "How are you?"; "Fine .no."; ""].
Proof. vm_compute. reflexivity. Qed.

Example re_sub_ex1 :
  Re.sub false (Re.Star (Re.Lit "x")) "-" "abxd" = "-a-b--d-".
Proof. vm_compute. reflexivity. Qed.

Example re_split_ex2 :
  Re.split false (Re.Star (Re.Lit "x")) "axbc" = [""; "a"; ""; "b"; "c"; ""].
Proof. vm_compute. reflexivity. Qed.

(** The class of line 69 under IGNORECASE holds the upper-case E with
    circumflex, U+00CA, though only the lower-case one is written in it;
    the class of line 73 drops digits and full stops. *)
Example re_search_ex1 :
  (mo ← Re.search true author_pattern
          ("L'AUTEUR - " +:+ String "202" "ve O'Neil-Smith 3e.") ;
   Re.group mo 2)
  = Some (String "202" "ve O'Neil-Smith ").
Proof. vm_compute. reflexivity. Qed.

(** No label of the pattern is found in the English sentence. *)
Example re_search_ex2 :
  Re.search true author_pattern "Presented by Jane Doe." = None.
Proof. vm_compute. reflexivity. Qed.

Example re_sub_ex2 :
  Re.sub false not_name_char "" "J. R. R. Tolkien (1892)" = "J R R Tolkien ".
Proof. vm_compute. reflexivity. Qed.

Example chunk_text_ex1 :
  chunk_text "  a bb  ccc d e " 2 = Return ["a bb"; "ccc d"; "e"].
Proof. reflexivity. Qed.

(** [range] refuses a step of 0 and is empty for a negative step. *)
Example chunk_text_ex2 :
  chunk_text "a b c" 0 = Raise ValueError /\
  chunk_text "a b c" (-2) = Return [].
Proof. split; reflexivity. Qed.

(** A session from ingestion to answers. *)
Example session_ex1 :
  let st1 := snd (Demo.index_pdf "cv.pdf" "s1" init_state) in
  fst (Demo.index_pdf "cv.pdf" "s1" init_state)
  = Return ("PDF index" +:+ e_acute +:+ " avec 1 passages.") /\
  fst (Demo.rag_query
         ("Qui a pr" +:+ e_acute +:+ "sent" +:+ e_acute +:+ " ?") "s1" st1)
  = Return "Jane Doe" /\
  fst (Demo.rag_query "hello" "s1" st1)
  = Return ("Pr" +:+ e_acute +:+ "sent" +:+ e_acute +:+ " par Jane Doe.") /\
  fst (Demo.rag_query "hello" "s2" st1) = Return no_index_message /\
  fst (Demo.index_pdf "missing.pdf" "s1" st1) = Raise OSError.
Proof. vm_compute. repeat split. Qed.
